(** * Onboarding: discount validation, job orchestration and pricing

    A shallow embedding of the validation-and-generation core of the
    onboarding server:

    - [Validator]    validation_generation/validation/blackbaudDiscountValidator.js
    - [Pricing]      the fee block of buildPdfPayload (main server) and of
                     buildPayload / rateForMember (validation_generation/server.js)
    - [Orchestrator] hasDiscountRequest, runMemberValidationsSequential, the
                     JOBS registry and POST /validate-and-generate/:token

    Conventions.  JavaScript strings are modelled as [string] over ASCII; on
    such strings Unicode NFD normalisation is the identity.  Numbers that the
    code only compares or adds are [Z].  Calls to the outside world (the
    Directory, the record store, the renderer) are functions supplied by a
    world record, and every call made is recorded in a trace.  Field and
    column names are the defaults the code uses when no environment variable
    overrides them, and the tables are taken as configured.  One call of
    validateDiscount sees one snapshot of the Directory and one reading of
    the clock.  The process time zone is a fixed offset from UTC, and the
    dates that are rendered are valid dates.  A call to the outside world
    returns or throws: a call that never returns is not modelled. *)

From Stdlib Require Import ZArith String Ascii List Lia Bool DecimalString Sorted.
From stdpp Require Import base option list gmap strings.
Import ListNotations.
Local Open Scope string_scope.
Local Open Scope Z_scope.

(* ===================================================================== *)
(** ** JavaScript string primitives, on ASCII                             *)
(* ===================================================================== *)

Module Str.

(** [\s] restricted to ASCII: TAB, LF, VT, FF, CR and SPACE. *)
Definition isSpace (c : ascii) : bool :=
  let n := nat_of_ascii c in
  (Nat.eqb n 32 || (Nat.leb 9 n && Nat.leb n 13))%bool.

Definition isLowerAlpha (c : ascii) : bool :=
  let n := nat_of_ascii c in (Nat.leb 97 n && Nat.leb n 122)%bool.

Definition isDigit (c : ascii) : bool :=
  let n := nat_of_ascii c in (Nat.leb 48 n && Nat.leb n 57)%bool.

Definition toLowerChar (c : ascii) : ascii :=
  let n := nat_of_ascii c in
  if (Nat.leb 65 n && Nat.leb n 90)%bool then ascii_of_nat (n + 32) else c.

Fixpoint map (f : ascii -> ascii) (s : string) : string :=
  match s with
  | EmptyString => EmptyString
  | String c s' => String (f c) (map f s')
  end.

(** [String.prototype.toLowerCase] *)
Definition toLowerCase (s : string) : string := map toLowerChar s.

Fixpoint trimStart (s : string) : string :=
  match s with
  | EmptyString => EmptyString
  | String c s' => if isSpace c then trimStart s' else s
  end.

(** Drop the longest suffix whose characters all satisfy [p]. *)
Fixpoint dropWhileEnd (p : ascii -> bool) (s : string) : string :=
  match s with
  | EmptyString => EmptyString
  | String c s' =>
      match dropWhileEnd p s' with
      | EmptyString => if p c then EmptyString else String c EmptyString
      | t => String c t
      end
  end.

Definition trimEnd (s : string) : string := dropWhileEnd isSpace s.

(** [String.prototype.trim] *)
Definition trim (s : string) : string := trimEnd (trimStart s).

(** JavaScript truthiness of a string. *)
Definition truthy (s : string) : bool :=
  match s with EmptyString => false | _ => true end.

Definition eqb (a b : string) : bool := bool_decide (a = b).

(** [String.prototype.startsWith] *)
Definition startsWith (s p : string) : bool := String.prefix p s.

(** [String.prototype.includes] *)
Fixpoint includes (s sub : string) : bool :=
  (String.prefix sub s ||
   match s with
   | EmptyString => false
   | String _ s' => includes s' sub
   end)%bool.

(** [s.replace(/\s+/g, " ")]: every maximal run of white space becomes
    one space. *)
Fixpoint collapseWs (inRun : bool) (s : string) : string :=
  match s with
  | EmptyString => EmptyString
  | String c s' =>
      if isSpace c
      then (if inRun then collapseWs true s' else String " " (collapseWs true s'))
      else String c (collapseWs false s')
  end.

(** [s.split(sep)] for a one-character separator: empty pieces are kept. *)
Fixpoint splitChar (sep : ascii) (cur : string) (s : string) : list string :=
  match s with
  | EmptyString => [cur]
  | String c s' =>
      if bool_decide (c = sep)
      then cur :: splitChar sep EmptyString s'
      else splitChar sep (cur ++ String c EmptyString) s'
  end.

(** [s.split(/\s+/)]: pieces between maximal white-space runs. *)
Fixpoint splitWs (inRun : bool) (cur : string) (s : string) : list string :=
  match s with
  | EmptyString => [cur]
  | String c s' =>
      if isSpace c
      then (if inRun then splitWs true cur s'
            else cur :: splitWs true EmptyString s')
      else splitWs false (cur ++ String c EmptyString) s'
  end.

(** [arr.join(" ")] *)
Fixpoint joinSp (l : list string) : string :=
  match l with
  | [] => EmptyString
  | [x] => x
  | x :: l' => x ++ " " ++ joinSp l'
  end.

(** [s.replace(/[.,;:]+$/g, "")] *)
Definition isTrailPunct (c : ascii) : bool :=
  (bool_decide (c = "."%char) || bool_decide (c = ","%char) ||
   bool_decide (c = ";"%char) || bool_decide (c = ":"%char))%bool.

Definition stripTrailPunct (s : string) : string := dropWhileEnd isTrailPunct s.

End Str.

(* ===================================================================== *)
(** ** The eligibility resolver (blackbaudDiscountValidator.js)           *)
(* ===================================================================== *)

Module Validator.

(** A record of the Directory search result. [cemail] is
    [r.email.address || r.email], empty when absent. *)
Record Candidate := {
  cid : string;
  cname : string;
  cemail : string;
  lookup_id : string
}.

#[global] Instance Candidate_eq_dec : EqDecision Candidate.
Proof. solve_decision. Defined.

(** [sanitizeId]: trim, collapse every run of [\s], U+200B and U+00A0
    into one space, remove what is left of U+200B and U+00A0, strip the
    trailing punctuation.  On ASCII strings the two characters do not
    occur: the class of the first replacement is [\s] and the second
    replacement changes nothing. *)
Definition sanitizeId (s : string) : string :=
  Str.stripTrailPunct (Str.collapseWs false (Str.trim s)).

Definition normalizeEmail (s : string) : string :=
  Str.toLowerCase (Str.trim s).

(** [normalizeName]: lower-case, every character outside [a-z\s] becomes a
    space, white-space runs collapse, then trim.  The source first strips
    diacritics (NFD, then the combining marks are dropped), which is the
    identity on ASCII names and is left out: names with accented letters
    are outside this model. *)
Definition nonAlphaToSpace (c : ascii) : ascii :=
  if (Str.isLowerAlpha c || Str.isSpace c)%bool then c else " "%char.

Definition normalizeName (s : string) : string :=
  Str.trim (Str.collapseWs false (Str.map nonAlphaToSpace (Str.toLowerCase s))).

Record NameParts := { first_ : string; last_ : string }.

(** [splitName] *)
Definition splitName (norm : string) : NameParts :=
  let parts := List.filter Str.truthy (Str.splitWs false "" (Str.trim norm)) in
  match parts with
  | [] => {| first_ := ""; last_ := "" |}
  | [p] => {| first_ := p; last_ := "" |}
  | _ => {| first_ := Str.joinSp (removelast parts);
            last_ := List.last parts "" |}
  end.

(** [new Set(c.split(" "))] as a duplicate-free list. *)
Definition tokenSet (c : string) : list string :=
  remove_dups (Str.splitChar " "%char "" c).

(** [inter]: members of [ct] that [et] has. *)
Definition interCount (ct et : list string) : Z :=
  Z.of_nat (length (List.filter (fun t => bool_decide (t ∈ et)) ct)).

(** [inter / Math.max(1, ct.size + et.size - inter) >= 0.5], on integers:
    the quotient of two small integers is at least one half exactly when
    twice the numerator reaches the denominator. *)
Definition jaccardAtLeastHalf (c e : string) : bool :=
  let ct := tokenSet c in
  let et := tokenSet e in
  let inter := interCount ct et in
  Z.max 1 (Z.of_nat (length ct) + Z.of_nat (length et) - inter) <=? 2 * inter.

Definition lastNamesAgree (cs es : NameParts) : bool :=
  (Str.truthy (last_ cs) && Str.truthy (last_ es) && Str.eqb (last_ cs) (last_ es))%bool.

Definition firstPrefixRelated (cs es : NameParts) : bool :=
  (Str.startsWith (first_ cs) (first_ es) || Str.startsWith (first_ es) (first_ cs))%bool.

(** [scoreName] *)
Definition scoreName (candidateName expectedName : string) : Z :=
  let c := normalizeName candidateName in
  let e := normalizeName expectedName in
  if (negb (Str.truthy c) || negb (Str.truthy e))%bool then 0
  else if Str.eqb c e then 100
  else
    let cs := splitName c in
    let es := splitName e in
    if (lastNamesAgree cs es && firstPrefixRelated cs es)%bool then 85
    else if jaccardAtLeastHalf c e then 60
    else 0.

Record Scored := { rec_ : Candidate; score : Z }.

(** [Array.prototype.sort((a, b) => b.s - a.s)]: stable, descending. *)
Fixpoint insertDesc (x : Scored) (l : list Scored) : list Scored :=
  match l with
  | [] => [x]
  | y :: l' => if score y <=? score x then x :: l else y :: insertDesc x l'
  end.

Fixpoint sortDesc (l : list Scored) : list Scored :=
  match l with
  | [] => []
  | x :: l' => insertDesc x (sortDesc l')
  end.

(** Higher scores first: the order the sort establishes. *)
Definition before (a b : Scored) : Prop := score b <= score a.

Definition scoreAll (pool : list Candidate) (name : string) : list Scored :=
  sortDesc (List.map (fun c => {| rec_ := c; score := scoreName (cname c) name |}) pool).

(** [scored[1]?.s ?? 0], given the tail of [scored]. *)
Definition secondScore (rest : list Scored) : Z :=
  match rest with [] => 0 | x :: _ => score x end.

Definition sharesLast (eLast : string) (x : Scored) : bool :=
  Str.eqb (last_ (splitName (normalizeName (cname (rec_ x))))) eLast.

(** The [if (name) { ... }] block of [resolveCandidate]; [None] when it
    falls through. *)
Definition nameStage (pool : list Candidate) (name : string) : option Candidate :=
  if negb (Str.truthy name) then None
  else
    match scoreAll pool name with
    | [] => None
    | top :: rest =>
        if 0 <? score top then
          let second := secondScore rest in
          if ((85 <=? score top) || (15 <=? score top - second))%bool then Some (rec_ top)
          else
            let eLast := last_ (splitName (normalizeName name)) in
            if Str.truthy eLast then
              match List.filter (sharesLast eLast) (top :: rest) with
              | [x] => Some (rec_ x)
              | _ => None
              end
            else None
        else None
    end.

Definition notCollision (idStr : string) (c : Candidate) : bool :=
  negb (Str.eqb (lookup_id c) idStr).

Definition emailHit (pool : list Candidate) (emailNorm : string) : option Candidate :=
  List.find (fun c => Str.eqb (normalizeEmail (cemail c)) emailNorm) pool.

(** [resolveCandidate] *)
Definition resolveCandidate (results : list Candidate)
    (searchId email name : string) : option Candidate :=
  let idStr := Str.trim searchId in
  let pool := List.filter (notCollision idStr) results in
  match pool with
  | [] => None
  | [c] => Some c
  | _ =>
      let emailNorm := normalizeEmail email in
      match (if Str.truthy emailNorm then emailHit pool emailNorm else None) with
      | Some c => Some c
      | None => nameStage pool name
      end
  end.

(* ------------------------------------------------------------------- *)
(** *** Dates

    A JavaScript [Date] is modelled by its broken-down LOCAL time: year,
    zero-based month, day of month and milliseconds within the day.  The
    process time zone is a fixed offset [tz], in minutes east of UTC. *)

Record Date := { dY : Z; dM : Z; dD : Z; dMs : Z }.

Definition isLeap (y : Z) : bool :=
  ((y mod 4 =? 0) && (negb (y mod 100 =? 0) || (y mod 400 =? 0)))%bool.

Definition daysInMonth (y m : Z) : Z :=
  if m =? 1 then (if isLeap y then 29 else 28)
  else if ((m =? 3) || (m =? 5) || (m =? 8) || (m =? 10))%bool then 30
  else 31.

Definition prevMonth (y m : Z) : Z * Z := if m =? 0 then (y - 1, 11) else (y, m - 1).
Definition nextMonth (y m : Z) : Z * Z := if m =? 11 then (y + 1, 0) else (y, m + 1).

(** Day overflow and underflow roll into the neighbouring months, as
    ECMAScript's MakeDay does. *)
Fixpoint rollDay (fuel : nat) (y m d : Z) : Z * Z * Z :=
  match fuel with
  | O => (y, m, d)
  | S f =>
      if d <? 1 then
        let '(y', m') := prevMonth y m in rollDay f y' m' (d + daysInMonth y' m')
      else if daysInMonth y m <? d then
        let '(y', m') := nextMonth y m in rollDay f y' m' (d - daysInMonth y m)
      else (y, m, d)
  end.

Definition makeDay (y m d : Z) : Z * Z * Z :=
  rollDay (S (Z.to_nat (Z.abs d))) (y + m / 12) (m mod 12) d.

(** Days from 1970-01-01 to the first of March-based civil dates; used
    only to obtain time values. [m] is zero-based. *)
Definition daysFromCivil (y m d : Z) : Z :=
  let y' := if m <=? 1 then y - 1 else y in
  let era := y' / 400 in
  let yoe := y' - era * 400 in
  let mp := (m + 10) mod 12 in
  let doy := (153 * mp + 2) / 5 + d - 1 in
  let doe := yoe * 365 + yoe / 4 - yoe / 100 + doy in
  era * 146097 + doe - 719468.

Definition msPerDay : Z := 86400000.

(** [date.getTime()]: the UTC time value. *)
Definition getTime (tz : Z) (dt : Date) : Z :=
  daysFromCivil (dY dt) (dM dt) (dD dt) * msPerDay + dMs dt - tz * 60000.

(** [new Date(y, m, d)]: local midnight; years 0..99 mean 1900..1999; a
    time value beyond 8.64e15 ms makes the date invalid. *)
Definition newDateYmd (tz : Z) (y m d : Z) : option Date :=
  let y := if ((0 <=? y) && (y <=? 99))%bool then 1900 + y else y in
  let '(y', m', d') := makeDay y m d in
  let dt := {| dY := y'; dM := m'; dD := d'; dMs := 0 |} in
  if Z.abs (getTime tz dt) <=? 8640000000000000 then Some dt else None.

(** [d.setMonth(k)] on a valid date. *)
Definition setMonth (dt : Date) (k : Z) : Date :=
  let '(y', m', d') := makeDay (dY dt) k (dD dt) in
  {| dY := y'; dM := m'; dD := d'; dMs := dMs dt |}.

(** [addMonths] *)
Definition addMonths (dt : Date) (months : Z) : Date :=
  setMonth dt (dM dt + months).

(** The UTC broken-down time of a local one. *)
Definition toUTC (tz : Z) (dt : Date) : Date :=
  let t := dMs dt - tz * 60000 in
  let '(y', m', d') := makeDay (dY dt) (dM dt) (dD dt + t / msPerDay) in
  {| dY := y'; dM := m'; dD := d'; dMs := t mod msPerDay |}.

Definition digit (n : Z) : string :=
  String (ascii_of_nat (48 + Z.to_nat (n mod 10))) "".

Definition pad2 (n : Z) : string := digit (n / 10) ++ digit n.
Definition pad3 (n : Z) : string := digit (n / 100) ++ pad2 n.
Definition pad4 (n : Z) : string := digit (n / 1000) ++ pad3 n.
Definition pad6 (n : Z) : string := pad2 (n / 10000) ++ pad4 n.

Definition isoYear (y : Z) : string :=
  if ((0 <=? y) && (y <=? 9999))%bool then pad4 y
  else if y <? 0 then "-" ++ pad6 (- y)
  else "+" ++ pad6 y.

(** The date and the time part of an ISO string. *)
Definition isoDate (u : Date) : string :=
  isoYear (dY u) ++ "-" ++ pad2 (dM u + 1) ++ "-" ++ pad2 (dD u).

Definition isoTime (u : Date) : string :=
  pad2 (dMs u / 3600000) ++ ":" ++ pad2 (dMs u / 60000 mod 60) ++ ":" ++
  pad2 (dMs u / 1000 mod 60) ++ "." ++ pad3 (dMs u mod 1000).

(** [date.toISOString()] of a valid date.  On an invalid date the source
    throws a RangeError; [addMonths] can leave the range of time values,
    see [Shapes.expiryRenders]. *)
Definition toISOString (tz : Z) (dt : Date) : string :=
  let u := toUTC tz dt in
  isoDate u ++ "T" ++ isoTime u ++ "Z".

(** [String(x).slice(0, 10)] *)
Definition slice10 (x : string) : string := String.substring 0 10 x.

(* ------------------------------------------------------------------- *)
(** *** Constituent codes and discount buckets *)

Record Ymd := { ymd_y : Z; ymd_m : Z; ymd_d : Z }.

(** A constituent code.  [date_modified] and [date_added] hold the time
    value of the field when it is a string that parses as a date; [start]
    is the fuzzy date when all three components are finite. *)
Record Code := {
  description : string;
  inactive : bool;
  date_modified : option Z;
  date_added : option Z;
  start : option Ymd
}.

Definition CurrentStudent : string := "Current UTS Student".
Definition CurrentStaff : string := "Current UTS Staff".
Definition AlumniWithin : string := "UTS Alumni (graduated within the last 12 months)".
Definition AlumniOver : string := "UTS Alumni (graduated more than 12 months ago)".
Definition FormerStaffWithin : string := "Former UTS Staff (employed within the last 12 months)".
Definition FormerStaffOver : string := "Former UTS Staff (employed more than 12 months ago)".

(** [toDateFromYmd] *)
Definition toDateFromYmd (tz : Z) (st : option Ymd) : option Date :=
  match st with
  | Some v => newDateYmd tz (ymd_y v) (Z.max 0 (ymd_m v - 1)) (ymd_d v)
  | None => None
  end.

(** [monthsBetween(a, b) <= 12 + 1e-6].  A month is 30.4375 days, that is
    2629800000 ms, so the bound is 31557602629.8 ms; time values are whole
    milliseconds. *)
Definition within12Months (a b : Z) : bool :=
  Z.max 0 (b - a) <=? 31557602629.

(** [Set.prototype.add], insertion order kept. *)
Definition setAdd (x : string) (out : list string) : list string :=
  if bool_decide (x ∈ out) then out else (out ++ [x])%list.

Definition codeDesc (c : Code) : string :=
  Str.toLowerCase (Str.trim (description c)).

Definition bucketStep (tz now : Z) (out : list string) (c : Code) : list string :=
  let desc := codeDesc c in
  if Str.eqb desc "student" then
    (if negb (inactive c) then setAdd CurrentStudent out else out)
  else if Str.eqb desc "staff" then
    (if negb (inactive c) then setAdd CurrentStaff out
     else
       let dt := match date_modified c with
                 | Some t => Some t
                 | None => date_added c
                 end in
       match dt with
       | Some t => if within12Months t now then setAdd FormerStaffWithin out
                   else setAdd FormerStaffOver out
       | None => setAdd FormerStaffOver out
       end)
  else if Str.eqb desc "alumni" then
    let dt := match toDateFromYmd tz (start c) with
              | Some dt => Some (getTime tz dt)
              | None => date_added c
              end in
    match dt with
    | Some t => if within12Months t now then setAdd AlumniWithin out
                else setAdd AlumniOver out
    | None => setAdd AlumniOver out
    end
  else out.

(** [inferBucketsFromCodes] *)
Definition inferBucketsFromCodes (tz now : Z) (codes : list Code) : list string :=
  fold_left (bucketStep tz now) codes [].

(** [alumniCommencementFromCodes] *)
Fixpoint alumniCommencementFromCodes (tz : Z) (codes : list Code) : option Date :=
  match codes with
  | [] => None
  | c :: rest =>
      if Str.eqb (codeDesc c) "alumni" then
        match toDateFromYmd tz (start c) with
        | Some dt => Some dt
        | None => alumniCommencementFromCodes tz rest
        end
      else alumniCommencementFromCodes tz rest
  end.

Definition bucketOrder : list string :=
  [CurrentStudent; CurrentStaff; AlumniWithin; AlumniOver;
   FormerStaffWithin; FormerStaffOver].

Definition includesStr (l : list string) (x : string) : bool :=
  bool_decide (x ∈ l).

(** [choosePrimaryBucket] *)
Definition choosePrimaryBucket (buckets : list string) : option string :=
  match List.find (includesStr buckets) bucketOrder with
  | Some b => Some b
  | None => match buckets with b :: _ => if Str.truthy b then Some b else None | [] => None end
  end.

(* ------------------------------------------------------------------- *)
(** *** The Directory and the calls made to it *)

(** An HTTP answer: the status and the [value] array of the JSON body
    (empty when the body has none).  [body401] says that the body carries
    [statusCode] or [status] equal to 401. *)
Record Resp (A : Type) := { status : Z; value : A; body401 : bool }.
Arguments status {A} _.
Arguments value {A} _.
Arguments body401 {A} _.

(** [det.json.birthdate]: components that are missing or not numbers are
    [None]. *)
Record Birthdate := { by_ : option Z; bm_ : option Z; bd_ : option Z }.

(** One snapshot of the Directory.  A call either rejects with a message
    (the request failed) or answers.  [credsPresent] is what [assertCreds]
    checks. *)
Record Directory := {
  credsPresent : bool;
  search : string -> string + Resp (list Candidate);
  constituentCodes : string -> string + Resp (list Code);
  constituentById : string -> string + Resp (option Birthdate)
}.

Inductive DirCall :=
| CallSearch (text : string)
| CallCodes (id : string)
| CallById (id : string).

(** Computations that may throw and that log their Directory calls. *)
Definition Dir (A : Type) : Type := (string + A) * list DirCall.

Definition ret {A} (a : A) : Dir A := (inr a, []).
Definition throw {A} (msg : string) : Dir A := (inl msg, []).
Definition bind {A B} (x : Dir A) (f : A -> Dir B) : Dir B :=
  match x with
  | (inl e, log) => (inl e, log)
  | (inr a, log) => let '(b, log') := f a in (b, (log ++ log')%list)
  end.

Notation "'do' x <- e ; k" := (bind e (fun x => k))
  (at level 10, x name, e at level 100, k at level 200).

Definition missingCreds : string := "Missing SKY_ACCESS_TOKEN or SKY_SUBSCRIPTION_KEY(S)".

Definition call {A} (dir : Directory) (c : DirCall) (answer : string + A) : Dir A :=
  if credsPresent dir then (answer, [c]) else throw missingCreds.

(** [searchConstituents(text, { strict: true, nonConstituents: false })] *)
Definition searchConstituents (dir : Directory) (text : string) : Dir (Resp (list Candidate)) :=
  call dir (CallSearch text) (search dir text).

Definition getConstituentCodes (dir : Directory) (id : string) : Dir (Resp (list Code)) :=
  call dir (CallCodes id) (constituentCodes dir id).

Definition getConstituentById (dir : Directory) (id : string) : Dir (Resp (option Birthdate)) :=
  call dir (CallById id) (constituentById dir id).

(* ------------------------------------------------------------------- *)
(** *** Birth-date disambiguation *)

(** What [parseDobInput] returns: a year and optional month and day. *)
Record DobTarget := { ty : Z; tm : option Z; td : option Z }.

(** The numbers [parseDobInput] splits its input into: replacing every
    non-digit by a dash, collapsing dashes and stripping the outer ones
    leaves exactly the maximal digit runs. *)
Fixpoint digitRuns (cur : option Z) (s : string) : list Z :=
  match s with
  | EmptyString => match cur with Some n => [n] | None => [] end
  | String c s' =>
      if Str.isDigit c then
        let v := Z.of_nat (nat_of_ascii c) - 48 in
        digitRuns (Some (10 * default 0 cur + v)) s'
      else
        match cur with
        | Some n => n :: digitRuns None s'
        | None => digitRuns None s'
        end
  end.

(** [String(n).length === 4] for a number read from digits. *)
Definition fourDigits (n : Z) : bool := ((1000 <=? n) && (n <=? 9999))%bool.

(** [parseDobInput] *)
Definition parseDobInput (dob : string) : option DobTarget :=
  match digitRuns None (Str.trim dob) with
  | [a; b; c] =>
      if fourDigits a then Some {| ty := a; tm := Some b; td := Some c |}
      else if fourDigits c then Some {| ty := c; tm := Some b; td := Some a |}
      else None
  | [a; b] => if fourDigits a then Some {| ty := a; tm := Some b; td := None |} else None
  | [a] => if fourDigits a then Some {| ty := a; tm := None; td := None |} else None
  | _ => None
  end.

(** [Number(x) || null] *)
Definition numOrNull (x : option Z) : option Z :=
  match x with
  | Some n => if n =? 0 then None else Some n
  | None => None
  end.

(** [expected && got !== expected] *)
Definition differsFrom (expected : option Z) (got : option Z) : bool :=
  match numOrNull expected with
  | Some e => negb (bool_decide (got = Some e))
  | None => false
  end.

(** [matchDob] *)
Definition matchDob (birth : option Birthdate) (target : DobTarget) : bool :=
  match birth with
  | None => false
  | Some b =>
      if differsFrom (Some (ty target)) (numOrNull (by_ b)) then false
      else if differsFrom (tm target) (numOrNull (bm_ b)) then false
      else if differsFrom (td target) (numOrNull (bd_ b)) then false
      else true
  end.

Fixpoint dobMatches (dir : Directory) (pool : list Candidate) (target : DobTarget)
    : Dir (list Candidate) :=
  match pool with
  | [] => ret []
  | c :: rest =>
      do det <- getConstituentById dir (cid c);
      do more <- dobMatches dir rest target;
      ret (if ((status det =? 200) && matchDob (value det) target)%bool
           then c :: more else more)
  end.

(** [resolveByDob] *)
Definition resolveByDob (dir : Directory) (pool : list Candidate) (dobStr : string)
    : Dir (option Candidate) :=
  match parseDobInput dobStr with
  | None => ret None
  | Some target =>
      do matches <- dobMatches dir pool target;
      ret (match matches with [c] => Some c | _ => None end)
  end.

(* ------------------------------------------------------------------- *)
(** *** validateDiscount *)

Record Query := {
  search_id : string;
  expected_bucket : string;
  email : string;
  name : string;
  dob : string
}.

Record CandidateInfo := {
  ci_id : string; ci_name : string; ci_email : string; ci_lookup_id : string
}.

Definition infoOf (c : Candidate) : CandidateInfo :=
  {| ci_id := cid c; ci_name := cname c; ci_email := cemail c;
     ci_lookup_id := lookup_id c |}.

(** The answer for one resolved candidate. *)
Record Single := {
  valid : bool;
  expected : option string;
  derived_buckets : list string;
  primary_bucket : option string;
  bb_record_id : string;
  candidate : CandidateInfo;
  codes : list Code;
  qualifies_other : bool;
  alumni_commencement : option string;
  alumni_expires_at : option string
}.

Inductive Stage := StageSearch | StageCodes.

(** The shapes of object [validateDiscount] returns. *)
Inductive Outcome :=
| OError (stage : Stage) (st : Z) (recordId : option string) (raw401 : bool)
| ONotFound (reason : string)
| OSingle (res : Single)
| OAmbiguous (candidates : list CandidateInfo)
| OInvalid (reason : string) (candidates : list (CandidateInfo * list string)).

(** [result.status] *)
Definition statusOf (o : Outcome) : string :=
  match o with
  | OError _ _ _ _ => "error"
  | ONotFound _ => "not_found"
  | OSingle res => if valid res then "valid" else "invalid"
  | OAmbiguous _ => "ambiguous"
  | OInvalid _ _ => "invalid"
  end.

(** [result.valid] *)
Definition validOf (o : Outcome) : bool :=
  match o with OSingle res => valid res | _ => false end.

Definition decimal (n : Z) : string :=
  DecimalString.NilZero.string_of_int (Z.to_int n).

(** [String(result.reason || "")] *)
Definition reasonOf (o : Outcome) : string :=
  match o with
  | OError StageSearch st _ _ => "search " ++ decimal st
  | OError StageCodes st _ _ => "codes " ++ decimal st
  | ONotFound reason => reason
  | OSingle _ => ""
  | OAmbiguous _ => "multiple candidates match expected bucket"
  | OInvalid reason _ => reason
  end.

(** The clock and zone of the process during one [validateDiscount]. *)
Record Clock := { tz : Z; now : Z }.

(** [evaluateSingle].  The commencement is a valid date; the expiry is
    taken to be one as well, so that rendering it does not throw: the
    condition is [Shapes.expiryRenders]. *)
Definition evaluateSingle (dir : Directory) (clk : Clock) (expected_bucket : string)
    (resolved : Candidate) : Dir Outcome :=
  let id := cid resolved in
  do cr <- getConstituentCodes dir id;
  if negb (status cr =? 200) then
    ret (OError StageCodes (status cr) (Some id) (body401 cr))
  else
    let codes := value cr in
    let buckets := inferBucketsFromCodes (tz clk) (now clk) codes in
    let primary := choosePrimaryBucket buckets in
    let valid := if Str.truthy expected_bucket
                 then includesStr buckets expected_bucket
                 else negb (bool_decide (buckets = [])) in
    let qualifiesOther :=
      (negb valid && negb (bool_decide (buckets = [])) && Str.truthy expected_bucket)%bool in
    let alumnStart := alumniCommencementFromCodes (tz clk) codes in
    ret (OSingle {|
      valid := valid;
      expected := if Str.truthy expected_bucket then Some expected_bucket else None;
      derived_buckets := buckets;
      primary_bucket := primary;
      bb_record_id := id;
      candidate := infoOf resolved;
      codes := codes;
      qualifies_other := qualifiesOther;
      alumni_commencement := option_map (toISOString (tz clk)) alumnStart;
      alumni_expires_at :=
        option_map (fun dt => toISOString (tz clk) (addMonths dt 12)) alumnStart
    |}).

(** The loop over the pool of the ambiguous branch: candidates whose codes
    cannot be fetched are left out. *)
Fixpoint evaluatePool (dir : Directory) (clk : Clock) (pool : list Candidate)
    : Dir (list (Candidate * list string)) :=
  match pool with
  | [] => ret []
  | c :: rest =>
      do cr <- getConstituentCodes dir (cid c);
      do more <- evaluatePool dir clk rest;
      ret (if status cr =? 200
           then (c, inferBucketsFromCodes (tz clk) (now clk) (value cr)) :: more
           else more)
  end.

Definition withBuckets (x : Candidate * list string) : CandidateInfo * list string :=
  (infoOf (fst x), snd x).

(** The disambiguation of [validateDiscount]: [resolveCandidate], then the
    birth date when that left nothing and a birth date was given. *)
Definition disambiguate (dir : Directory) (results : list Candidate)
    (sanitized : string) (q : Query) : Dir (option Candidate) :=
  match resolveCandidate results sanitized (email q) (name q) with
  | Some c => ret (Some c)
  | None =>
      if Str.truthy (dob q)
      then resolveByDob dir (List.filter (notCollision sanitized) results) (dob q)
      else ret None
  end.

(** The buckets of a pool candidate, when its codes can be fetched. *)
Definition fetchedBuckets (dir : Directory) (clk : Clock) (c : Candidate)
    : option (list string) :=
  match constituentCodes dir (cid c) with
  | inr cr => if status cr =? 200
              then Some (inferBucketsFromCodes (tz clk) (now clk) (value cr))
              else None
  | inl _ => None
  end.

(** The candidate's derived buckets contain the expected one. *)
Definition holdsBucket (dir : Directory) (clk : Clock) (expected_bucket : string)
    (c : Candidate) : bool :=
  match fetchedBuckets dir clk c with
  | Some buckets => includesStr buckets expected_bucket
  | None => false
  end.

(** The pool candidates whose codes were fetched, with their buckets. *)
Definition evaluatedOf (dir : Directory) (clk : Clock) (pool : list Candidate)
    : list (Candidate * list string) :=
  omap (fun c => pair c <$> fetchedBuckets dir clk c) pool.

(** [validateDiscount] *)
Definition validateDiscount (dir : Directory) (clk : Clock) (q : Query) : Dir Outcome :=
  let sanitized := sanitizeId (search_id q) in
  do sr <- searchConstituents dir sanitized;
  if negb (status sr =? 200) then
    ret (OError StageSearch (status sr) None (body401 sr))
  else
    match value sr with
    | [] => ret (ONotFound "no matches")
    | _ =>
        let pool := List.filter (notCollision sanitized) (value sr) in
        do candidate <- disambiguate dir (value sr) sanitized q;
        match candidate with
        | Some c => evaluateSingle dir clk (expected_bucket q) c
        | None =>
            match pool with
            | [] => ret (ONotFound "no matches after excluding lookup collisions")
            | _ =>
                do evaluated <- evaluatePool dir clk pool;
                let expectedMatches :=
                  if Str.truthy (expected_bucket q)
                  then List.filter (fun x => includesStr (snd x) (expected_bucket q)) evaluated
                  else List.filter (fun x => negb (bool_decide (snd x = []))) evaluated in
                if Str.truthy (expected_bucket q) then
                  match expectedMatches with
                  | [x] => evaluateSingle dir clk (expected_bucket q) (fst x)
                  | _ :: _ :: _ =>
                      ret (OAmbiguous (List.map (fun x => infoOf (fst x)) expectedMatches))
                  | [] =>
                      ret (OInvalid "expected bucket not present on any candidate"
                             (List.map withBuckets evaluated))
                  end
                else
                  ret (OInvalid "no qualifying buckets" (List.map withBuckets evaluated))
            end
        end
    end.

End Validator.

(* ===================================================================== *)
(** ** Records of the Persistent Store                                    *)
(* ===================================================================== *)

Module Airtable.

(** An attachment: stored ones carry an [id], new ones a [url] and a
    [filename]. *)
Record Attachment := { att_id : string; att_url : string; att_filename : string }.

(** A field value: a string, a number, a checkbox, an array of strings
    (multi-select, linked record ids), an object with a [name], or a list
    of attachments. *)
Inductive FieldVal :=
| VStr (s : string)
| VNum (n : Z)
| VBool (b : bool)
| VArr (items : list string)
| VObj (name : string)
| VAttach (atts : list Attachment).

Record AirRecord := { rec_id : string; fields : gmap string FieldVal }.

(** [rec.get(name)]; [None] is [undefined]. *)
Definition get (rec : AirRecord) (name : string) : option FieldVal :=
  fields rec !! name.

Fixpoint joinWith (sep : string) (l : list string) : string :=
  match l with
  | [] => ""
  | [x] => x
  | x :: l' => x ++ sep ++ joinWith sep l'
  end.

(** [String(v)] *)
Definition jsString (v : FieldVal) : string :=
  match v with
  | VStr s => s
  | VNum n => Validator.decimal n
  | VBool b => if b then "true" else "false"
  | VArr items => joinWith "," items
  | VObj _ => "[object Object]"
  | VAttach atts => joinWith "," (List.map (fun _ => "[object Object]") atts)
  end.

Definition jsTruthy (v : FieldVal) : bool :=
  match v with
  | VStr s => Str.truthy s
  | VNum n => negb (n =? 0)
  | VBool b => b
  | VArr _ => true
  | VObj _ => true
  | VAttach _ => true
  end.

(** [String(v || "")] *)
Definition strOr (o : option FieldVal) : string :=
  match o with
  | Some v => if jsTruthy v then jsString v else ""
  | None => ""
  end.

(** [getField] of the main server and [fieldStr] of the generation
    server: the same function. *)
Definition getField (rec : AirRecord) (name : string) : string :=
  match get rec name with
  | None => ""
  | Some (VStr s) => s
  | Some (VNum n) => Validator.decimal n
  | Some (VBool b) => if b then "Yes" else "No"
  | Some (VArr items) => joinWith ", " (List.filter Str.truthy items)
  | Some (VObj n) => if Str.truthy n then n else "[object Object]"
  | Some (VAttach _) => ""
  end.

Definition fieldStr := getField.

(** [asOne] *)
Definition asOne (o : option FieldVal) : bool :=
  match o with
  | None => false
  | Some (VNum n) => n =? 1
  | Some (VBool b) => b
  | Some v =>
      let s := Str.toLowerCase (Str.trim (jsString v)) in
      (Str.eqb s "1" || Str.eqb s "true" || Str.eqb s "yes" ||
       Str.eqb s "y" || Str.eqb s "checked")%bool
  end.

(** A row of the pricing table, as the loaders build it. *)
Record PricingRow := { base : Z; discounts : gmap string Z }.

(** The store: the organisations' records, the Team Members table in
    listing order, and the pricing matrix keyed by membership type. *)
Record Store := {
  startups : gmap string (gmap string FieldVal);
  members : list AirRecord;
  pricing : gmap string PricingRow
}.

(** [table.update(id, fields)]: the given fields replace the record's. *)
Definition patch (upd : gmap string FieldVal) (rec : AirRecord) : AirRecord :=
  {| rec_id := rec_id rec; fields := upd ∪ fields rec |}.

Definition updateMember (st : Store) (id : string) (upd : gmap string FieldVal) : Store :=
  {| startups := startups st;
     members := List.map (fun rec => if Str.eqb (rec_id rec) id then patch upd rec else rec)
                  (members st);
     pricing := pricing st |}.

Definition updateStartup (st : Store) (id : string) (upd : gmap string FieldVal) : Store :=
  {| startups := alter (fun f => upd ∪ f) id (startups st);
     members := members st;
     pricing := pricing st |}.

Definition linksTo (startupRecordId : string) (o : option FieldVal) : bool :=
  match o with
  | Some (VArr items) => bool_decide (startupRecordId ∈ items)
  | _ => false
  end.

(** [listTeamMembersByStartupId]: by link field, never by name. *)
Definition isLinked (startupRecordId : string) (rec : AirRecord) : bool :=
  (linksTo startupRecordId (get rec "Startup*") ||
   linksTo startupRecordId (get rec "Startup") ||
   linksTo startupRecordId (get rec "UTS Startups"))%bool.

Definition listTeamMembersByStartupId (st : Store) (startupRecordId : string)
    : list AirRecord :=
  if Str.truthy startupRecordId
  then List.filter (isLinked startupRecordId) (members st)
  else [].

End Airtable.

(* ===================================================================== *)
(** ** The pricing assembler                                              *)
(* ===================================================================== *)

Module Pricing.
Import Airtable.

Definition Full : string := "Full Membership".
Definition Casual : string := "Casual Membership".
Definition Day : string := "Day Membership".

(** Amounts are whole cents. [Intl.NumberFormat("en-AU", 2 digits)]. *)
Fixpoint groupThousands (fuel : nat) (n : Z) : string :=
  match fuel with
  | O => Validator.decimal n
  | S f => if n <? 1000 then Validator.decimal n
           else groupThousands f (n / 1000) ++ "," ++ Validator.pad3 n
  end.

Definition formatMoneyAUD (cents : Z) : string :=
  groupThousands 32 (cents / 100) ++ "." ++ Validator.pad2 cents.

Definition feePlusGST (sum : Z) : string :=
  "AUD " ++ formatMoneyAUD sum ++ " per month plus GST".
Definition feeWaived : string := "AUD 0.00 per month (waived)".
Definition feeNoMonthly : string := "No monthly fee (Day Memberships charged per-day)".
Definition feePlaceholder : string := "AUD 0.00 per month (placeholder)".

(** [/<\s*12/.test(s)] and [/>\s*12/.test(s)] *)
Fixpoint signWs12 (sign : ascii) (s : string) : bool :=
  match s with
  | EmptyString => false
  | String c s' =>
      ((bool_decide (c = sign) && String.prefix "12" (Str.trimStart s')) ||
       signWs12 sign s')%bool
  end.

Definition colCurrentStudent : string := "Current UTS Student".
Definition colCurrentStaff : string := "Current Staff".
Definition colAlumniWithin : string := "UTS Alumni < 12m".
Definition colAlumniOver : string := "UTS Alumni > 12m".
Definition colFormerWithin : string := "Former Staff < 12m".
Definition colFormerOver : string := "Former Staff > 12m".

(** The part of [discountColumnFor] both servers share. *)
Definition discountColumnCore (s : string) : option string :=
  let has := Str.includes s in
  if (has "current" && has "student")%bool then Some colCurrentStudent
  else if (has "current" && has "staff")%bool then Some colCurrentStaff
  else if ((has "alumni" && (has "within" || has "< 12")) || signWs12 "<"%char s)%bool
    then Some colAlumniWithin
  else if ((has "alumni" && (has "more than" || has "over" || has "> 12"))
           || signWs12 ">"%char s)%bool
    then Some colAlumniOver
  else if (has "former" && has "staff" && (has "within" || has "< 12"))%bool
    then Some colFormerWithin
  else if (has "former" && has "staff" && (has "more than" || has "over" || has "> 12"))%bool
    then Some colFormerOver
  else None.

(* ------------------------------------------------------------------- *)
(** *** The main server: the fee block of buildPdfPayload *)

Module Main.

(** [normaliseType] of buildPdfPayload and of the pricing preview. *)
Definition normaliseType (raw : option FieldVal) : string :=
  let s := Str.toLowerCase (Str.trim (strOr raw)) in
  if Str.includes s "full" then Full
  else if Str.includes s "casual" then Casual
  else if Str.includes s "day" then Day
  else Casual.

Definition discountColumnFor (category : string) : option string :=
  discountColumnCore (Str.toLowerCase category).

(** [effectiveDiscountCategory] *)
Definition effectiveDiscountCategory (rec : AirRecord) : string :=
  let manualCheck := strOr (get rec "Manual Discount Check") in
  let manualCat := strOr (get rec "Manual Discount Category") in
  if (Str.truthy (Str.trim manualCheck) && Str.truthy (Str.trim manualCat))%bool
  then manualCat
  else strOr (get rec "Discount Category").

(** [isDiscountValidated] *)
Definition isDiscountValidated (rec : AirRecord) : bool :=
  let manualCheck := strOr (get rec "Manual Discount Check") in
  let manualCat := strOr (get rec "Manual Discount Category") in
  if (Str.eqb (Str.toLowerCase (Str.trim manualCheck)) "valid"
      && Str.truthy (Str.trim manualCat))%bool
  then true
  else Str.eqb (Str.toLowerCase (Str.trim (strOr (get rec "Discount Validated")))) "valid".

(** [a.*b] on one line. *)
Fixpoint sameLineIncludes (s sub : string) : bool :=
  (String.prefix sub s ||
   match s with
   | EmptyString => false
   | String c s' =>
       if (bool_decide (c = "010"%char) || bool_decide (c = "013"%char))%bool
       then false else sameLineIncludes s' sub
   end)%bool.

Fixpoint dotStar (a b : string) (s : string) : bool :=
  ((String.prefix a s &&
    sameLineIncludes (String.substring (String.length a) (String.length s) s) b) ||
   match s with
   | EmptyString => false
   | String _ s' => dotStar a b s'
   end)%bool.

Definition isWithin12m (discount : string) : bool :=
  let s := Str.toLowerCase discount in
  (Str.includes s "within the last 12 months" || dotStar "within" "12 months" s
   || signWs12 "<"%char s
   || (Str.includes s "current" && (Str.includes s "student" || Str.includes s "staff")))%bool.

Definition isOver12m (discount : string) : bool :=
  let s := Str.toLowerCase discount in
  (Str.includes s "more than 12 months" || dotStar "over" "12 months" s
   || signWs12 ">"%char s)%bool.

Definition isUTSDiscount (discount : string) : bool :=
  let s := Str.toLowerCase discount in
  (Str.includes s "uts" || Str.includes s "alumni" || Str.includes s "staff"
   || Str.includes s "student")%bool.

(** The counters the membership loop declares, by name. *)
Record Counts := {
  fullNoDisc : Z; fullDisc : Z; casualNoDisc : Z;
  casualWithin : Z; casualOver : Z; dayCount : Z
}.

Definition countStep (c : Counts) (rec : AirRecord) : Counts :=
  let type := normaliseType (get rec "Membership Type") in
  let discountCat := effectiveDiscountCategory rec in
  let validated := isDiscountValidated rec in
  if Str.eqb type Full then
    if (validated && isUTSDiscount discountCat)%bool
    then {| fullNoDisc := fullNoDisc c; fullDisc := fullDisc c + 1;
            casualNoDisc := casualNoDisc c; casualWithin := casualWithin c;
            casualOver := casualOver c; dayCount := dayCount c |}
    else {| fullNoDisc := fullNoDisc c + 1; fullDisc := fullDisc c;
            casualNoDisc := casualNoDisc c; casualWithin := casualWithin c;
            casualOver := casualOver c; dayCount := dayCount c |}
  else if Str.eqb type Casual then
    if (validated && isWithin12m discountCat)%bool
    then {| fullNoDisc := fullNoDisc c; fullDisc := fullDisc c;
            casualNoDisc := casualNoDisc c; casualWithin := casualWithin c + 1;
            casualOver := casualOver c; dayCount := dayCount c |}
    else if (validated && isOver12m discountCat)%bool
    then {| fullNoDisc := fullNoDisc c; fullDisc := fullDisc c;
            casualNoDisc := casualNoDisc c; casualWithin := casualWithin c;
            casualOver := casualOver c + 1; dayCount := dayCount c |}
    else {| fullNoDisc := fullNoDisc c; fullDisc := fullDisc c;
            casualNoDisc := casualNoDisc c + 1; casualWithin := casualWithin c;
            casualOver := casualOver c; dayCount := dayCount c |}
  else if Str.eqb type Day then
    {| fullNoDisc := fullNoDisc c; fullDisc := fullDisc c;
       casualNoDisc := casualNoDisc c; casualWithin := casualWithin c;
       casualOver := casualOver c; dayCount := dayCount c + 1 |}
  else c.

Definition membershipCounts (submitted : list AirRecord) : Counts :=
  fold_left countStep submitted
    {| fullNoDisc := 0; fullDisc := 0; casualNoDisc := 0;
       casualWithin := 0; casualOver := 0; dayCount := 0 |}.

(** The numeric bindings in scope where the fee text is chosen. *)
Definition scope (c : Counts) (sum : Z) : list (string * Z) :=
  [("fullNoDisc", fullNoDisc c); ("fullDisc", fullDisc c);
   ("casualNoDisc", casualNoDisc c); ("casualWithin", casualWithin c);
   ("casualOver", casualOver c); ("dayCount", dayCount c); ("sum", sum)].

(** Reading an identifier: a name bound nowhere is a ReferenceError. *)
Definition readVar (env : list (string * Z)) (x : string) : string + Z :=
  match List.find (fun b => Str.eqb (fst b) x) env with
  | Some b => inr (snd b)
  | None => inl (x ++ " is not defined")
  end.

Definition defaultRow : PricingRow := {| base := 0; discounts := ∅ |}.

(** The fee of one submitted member, [None] for Day members. *)
Definition memberFee (matrix : gmap string PricingRow) (rec : AirRecord) : option Z :=
  let type := normaliseType (get rec "Membership Type") in
  if Str.eqb type Day then None
  else
    let row := default defaultRow (matrix !! type) in
    let fee := base row in
    let discountCat := effectiveDiscountCategory rec in
    let validated := isDiscountValidated rec in
    let col := discountColumnFor discountCat in
    if validated then
      let rate := col ≫= (fun c => discounts row !! c) in
      let rate :=
        match rate with
        | Some v => Some v
        | None =>
            if (bool_decide (col = Some colCurrentStudent)
                || bool_decide (col = Some colCurrentStaff))%bool
            then discounts row !! colAlumniWithin
            else None
        end in
      Some (default fee rate)
    else Some fee.

(** The running sum of the fee loop.  The rates are whole cents, so the sum
    in [Z] is the sum the source computes as long as it is exact in a
    double (below 2^53); rounding of larger or fractional amounts is not
    modelled. *)
Definition feeSum (matrix : gmap string PricingRow) (submitted : list AirRecord) : Z :=
  fold_left (fun sum rec => sum + default 0 (memberFee matrix rec)) submitted 0.

(** The pricing [try] block: the text it assigns, or the exception it
    ends with. *)
Definition pricingTry (matrix : gmap string PricingRow) (submitted : list AirRecord)
    : string + string :=
  let counts := membershipCounts submitted in
  let sum := feeSum matrix submitted in
  if 0 <? sum then inr (feePlusGST sum)
  else
    match readVar (scope counts sum) "fullCount" with
    | inl e => inl e
    | inr fullCount =>
        match readVar (scope counts sum) "casualCount" with
        | inl e => inl e
        | inr casualCount =>
            inr (if 0 <? fullCount + casualCount then feeWaived else feeNoMonthly)
        end
    end.

(** [calculatedMonthlyFee] after the block: the [catch] only logs. *)
Definition calculatedMonthlyFee (matrix : gmap string PricingRow)
    (teamMemberRecords : list AirRecord) : string :=
  let submitted :=
    List.filter (fun r => asOne (get r "New onboarding form submitted")) teamMemberRecords in
  match pricingTry matrix submitted with
  | inr text => text
  | inl _ => ""
  end.

Record Payload := { legal_name : string; calculated_monthly_fee : string }.

Definition orElse (a b : string) : string := if Str.truthy a then a else b.

(** [buildPdfPayload({ startupRecordId })].  Every store read inside is
    wrapped in a [try]: a failed read leaves the defaults.  [readsFail]
    says whether the startup read, respectively the team read, rejects. *)
Definition buildPdfPayload (st : Store) (startupReadFails teamReadFails : bool)
    (startupRecordId : string) : Payload :=
  let rec :=
    if (Str.truthy startupRecordId && negb startupReadFails)%bool
    then startups st !! startupRecordId else None in
  let startupName :=
    match rec with
    | Some f => strOr (f !! "Startup Name (or working title)")
    | None => ""
    end in
  let legalName :=
    match rec with
    | Some f => orElse (strOr (f !! "Registered Business Name")) startupName
    | None => ""
    end in
  let fee :=
    if (Str.truthy startupName && negb teamReadFails)%bool
    then calculatedMonthlyFee (pricing st) (listTeamMembersByStartupId st startupRecordId)
    else "" in
  {| legal_name := orElse (orElse legalName startupName) "Agreement";
     calculated_monthly_fee := orElse fee feePlaceholder |}.

End Main.

(* ------------------------------------------------------------------- *)
(** *** The generation server: rateForMember and buildPayload *)

Module Gen.

Definition normaliseType (raw : string) : string :=
  let s := Str.toLowerCase raw in
  if Str.includes s "full" then Full
  else if Str.includes s "casual" then Casual
  else if Str.includes s "day" then Day
  else Casual.

Definition discountColumnFor (category : string) : option string :=
  let s := Str.toLowerCase category in
  let has := Str.includes s in
  match discountColumnCore s with
  | Some c => Some c
  | None =>
      if (has "alumni" && has "12" && has "<")%bool then Some colAlumniWithin
      else if (has "alumni" && has "12" && has ">")%bool then Some colAlumniOver
      else if (has "former" && has "12" && has "<")%bool then Some colFormerWithin
      else if (has "former" && has "12" && has ">")%bool then Some colFormerOver
      else None
  end.

Definition validationIsValid (rec : AirRecord) : bool :=
  Str.eqb (Str.toLowerCase (Str.trim (fieldStr rec "Discount Validated"))) "valid".

Definition memberType (rec : AirRecord) : string :=
  normaliseType (fieldStr rec "Membership Type").

(** [rateForMember] *)
Definition rateForMember (rec : AirRecord) (matrix : gmap string PricingRow) : Z :=
  let type := memberType rec in
  let row := default Main.defaultRow (matrix !! type) in
  if Str.eqb type Day then 0
  else
    let col := discountColumnFor (fieldStr rec "Discount Category") in
    if validationIsValid rec then
      match col ≫= (fun c => discounts row !! c) with
      | Some d => d
      | None => base row
      end
    else base row.

Definition isFullOrCasual (rec : AirRecord) : bool :=
  (Str.eqb (memberType rec) Full || Str.eqb (memberType rec) Casual)%bool.

(** The fee block of [buildPayload], given the loaded matrix. *)
Definition calculated_monthly_fee (teamMembers : list AirRecord)
    (matrix : gmap string PricingRow) : string :=
  let sum := fold_left (fun sum r => sum + rateForMember r matrix) teamMembers 0 in
  if 0 <? sum then feePlusGST sum
  else if existsb isFullOrCasual teamMembers then feeWaived
  else feeNoMonthly.

End Gen.

End Pricing.

(* ===================================================================== *)
(** ** The job orchestrator                                               *)
(* ===================================================================== *)

Module Orchestrator.
Import Airtable Validator.

(** [hasDiscountRequest] *)
Definition hasDiscountRequest (expectedRaw : string) : bool :=
  if negb (Str.truthy expectedRaw) then false
  else
    let s := Str.toLowerCase (Str.trim expectedRaw) in
    if negb (Str.truthy s) then false
    else negb (Str.eqb s "none of the above").

(** [mapReason]: the public code and message of an internal status. *)
Definition mapReason (internal : string) : option string * string :=
  let s := Str.toLowerCase internal in
  if (Str.eqb s "valid" || Str.eqb internal "validated")%bool
    then (Some "validated", "Validated")
  else if Str.eqb s "ambiguous" then (Some "ambiguous", "Multiple possible matches")
  else if Str.eqb s "unauthorized" then (Some "unauthorized", "Authorization is required")
  else if Str.eqb s "not_found" then (Some "not_found", "No matching record found")
  else if (Str.eqb s "invalid" || Str.eqb s "mismatch")%bool
    then (Some "mismatch", "Does not match records")
  else if Str.eqb s "error" then (Some "error", "Validation error")
  else if (Str.eqb s "skipped" || Str.eqb s "no_request")%bool
    then (Some "no_request", "No discount requested")
  else if (Str.eqb s "manual" || Str.eqb s "manual_override")%bool
    then (Some "manual", "Manual check override")
  else (None, "").

(* ------------------------------------------------------------------- *)
(** *** Jobs *)

Inductive JobState := Idle | Running | Done | Error | Blocked.

#[global] Instance JobState_eq_dec : EqDecision JobState.
Proof. solve_decision. Defined.

(** An entry of [job.members]. *)
Record Entry := {
  e_id : string;
  e_name : string;
  e_type : string;
  e_expected_bucket : string;
  e_status : string;
  e_reason_code : option string;
  e_reason_message : option string
}.

(** The argument of [onUpdate]. *)
Record Partial := {
  p_status : string;
  p_reason_code : option string;
  p_reason_message : string
}.

(** How the store write of one member ended. *)
Inductive StoreUpdate :=
| UpdOk (written : gmap string FieldVal)
| UpdError (message : string)
| UpdSkipped.

(** An element of the array [runMemberValidationsSequential] returns. *)
Inductive MemberResult :=
| MSkipped (memberId reason : string)
| MChecked (memberId : string) (result : Outcome) (airtableUpdate : StoreUpdate).

(** [job.result] *)
Inductive JobResult :=
| ResNull
| ResBlocked (startupFormSubmitted submissionConfirmation anyRepSubmitted : bool)
| ResDone (url filename : string) (validations : list MemberResult)
| ResError (message : string).

Record Job := {
  state : JobState;
  startedAt : string;
  finishedAt : option string;
  progress_validated : Z;
  progress_total : Z;
  checklist : option (list Entry);
  result : JobResult
}.

Definition withProgress (j : Job) (validated total : Z) : Job :=
  {| state := state j; startedAt := startedAt j; finishedAt := finishedAt j;
     progress_validated := validated; progress_total := total;
     checklist := checklist j; result := result j |}.

Definition withChecklist (j : Job) (l : list Entry) : Job :=
  {| state := state j; startedAt := startedAt j; finishedAt := finishedAt j;
     progress_validated := progress_validated j; progress_total := progress_total j;
     checklist := Some l; result := result j |}.

(** The three assignments that end a run. *)
Definition finish (j : Job) (st : JobState) (res : JobResult) (at_ : string) : Job :=
  {| state := st; startedAt := startedAt j; finishedAt := Some at_;
     progress_validated := progress_validated j; progress_total := progress_total j;
     checklist := checklist j; result := res |}.

Definition terminalStatuses : list string :=
  ["valid"; "invalid"; "ambiguous"; "error"; "skipped"].

Definition applyPartial (p : Partial) (m : Entry) : Entry :=
  {| e_id := e_id m; e_name := e_name m; e_type := e_type m;
     e_expected_bucket := e_expected_bucket m;
     e_status := if Str.truthy (p_status p) then p_status p else e_status m;
     e_reason_code :=
       match p_reason_code p with
       | Some c => if Str.truthy c then Some c else e_reason_code m
       | None => e_reason_code m
       end;
     e_reason_message :=
       if Str.truthy (p_reason_message p) then Some (p_reason_message p)
       else e_reason_message m |}.

(** Mutating the entry [find] returns: the first one with that id. *)
Fixpoint updateFirst (id : string) (f : Entry -> Entry) (l : list Entry)
    : option (list Entry) :=
  match l with
  | [] => None
  | m :: rest =>
      if Str.eqb (e_id m) id then Some (f m :: rest)
      else option_map (cons m) (updateFirst id f rest)
  end.

(** The [onUpdate] callback the orchestrator passes. *)
Definition onUpdate (j : Job) (memberId : string) (p : Partial) : Job :=
  match updateFirst memberId (applyPartial p) (default [] (checklist j)) with
  | None => j
  | Some l =>
      let j' := withChecklist j l in
      if bool_decide (Str.toLowerCase (p_status p) ∈ terminalStatuses)
      then withProgress j' (Z.min (progress_validated j' + 1) (progress_total j'))
                        (progress_total j')
      else j'
  end.

(* ------------------------------------------------------------------- *)
(** *** The registry and the trigger *)

(** The body of a 202 answer, or the 400 one. *)
Inductive Response :=
| R400
| R202 (message : string) (st : JobState) (started : string) (validated total : Z).

Definition snapshot (message : string) (j : Job) : Response :=
  R202 message (state j) (startedAt j) (progress_validated j) (progress_total j).

Definition newJob (nowIso : string) : Job :=
  {| state := Running; startedAt := nowIso; finishedAt := None;
     progress_validated := 0; progress_total := 0;
     checklist := None; result := ResNull |}.

(** POST /validate-and-generate/:token up to the answer: the answer, the
    registry afterwards, and the organisation whose run was started, if
    one was. *)
Definition trigger (nowIso : string) (startupRecordId : option string)
    (JOBS : gmap string Job) : Response * gmap string Job * option string :=
  match startupRecordId with
  | None => (R400, JOBS, None)
  | Some id =>
      match JOBS !! id with
      | Some existing =>
          if bool_decide (state existing = Running)
          then (snapshot "Validation/generation already in progress" existing, JOBS, None)
          else
            let job := newJob nowIso in
            (snapshot "Validation and generation started" job, <[id := job]> JOBS, Some id)
      | None =>
          let job := newJob nowIso in
          (snapshot "Validation and generation started" job, <[id := job]> JOBS, Some id)
      end
  end.

(** What a run in progress writes to its job. *)
Inductive job_write : Job -> Job -> Prop :=
| write_total j n : job_write j (withProgress j (progress_validated j) n)
| write_checklist j l : job_write j (withChecklist j l)
| write_update j id p : job_write j (onUpdate j id p)
| write_blocked j a b c t : job_write j (finish j Blocked (ResBlocked a b c) t)
| write_done j url file vs t : job_write j (finish j Done (ResDone url file vs) t)
| write_error j msg t : job_write j (finish j Error (ResError msg) t).

(** The registry changes by triggers and by the writes of the run whose
    job it holds; a run writes only while its job is running. *)
Inductive step : gmap string Job -> gmap string Job -> Prop :=
| step_trigger J nowIso id :
    step J (snd (fst (trigger nowIso id J)))
| step_run J id j j' :
    J !! id = Some j -> state j = Running -> job_write j j' ->
    step J (<[id := j']> J).

Definition reachable (J : gmap string Job) : Prop := rtc step ∅ J.

Definition terminal (st : JobState) : bool :=
  match st with Done | Error | Blocked => true | _ => false end.

(* ------------------------------------------------------------------- *)
(** *** The run of one job *)

(** What a run does to the outside, in order. *)
Inductive Event :=
| EvLog (level event : string)
| EvUpdate (memberId : string) (p : Partial)
| EvDir (c : DirCall)
| EvRefresh
| EvMemberWrite (memberId : string) (written : gmap string FieldVal)
| EvSleep
| EvRender
| EvCache (downloadToken : string)
| EvAttach (startupRecordId : string) (atts : list Attachment)
| EvStamp (startupRecordId : string) (date : string).

(** The environment of a run: configuration, clock, and how each outside
    call ends.  A [Some message] or [inl message] is the exception the call
    throws.  [today] is the local date [ymd()] gives, [todayUtc] the date
    part of [new Date().toISOString()]. *)
Record World := {
  devFake : bool;
  clock : Clock;
  today : string;
  todayUtc : string;
  finishedIso : string;
  refresh : Directory -> option Directory;
  fetchStartupFails : option string;
  fetchMembersFails : option string;
  memberWriteFails : string -> option string;
  payloadStartupReadFails : bool;
  payloadTeamReadFails : bool;
  render : Pricing.Main.Payload -> string + string;
  cacheFails : option string;
  attachFails : option string;
  stampFails : bool;
  baseUrl : string;
  token : string;
  downloadToken : string
}.

Record RunState := { job : Job; store : Store; directory : Directory }.

(** A computation of the run: it may throw, it changes the state, and it
    emits events.  State changes made before a throw stay. *)
Definition R (A : Type) : Type := RunState -> (string + A) * RunState * list Event.

Definition retR {A} (a : A) : R A := fun s => (inr a, s, []).
Definition throwR {A} (msg : string) : R A := fun s => (inl msg, s, []).
Definition bindR {A B} (x : R A) (f : A -> R B) : R B :=
  fun s =>
    match x s with
    | (inl e, s', t) => (inl e, s', t)
    | (inr a, s', t) => let '(b, s'', t') := f a s' in (b, s'', (t ++ t')%list)
    end.

Notation "'run' x <- e ; k" := (bindR e (fun x => k))
  (at level 10, x name, e at level 100, k at level 200).
Notation "'run' ' p <- e ; k" := (bindR e (fun x => let 'p := x in k))
  (at level 10, p pattern, e at level 100, k at level 200).

Definition emit (e : Event) : R unit := fun s => (inr tt, s, [e]).
Definition log (level event : string) : R unit := emit (EvLog level event).
Definition getState : R RunState := fun s => (inr s, s, []).
Definition modifyJob (f : Job -> Job) : R unit :=
  fun s => (inr tt, {| job := f (job s); store := store s; directory := directory s |}, []).
Definition modifyStore (f : Store -> Store) : R unit :=
  fun s => (inr tt, {| job := job s; store := f (store s); directory := directory s |}, []).
Definition setDirectory (d : Directory) : R unit :=
  fun s => (inr tt, {| job := job s; store := store s; directory := d |}, []).

(** [try { c } catch (e) { h e }] *)
Definition tryCatch {A} (c : R A) (h : string -> R A) : R A :=
  fun s =>
    match c s with
    | (inl e, s', t) => let '(b, s'', t') := h e s' in (b, s'', (t ++ t')%list)
    | (inr a, s', t) => (inr a, s', t)
    end.

(** A validator call against the current Directory. *)
Definition liftDir {A} (f : Directory -> Dir A) : R A :=
  fun s => let '(x, calls) := f (directory s) in (x, s, List.map EvDir calls).

(** A write of the store, with the event that records it. *)
Definition writeMember (memberRecordId : string) (written : gmap string FieldVal)
    : R unit :=
  run _ <- modifyStore (fun st => updateMember st memberRecordId written);
  emit (EvMemberWrite memberRecordId written).

Definition writeAgreement (startupRecordId : string) (atts : list Attachment) : R unit :=
  run _ <- modifyStore (fun st =>
             updateStartup st startupRecordId {[ "Agreement" := VAttach atts ]});
  emit (EvAttach startupRecordId atts).

Definition writeCreatedDate (startupRecordId : string) (date : string) : R unit :=
  run _ <- modifyStore (fun st =>
             updateStartup st startupRecordId {[ "Agreement Created Date" := VStr date ]});
  emit (EvStamp startupRecordId date).

(** The store after the writes a trace records, in order. *)
Definition replayEvent (st : Store) (e : Event) : Store :=
  match e with
  | EvMemberWrite id written => updateMember st id written
  | EvAttach id atts => updateStartup st id {[ "Agreement" := VAttach atts ]}
  | EvStamp id date => updateStartup st id {[ "Agreement Created Date" := VStr date ]}
  | _ => st
  end.

Definition replay (t : list Event) (st : Store) : Store := fold_left replayEvent t st.

(** The Directory calls of a trace. *)
Definition directoryCalls (t : list Event) : list DirCall :=
  omap (fun e => match e with EvDir c => Some c | _ => None end) t.

(** The statuses passed to [onUpdate] in a trace, and the last of them:
    the status the trace leaves on the member. *)
Definition statusUpdates (t : list Event) : list string :=
  omap (fun e => match e with EvUpdate _ p => Some (p_status p) | _ => None end) t.

Definition outcomeOf (t : list Event) : string := List.last (statusUpdates t) "".

(** The names of the log events of a trace, and the members written. *)
Definition logsOf (t : list Event) : list string :=
  omap (fun e => match e with EvLog _ event => Some event | _ => None end) t.

Definition memberWritesOf (t : list Event) : list string :=
  omap (fun e => match e with EvMemberWrite id _ => Some id | _ => None end) t.

(** The event of the gate evaluation. *)
Definition gatesEvent : Event := EvLog "debug" "orchestrator.gates".

(** Events of the per-member work. *)
Definition memberWork (e : Event) : bool :=
  match e with
  | EvUpdate _ _ | EvDir _ | EvRefresh | EvMemberWrite _ _ | EvSleep => true
  | EvLog _ event => Str.startsWith event "validation.member."
  | _ => false
  end.

(** A call of the [onUpdate] callback. *)
Definition notify (memberId : string) (p : Partial) : R unit :=
  run _ <- emit (EvUpdate memberId p);
  modifyJob (fun j => onUpdate j memberId p).

Definition qualifiesOtherOf (o : Outcome) : bool :=
  match o with OSingle res => qualifies_other res | _ => false end.

Definition expiresOf (o : Outcome) : option string :=
  match o with OSingle res => alumni_expires_at res | _ => None end.

Definition selectionOf (o : Outcome) : string :=
  if validOf o then "Valid"
  else if qualifiesOtherOf o then "Qualifies for Other"
  else if Str.eqb (statusOf o) "ambiguous" then "Ambiguous"
  else "Invalid".

(** The fields [updateMemberValidation] writes. *)
Definition validationFields (w : World) (o : Outcome) (expected : string)
    : gmap string FieldVal :=
  let f0 : gmap string FieldVal :=
    <["Discount Valid Date" := VStr (today w)]>
      (<["Discount Validated" := VStr (selectionOf o)]> ∅) in
  let f1 :=
    match expiresOf o with
    | Some iso => if Str.truthy iso then <["Discount Expires" := VStr (slice10 iso)]> f0 else f0
    | None => f0
    end in
  if Str.truthy expected then <["Discount Category" := VStr expected]> f1 else f1.

(** [updateMemberValidation] inside the loop's [try]: a failed write
    becomes [{ error }]. *)
Definition updateMemberValidation (w : World) (memberRecordId : string)
    (o : Outcome) (expected : string) : R StoreUpdate :=
  if negb (Str.truthy memberRecordId) then retR UpdSkipped
  else
    match memberWriteFails w memberRecordId with
    | Some msg => retR (UpdError msg)
    | None =>
        let written := validationFields w o expected in
        run _ <- writeMember memberRecordId written;
        retR (UpdOk written)
    end.

(** The result built in development when validation is faked. *)
Definition fakeResult (expected name email search_id : string) : Outcome :=
  let bucket := if Str.truthy expected then expected else CurrentStaff in
  OSingle {|
    valid := true;
    Validator.expected := if Str.truthy expected then Some expected else None;
    derived_buckets := [bucket];
    primary_bucket := Some bucket;
    bb_record_id := "DEV-FAKE";
    candidate := {| ci_id := "DEV"; ci_name := name; ci_email := email;
                    ci_lookup_id := search_id |};
    codes := [];
    qualifies_other := false;
    alumni_commencement := None;
    alumni_expires_at := None
  |}.

(** Whether the answer asks for a token refresh. *)
Definition needsRefresh (o : Outcome) : bool :=
  (match o with OError _ _ _ raw401 => raw401 | _ => false end
   || Str.includes (reasonOf o) "401")%bool.

(** The validator call of the loop, with its single refresh-and-retry. *)
Definition validateWithRefresh (w : World) (q : Query) : R Outcome :=
  run first <- liftDir (fun dir => validateDiscount dir (clock w) q);
  if needsRefresh first then
    run _ <- emit EvRefresh;
    run s <- getState;
    match refresh w (directory s) with
    | Some dir' =>
        run _ <- setDirectory dir';
        liftDir (fun dir => validateDiscount dir (clock w) q)
    | None => retR first
    end
  else retR first.

Definition orStr (a b : string) : string := if Str.truthy a then a else b.

(** The manual-override text of a member, as the loop reads it. *)
Definition manualOf (r : AirRecord) : string := getField r "Manual Discount Check".

(** The expected category of a member, as the loop computes it. *)
Definition expectedOf (r : AirRecord) : string :=
  let manualCat := getField r "Manual Discount Category" in
  if (Str.truthy (Str.trim (manualOf r)) && Str.truthy (Str.trim manualCat))%bool
  then manualCat
  else getField r "Discount Category".

Definition searchIdOf (r : AirRecord) : string := Str.trim (getField r "UTS ID").

(** The body of the loop of [runMemberValidationsSequential]. *)
Definition memberStep (w : World) (r : AirRecord) : R MemberResult :=
  run _ <- notify (rec_id r)
             {| p_status := "pending"; p_reason_code := None; p_reason_message := "" |};
  let search_id := searchIdOf r in
  let expected := expectedOf r in
  let email := getField r "UTS Email" in
  let name := orStr (getField r "Name") (getField r "Team member ID") in
  let dob := orStr (getField r "Date of birth*")
               (orStr (getField r "Date of Birth") (getField r "DOB")) in
  if Str.truthy (Str.trim (manualOf r)) then
    run _ <- notify (rec_id r)
               {| p_status := "skipped"; p_reason_code := Some "manual";
                  p_reason_message := "Manual check override" |};
    retR (MSkipped (rec_id r) "manual_override")
  else if negb (hasDiscountRequest expected) then
    run _ <- notify (rec_id r)
               {| p_status := "skipped"; p_reason_code := Some "no_request";
                  p_reason_message := "No discount requested" |};
    retR (MSkipped (rec_id r) "no_discount_requested")
  else if negb (Str.truthy search_id) then
    run _ <- log "warn" "validation.member.skip";
    retR (MSkipped (rec_id r) "missing search_id")
  else
    run res <-
      (if devFake w then retR (fakeResult expected name email search_id)
       else
         run _ <- log "debug" "validation.member.start";
         validateWithRefresh w
           {| search_id := search_id; expected_bucket := expected;
              email := email; name := name; dob := dob |});
    run upd <- updateMemberValidation w (rec_id r) res expected;
    let pub := mapReason (statusOf res) in
    run _ <- notify (rec_id r)
               {| p_status := Str.toLowerCase (statusOf res);
                  p_reason_code := fst pub; p_reason_message := snd pub |};
    run _ <- log "info" "validation.member.result";
    run _ <- emit EvSleep;
    retR (MChecked (rec_id r) res upd).

(** [runMemberValidationsSequential(members, { updateAirtable: true, onUpdate })] *)
Fixpoint runMemberValidationsSequential (w : World) (members : list AirRecord)
    : R (list MemberResult) :=
  match members with
  | [] => retR []
  | r :: rest =>
      run x <- memberStep w r;
      run xs <- runMemberValidationsSequential w rest;
      retR (x :: xs)
  end.

(** [fetchStartupAndMembers] *)
Definition fetchStartupAndMembers (w : World) (startupRecordId : string)
    : R (AirRecord * string * list AirRecord) :=
  run s <- getState;
  match fetchStartupFails w with
  | Some msg => throwR msg
  | None =>
      match startups (store s) !! startupRecordId with
      | None => throwR "NOT_FOUND"
      | Some f =>
          let startupRec := {| rec_id := startupRecordId; fields := f |} in
          let startupName := strOr (get startupRec "Startup Name (or working title)") in
          match fetchMembersFails w with
          | Some msg => throwR msg
          | None =>
              retR (startupRec, startupName,
                    listTeamMembersByStartupId (store s) startupRecordId)
          end
      end
  end.

(** [fullName] of the checklist seeding. *)
Definition firstTruthy (l : list (option FieldVal)) : string :=
  match List.find (fun o => Str.truthy (strOr o)) l with
  | Some o => strOr o
  | None => ""
  end.

Definition fullName (r : AirRecord) : string :=
  let n := Str.trim (firstTruthy [get r "Name"; get r "Full name"; get r "Full Name"]) in
  if Str.truthy n then n
  else Str.trim (Str.trim (strOr (get r "First Name")) ++ " "
                 ++ Str.trim (strOr (get r "Last Name"))).

Definition seedEntry (r : AirRecord) : Entry :=
  {| e_id := rec_id r;
     e_name := orStr (fullName r) (rec_id r);
     e_type := strOr (get r "Membership Type");
     e_expected_bucket := Pricing.Main.effectiveDiscountCategory r;
     e_status := "queued";
     e_reason_code := None;
     e_reason_message := None |}.

Record Gates := {
  startupFormSubmitted : bool;
  submissionConfirmation : bool;
  anyRepSubmitted : bool
}.

Definition gatesOf (startupRec : AirRecord) (members : list AirRecord) : Gates :=
  {| startupFormSubmitted :=
       (asOne (get startupRec "New onboarding form submitted")
        || asOne (get startupRec "Onboarding Submitted"))%bool;
     submissionConfirmation := asOne (get startupRec "Submission Confirmation");
     anyRepSubmitted :=
       existsb (fun m => (asOne (get m "Representative")
                          && asOne (get m "New onboarding form submitted"))%bool) members |}.

Definition gatesOpen (g : Gates) : bool :=
  (startupFormSubmitted g && submissionConfirmation g && anyRepSubmitted g)%bool.

(** [suggestPdfFilename]: the date in the name is the UTC date. *)
Definition suggestPdfFilename (w : World) (base : string) : string :=
  let name := orStr (Str.trim (orStr base "agreement")) "agreement" in
  name ++ " - UTS Incubator Agreement - " ++ todayUtc w ++ ".pdf".

(** The attachment block: its own [try] swallows a failed write. *)
Definition attachAgreement (w : World) (startupRec : AirRecord) (filename : string)
    : R unit :=
  let existing := match get startupRec "Agreement" with
                  | Some (VAttach l) => l
                  | _ => []
                  end in
  let keep := List.map (fun a => {| att_id := att_id a; att_url := ""; att_filename := "" |})
                (List.filter (fun a => Str.truthy (att_id a)) existing) in
  let attachment := {| att_id := "";
                       att_url := baseUrl w ++ "/download/" ++ downloadToken w;
                       att_filename := filename |} in
  tryCatch
    (match attachFails w with
     | Some msg => throwR msg
     | None =>
         run _ <- writeAgreement (rec_id startupRec) (keep ++ [attachment])%list;
         run _ <- (if stampFails w then retR tt
                   else writeCreatedDate (rec_id startupRec) (today w));
         log "info" "orchestrator.attach.ok"
     end)
    (fun _ => log "warn" "orchestrator.attach.error").

(** The [try] block of the detached run. *)
Definition runBody (w : World) (startupRecordId : string) : R unit :=
  run ' (startupRec, startupName, members) <- fetchStartupAndMembers w startupRecordId;
  run _ <- log "info" "orchestrator.start";
  run _ <- modifyJob (fun j => withProgress j (progress_validated j)
                                 (Z.of_nat (length members)));
  run _ <- modifyJob (fun j => withChecklist j (List.map seedEntry members));
  let g := gatesOf startupRec members in
  run _ <- emit gatesEvent;
  if negb (gatesOpen g) then
    run _ <- modifyJob (fun j =>
               finish j Blocked
                 (ResBlocked (startupFormSubmitted g) (submissionConfirmation g)
                    (anyRepSubmitted g))
                 (finishedIso w));
    log "warn" "orchestrator.blocked"
  else
    run results <- runMemberValidationsSequential w members;
    run _ <- log "info" "orchestrator.validations.done";
    run s <- getState;
    let payload := Pricing.Main.buildPdfPayload (store s) (payloadStartupReadFails w)
                     (payloadTeamReadFails w) startupRecordId in
    let filename :=
      suggestPdfFilename w
        (orStr (Pricing.Main.legal_name payload) (orStr startupName "agreement")) in
    run _ <- log "info" "orchestrator.pdf.start";
    run _ <- emit EvRender;
    match render w payload with
    | inl msg => throwR msg
    | inr pdfBuffer =>
        match cacheFails w with
        | Some msg => throwR msg
        | None =>
            run _ <- emit (EvCache (downloadToken w));
            run _ <- attachAgreement w startupRec filename;
            run _ <- modifyJob (fun j =>
                       finish j Done
                         (ResDone (baseUrl w ++ "/agreement/latest/" ++ token w)
                            filename results)
                         (finishedIso w));
            log "info" "orchestrator.done"
        end
    end.

(** The detached run: the body, and the [catch] that records a failure. *)
Definition runJob (w : World) (startupRecordId : string) : R unit :=
  tryCatch (runBody w startupRecordId)
    (fun msg =>
       run _ <- log "error" "orchestrator.exception";
       modifyJob (fun j => finish j Error (ResError msg) (finishedIso w))).

(** Every event of the computation satisfies [P], from any state and
    whether or not it throws. *)
Definition Emits {A} (P : Event -> Prop) (c : R A) : Prop :=
  forall s, Forall P (snd (c s)).

(** The store after the computation is the store before with the writes
    of its trace applied: nothing else is written and nothing is undone. *)
Definition Replays {A} (c : R A) : Prop :=
  forall s, store (snd (fst (c s))) = replay (snd (c s)) (store s).

(** The three [onUpdate] arguments of the skip paths. *)
Definition pending : Partial :=
  {| p_status := "pending"; p_reason_code := None; p_reason_message := "" |}.
Definition skippedManual : Partial :=
  {| p_status := "skipped"; p_reason_code := Some "manual";
     p_reason_message := "Manual check override" |}.
Definition skippedNoRequest : Partial :=
  {| p_status := "skipped"; p_reason_code := Some "no_request";
     p_reason_message := "No discount requested" |}.

(** Events other than [onUpdate] calls. *)
Definition notUpdate (e : Event) : Prop :=
  match e with EvUpdate _ _ => False | _ => True end.

(** Events other than the gate evaluation. *)
Definition notGates (e : Event) : Prop := e <> gatesEvent.

(** Events that are not Directory calls. *)
Definition notDirectory (e : Event) : Prop :=
  match e with EvDir _ => False | _ => True end.

(** A run started by a trigger, from the job the trigger created. *)
Definition execute (w : World) (startupRecordId : string) (st : Store) (dir : Directory)
    (j : Job) : RunState * list Event :=
  let '(_, s, t) := runJob w startupRecordId
                      {| job := j; store := st; directory := dir |} in
  (s, t).

End Orchestrator.

(* ===================================================================== *)
(** ** The specification's wording of the name disambiguation             *)
(* ===================================================================== *)

Module SpecWords.
Import Validator.

(** The scoring rule as the specification words it: 100 for an exact
    normalized-name match, 85 when the last names are equal and one first
    name is a prefix of the other, 60 when the token Jaccard similarity is
    at least one half, 0 otherwise. *)
Definition scoreName_spec (candidateName expectedName : string) : Z :=
  let c := normalizeName candidateName in
  let e := normalizeName expectedName in
  let cs := splitName c in
  let es := splitName e in
  if Str.eqb c e then 100
  else if (Str.eqb (last_ cs) (last_ es) && firstPrefixRelated cs es)%bool then 85
  else if jaccardAtLeastHalf c e then 60
  else 0.

(** Acceptance of the top scorer as the specification words it: its score
    is at least 85, or it beats the runner-up by at least 15, or it is the
    unique candidate whose normalized last name is the expected one. *)
Definition accept_spec (top : Scored) (rest : list Scored) (expectedName : string)
    : Prop :=
  85 <= score top
  \/ 15 <= score top - secondScore rest
  \/ List.filter (sharesLast (last_ (splitName (normalizeName expectedName))))
       (top :: rest) = [top].

End SpecWords.

(* ===================================================================== *)
(** ** Concrete records, stores and worlds used in the examples           *)
(* ===================================================================== *)

Module Samples.
Import Airtable Validator Orchestrator.

(** An organisation with its form submitted and confirmed. *)
Definition acme : gmap string FieldVal :=
  {[ "Startup Name (or working title)" := VStr "Acme";
     "New onboarding form submitted" := VBool true;
     "Submission Confirmation" := VStr "yes" ]}.

(** A submitted Full member, the representative, who asks for the
    student discount but has no UTS ID. *)
Definition fullMember : AirRecord :=
  {| rec_id := "recM1";
     fields := {[ "Membership Type" := VStr "Full";
                  "Discount Category" := VStr "Current UTS Student";
                  "New onboarding form submitted" := VBool true;
                  "Representative" := VBool true;
                  "Startup" := VArr ["recS"] ]} |}.

(** The same member with a UTS ID. *)
Definition fullMemberWithId : AirRecord :=
  {| rec_id := "recM1"; fields := <["UTS ID" := VStr "UTS-001"]> (fields fullMember) |}.

(** A submitted member whose membership type is blank. *)
Definition blankTypeMember : AirRecord :=
  {| rec_id := "recM2";
     fields := {[ "New onboarding form submitted" := VBool true;
                  "Startup" := VArr ["recS"] ]} |}.

Definition store1 : Store :=
  {| startups := {[ "recS" := acme ]}; members := [fullMember]; pricing := ∅ |}.

Definition store2 : Store :=
  {| startups := {[ "recS" := acme ]}; members := [fullMemberWithId]; pricing := ∅ |}.

(** Two search results, neither of which resembles "John Smith"; one
    shares the last name. *)
Definition smithPool : list Candidate :=
  [ {| cid := "1"; cname := "Mary Ann Smith"; cemail := ""; lookup_id := "L1" |};
    {| cid := "2"; cname := "Bob Brown Jones"; cemail := ""; lookup_id := "L2" |} ].

(** Two results that both resemble "John Smith". *)
Definition johnPool : list Candidate :=
  [ {| cid := "1"; cname := "Jon Smith"; cemail := ""; lookup_id := "L1" |};
    {| cid := "2"; cname := "John Smith"; cemail := ""; lookup_id := "L2" |} ].

(** A candidate and the alumni code the Directory holds for it. *)
Definition graduate : Candidate :=
  {| cid := "bb-7"; cname := "Ada Lee"; cemail := "ada@example.org"; lookup_id := "L7" |}.

Definition alumniCode : Code :=
  {| description := "Alumni"; inactive := false;
     date_modified := None; date_added := None;
     start := Some {| ymd_y := 2024; ymd_m := 1; ymd_d := 15 |} |}.

(** The only search result carries the queried id as its own lookup id. *)
Definition namesake : Candidate :=
  {| cid := "bb-1"; cname := "Ada Lee"; cemail := ""; lookup_id := "UTS-001" |}.

Definition studentQuery : Query :=
  {| search_id := "UTS-001  "; expected_bucket := CurrentStudent;
     email := ""; name := ""; dob := "" |}.

Definition studentCode : Code :=
  {| description := "Student"; inactive := false;
     date_modified := None; date_added := None; start := None |}.

(** Three results: two students and one without codes. *)
Definition ann : Candidate :=
  {| cid := "bb-2"; cname := "Ann"; cemail := ""; lookup_id := "L2" |}.
Definition ben : Candidate :=
  {| cid := "bb-3"; cname := "Ben"; cemail := ""; lookup_id := "L3" |}.
Definition cyd : Candidate :=
  {| cid := "bb-4"; cname := "Cyd"; cemail := ""; lookup_id := "L4" |}.

Definition ok {A} (v : A) : string + Resp A :=
  inr {| status := 200; value := v; body401 := false |}.

(** A Directory that knows nobody. *)
Definition emptyDirectory : Directory :=
  {| credsPresent := true;
     search := fun _ => ok [];
     constituentCodes := fun _ => ok [];
     constituentById := fun _ => ok None |}.

(** A Directory whose every constituent holds the alumni code. *)
Definition alumniDirectory : Directory :=
  {| credsPresent := true;
     search := fun _ => ok [graduate];
     constituentCodes := fun _ => ok [alumniCode];
     constituentById := fun _ => ok None |}.

(** A Directory whose search finds only the namesake. *)
Definition collisionDirectory : Directory :=
  {| credsPresent := true;
     search := fun _ => ok [namesake];
     constituentCodes := fun _ => ok [studentCode];
     constituentById := fun _ => ok None |}.

(** A Directory whose search finds Ann, Ben and Cyd; Ann and Ben are
    students, Cyd has no codes. *)
Definition threeDirectory : Directory :=
  {| credsPresent := true;
     search := fun _ => ok [ann; ben; cyd];
     constituentCodes := fun id => if Str.eqb id "bb-4" then ok [] else ok [studentCode];
     constituentById := fun _ => ok None |}.

(** The same, but Ann's codes cannot be fetched and Ben has none. *)
Definition flakyDirectory : Directory :=
  {| credsPresent := true;
     search := fun _ => ok [ann; ben];
     constituentCodes := fun id =>
       if Str.eqb id "bb-2"
       then inr {| status := 500; value := []; body401 := false |}
       else ok [];
     constituentById := fun _ => ok None |}.

(** A world in which every outside call succeeds. *)
Definition calmWorld : World :=
  {| devFake := false;
     clock := {| tz := 0; now := 1735689600000 |};
     today := "2025-01-01";
     todayUtc := "2025-01-01";
     finishedIso := "2025-01-01T00:00:09.000Z";
     refresh := fun _ => None;
     fetchStartupFails := None;
     fetchMembersFails := None;
     memberWriteFails := fun _ => None;
     payloadStartupReadFails := false;
     payloadTeamReadFails := false;
     render := fun _ => inr "%PDF-1.7";
     cacheFails := None;
     attachFails := None;
     stampFails := false;
     baseUrl := "https://host";
     token := "jwt";
     downloadToken := "00ff" |}.

(** The same world, except that the attachment write fails. *)
Definition attachFailsWorld : World :=
  {| devFake := devFake calmWorld; clock := clock calmWorld; today := today calmWorld;
     todayUtc := todayUtc calmWorld;
     finishedIso := finishedIso calmWorld; refresh := refresh calmWorld;
     fetchStartupFails := None; fetchMembersFails := None;
     memberWriteFails := fun _ => None;
     payloadStartupReadFails := false; payloadTeamReadFails := false;
     render := render calmWorld; cacheFails := None;
     attachFails := Some "INVALID_ATTACHMENT_OBJECT";
     stampFails := false;
     baseUrl := baseUrl calmWorld; token := token calmWorld;
     downloadToken := downloadToken calmWorld |}.

(** The same world, except that the renderer fails. *)
Definition renderFailsWorld : World :=
  {| devFake := devFake calmWorld; clock := clock calmWorld; today := today calmWorld;
     todayUtc := todayUtc calmWorld;
     finishedIso := finishedIso calmWorld; refresh := refresh calmWorld;
     fetchStartupFails := None; fetchMembersFails := None;
     memberWriteFails := fun _ => None;
     payloadStartupReadFails := false; payloadTeamReadFails := false;
     render := fun _ => inl "Generator exited with code 1";
     cacheFails := None; attachFails := None; stampFails := false;
     baseUrl := baseUrl calmWorld; token := token calmWorld;
     downloadToken := downloadToken calmWorld |}.

(** An organisation whose submission was never confirmed. *)
Definition unconfirmed : gmap string FieldVal :=
  {[ "Startup Name (or working title)" := VStr "Acme";
     "New onboarding form submitted" := VBool true ]}.

Definition store3 : Store :=
  {| startups := {[ "recS" := unconfirmed ]}; members := [fullMemberWithId];
     pricing := ∅ |}.

(** A member with a manual override. *)
Definition overridden : AirRecord :=
  {| rec_id := "recM3";
     fields := {[ "Manual Discount Check" := VStr "Valid";
                  "Manual Discount Category" := VStr "Current UTS Staff";
                  "UTS ID" := VStr "UTS-003" ]} |}.

(** A member with a manual discount category but no manual check, who
    asks for the staff discount. *)
Definition categoryOnly : AirRecord :=
  {| rec_id := "recM4";
     fields := {[ "Manual Discount Category" := VStr "Current UTS Staff";
                  "Discount Category" := VStr "Current UTS Staff";
                  "UTS ID" := VStr "UTS-004" ]} |}.

(** A second member of the organisation, with the UTS ID "UTS-002". *)
Definition secondMember : AirRecord :=
  {| rec_id := "recM6";
     fields := {[ "Membership Type" := VStr "Casual";
                  "Discount Category" := VStr "Current UTS Staff";
                  "New onboarding form submitted" := VBool true;
                  "UTS ID" := VStr "UTS-002";
                  "Startup" := VArr ["recS"] ]} |}.

Definition store4 : Store :=
  {| startups := {[ "recS" := acme ]}; members := [fullMemberWithId; secondMember];
     pricing := ∅ |}.

(** A Directory that knows nobody and whose search request for "UTS-002"
    fails. *)
Definition brokenDirectory : Directory :=
  {| credsPresent := true;
     search := fun text => if Str.eqb text "UTS-002" then inl "socket hang up" else ok [];
     constituentCodes := fun _ => ok [];
     constituentById := fun _ => ok None |}.

End Samples.

(* ===================================================================== *)
(** ** Shapes of inputs and observations on calls                         *)
(* ===================================================================== *)

Module Shapes.
Import Validator.

(** Every character of the string satisfies [p]. *)
Fixpoint all (p : ascii -> bool) (s : string) : bool :=
  match s with
  | EmptyString => true
  | String c s' => (p c && all p s')%bool
  end.

(** Only white space, respectively no white space at all. *)
Definition blank (s : string) : bool := all Str.isSpace s.
Definition unspaced (s : string) : bool := all (fun c => negb (Str.isSpace c)) s.

(** Every character is an ASCII character: its code is below 128. *)
Definition ascii7 (s : string) : bool :=
  all (fun c => Nat.ltb (nat_of_ascii c) 128) s.

(** A birth date written year first (1990-05-17) and day first
    (17/05/1990). *)
Definition yearFirst (y m d : Z) : string := pad4 y ++ "-" ++ pad2 m ++ "-" ++ pad2 d.
Definition dayFirst (y m d : Z) : string := pad2 d ++ "/" ++ pad2 m ++ "/" ++ pad4 y.

(** The label one constituent code contributes to the buckets, if any:
    what [bucketStep] adds to the empty set. *)
Definition labelOf (tz now : Z) (c : Code) : option string :=
  head (bucketStep tz now [] c).

(** The test of the loop of [resolveByDob] for one pool candidate. *)
Definition dobOk (dir : Directory) (target : DobTarget) (c : Candidate) : bool :=
  match constituentById dir (cid c) with
  | inr det => ((status det =? 200) && matchDob (value det) target)%bool
  | inl _ => false
  end.

(** The calendar day before a day, with the month counted from zero. *)
Definition dayBefore (x : Z * Z * Z) : Z * Z * Z :=
  let '(y, m, d) := x in
  if 1 <? d then (y, m, d - 1)
  else if m =? 0 then (y - 1, 11, 31)
  else (y, m - 1, daysInMonth y (m - 1)).

(** The day twelve calendar months after the day dd of month mm (counted
    from one) of year yy: the same day of the next year, and 1 March for
    29 February.  The month of the result is counted from zero. *)
Definition yearLater (yy mm dd : Z) : Z * Z * Z :=
  if ((mm =? 2) && (dd =? 29))%bool then (yy + 1, 2, 1) else (yy + 1, mm - 1, dd).

(** The UTC reading of the local midnight of a day, in a zone [tz] minutes
    east of UTC: the same day at or west of UTC, the day before east of
    it. *)
Definition utcOfMidnight (tz : Z) (x : Z * Z * Z) : Date :=
  let '(y, m, d) := if tz <=? 0 then x else dayBefore x in
  {| dY := y; dM := m; dD := d; dMs := (- tz * 60000) mod msPerDay |}.

(** The ISO string of a UTC broken-down time. *)
Definition isoString (u : Date) : string := isoDate u ++ "T" ++ isoTime u ++ "Z".

(** The members the three Casual counters of the main server hold. *)
Definition casualMembers (c : Pricing.Main.Counts) : Z :=
  Pricing.Main.casualNoDisc c + Pricing.Main.casualWithin c + Pricing.Main.casualOver c.

(** A member whose type is no known one, with a validated student
    discount, and a pricing table whose Casual row halves the rate for
    students. *)
Definition hotDeskStudent : Airtable.AirRecord :=
  {| Airtable.rec_id := "recM5";
     Airtable.fields :=
       {[ "Membership Type" := Airtable.VStr "Hot desk";
          "Discount Category" := Airtable.VStr "Current UTS Student";
          "Discount Validated" := Airtable.VStr "Valid";
          "New onboarding form submitted" := Airtable.VBool true ]} |}.

Definition casualHalved : gmap string Airtable.PricingRow :=
  {[ Pricing.Casual :=
       {| Airtable.base := 38500;
          Airtable.discounts := {[ Pricing.colCurrentStudent := 19250 ]} |} ]}.

(** The pricing columns, in the order of the bucket labels. *)
Definition columnOrder : list string :=
  [Pricing.colCurrentStudent; Pricing.colCurrentStaff; Pricing.colAlumniWithin;
   Pricing.colAlumniOver; Pricing.colFormerWithin; Pricing.colFormerOver].

Definition isSearch (c : DirCall) : bool :=
  match c with CallSearch _ => true | _ => false end.

(** Every call of the Directory answers: no request fails. *)
Definition answers (dir : Directory) : Prop :=
  credsPresent dir = true
  /\ (forall text, exists r, search dir text = inr r)
  /\ (forall id, exists r, constituentCodes dir id = inr r)
  /\ (forall id, exists r, constituentById dir id = inr r).

(** The expiry of the alumni commencement of these codes is a valid date:
    its time value is within 8.64e15 ms of the epoch.  [evaluateSingle]
    renders the expiry with [toISOString], which throws a RangeError on an
    invalid date. *)
Definition expiryRenders (clk : Clock) (codes : list Code) : bool :=
  match alumniCommencementFromCodes (tz clk) codes with
  | Some dt => Z.abs (getTime (tz clk) (addMonths dt 12)) <=? 8640000000000000
  | None => true
  end.

(** Every call of the Directory answers, and the alumni expiry of every
    answer of the codes call can be rendered. *)
Definition dependable (clk : Clock) (dir : Directory) : Prop :=
  answers dir
  /\ forall id r, constituentCodes dir id = inr r -> expiryRenders clk (value r) = true.

End Shapes.

(* ===================================================================== *)
(** ** The requests of the Directory client (httpGet)                     *)
(* ===================================================================== *)

Module Transport.
Import Validator.

(** A status that makes [httpGet] go on to the next subscription key. *)
Definition keyRejected (st : Z) : bool := ((st =? 401) || (st =? 403))%bool.

(** The loop of [httpGet] from key [k] on, [rest] being the keys after
    it: the answer, or the exception of a request that failed, and the keys
    tried in order. *)
Fixpoint tryKeys {A} (onceWithKey : string -> string + Resp A) (k : string)
    (rest : list string) {struct rest} : (string + Resp A) * list string :=
  match onceWithKey k with
  | inl e => (inl e, [k])
  | inr r =>
      if keyRejected (status r) then
        match rest with
        | [] => (inr r, [k])
        | k' :: rest' =>
            let '(x, used) := tryKeys onceWithKey k' rest' in (x, k :: used)
        end
      else (inr r, [k])
  end.

(** [httpGet]: with no subscription key configured one request is made
    with the empty key. *)
Definition httpGet {A} (onceWithKey : string -> string + Resp A)
    (subscriptionKeys : list string) : (string + Resp A) * list string :=
  match subscriptionKeys with
  | [] => tryKeys onceWithKey "" []
  | k :: rest => tryKeys onceWithKey k rest
  end.

End Transport.

(* ===================================================================== *)
(** ** The public view of a job (sanitizeJob, GET /job-status)            *)
(* ===================================================================== *)

Module StatusView.
Import Airtable Validator Orchestrator.

(** The codes [mapReason] can answer. *)
Definition publicVocabulary : list string :=
  ["validated"; "ambiguous"; "unauthorized"; "not_found"; "mismatch"; "error";
   "no_request"; "manual"].

Record MemberView := {
  v_id : string;
  v_name : string;
  v_type : string;
  v_expected_bucket : string;
  v_status : string;
  v_reason_code : option string;
  v_reason_message : string
}.

(** [result.pdf]; the job never stores an [expiresAt], so the view has
    none. *)
Record PdfView := { pdf_url : string; pdf_filename : string }.

Record JobView := {
  jv_state : JobState;
  jv_validated : Z;
  jv_total : Z;
  jv_members : list MemberView;
  jv_result : option PdfView
}.

(** [m.reason_code || m.reason || m.status]: the entries of a job carry an
    empty [reason]. *)
Definition internalReason (m : Entry) : string :=
  match e_reason_code m with
  | Some c => if Str.truthy c then c else e_status m
  | None => e_status m
  end.

Definition sanitizeMember (m : Entry) : MemberView :=
  let pub := mapReason (internalReason m) in
  {| v_id := e_id m;
     v_name := e_name m;
     v_type := e_type m;
     v_expected_bucket := e_expected_bucket m;
     v_status := Str.toLowerCase (orStr (e_status m) "queued");
     v_reason_code := fst pub;
     v_reason_message := snd pub |}.

(** [sanitizeJob] *)
Definition sanitizeJob (job : Job) : JobView :=
  {| jv_state := state job;
     jv_validated := progress_validated job;
     jv_total := progress_total job;
     jv_members := List.map sanitizeMember (default [] (checklist job));
     jv_result :=
       match result job with
       | ResDone url filename _ => Some {| pdf_url := url; pdf_filename := filename |}
       | _ => None
       end |}.

(** The literal GET /job-status falls back to; it has no [startedAt]. *)
Definition idleJob : Job :=
  {| state := Idle; startedAt := ""; finishedAt := None;
     progress_validated := 0; progress_total := 0;
     checklist := Some []; result := ResNull |}.

(** GET /job-status/:token for a token that names an organisation. *)
Definition jobStatus (JOBS : gmap string Job) (startupRecordId : string) : JobView :=
  sanitizeJob (default idleJob (JOBS !! startupRecordId)).

End StatusView.

(* ===================================================================== *)
(** ** The cache of rendered documents (POST /pdf-url, GET /download)     *)
(* ===================================================================== *)

Module Downloads.

(** An entry of [PDF_TOKENS]; [expiresAt] is a time value in
    milliseconds. *)
Record TokenEntry := { filePath : string; expiresAt : Z; filename : string }.

(** [URL_TTL_SECONDS], from the whole number of seconds the environment
    gives, 3600 when it gives none. *)
Definition URL_TTL_SECONDS (env : option Z) : Z := Z.max 30 (default 3600 env).

(** [Math.max(30, parseInt(ttlSeconds || URL_TTL_SECONDS, 10))], for a
    whole number of seconds in the request body or none. *)
Definition ttlOf (ttlSeconds : option Z) (urlTtl : Z) : Z :=
  Z.max 30 (match ttlSeconds with
            | Some n => if n =? 0 then urlTtl else n
            | None => urlTtl
            end).

(** [PDF_TOKENS.set(token, { filePath, expiresAt, filename })] with
    [expiresAt = Date.now() + ttl * 1000]. *)
Definition issue (nowMs ttl : Z) (token path name : string)
    (T : gmap string TokenEntry) : gmap string TokenEntry :=
  <[token := {| filePath := path; expiresAt := nowMs + ttl * 1000; filename := name |}]> T.

Inductive Answer :=
| Expired410
| Streaming (name path : string).

(** GET /download/:token up to the start of the stream. *)
Definition download (nowMs : Z) (tokenParam : string) (T : gmap string TokenEntry)
    : Answer * gmap string TokenEntry :=
  let token := Str.trim tokenParam in
  match T !! token with
  | None => (Expired410, T)
  | Some entry =>
      if expiresAt entry <? nowMs then (Expired410, delete token T)
      else (Streaming (filename entry) (filePath entry), T)
  end.

(** The [close] handler of the stream. *)
Definition closeStream (tokenParam : string) (T : gmap string TokenEntry)
    : gmap string TokenEntry :=
  delete (Str.trim tokenParam) T.

(** The periodic cleanup. *)
Definition sweep (nowMs : Z) (T : gmap string TokenEntry) : gmap string TokenEntry :=
  filter (fun kv => ~ (expiresAt (snd kv) < nowMs)) T.

End Downloads.

(* ===================================================================== *)
(** ** The pricing preview (GET /pricing-preview)                         *)
(* ===================================================================== *)

Module Preview.
Import Airtable Pricing.

Record Row := {
  row_id : string;
  row_name : string;
  row_type : string;
  row_discountCategory : string;
  row_validated : bool;
  row_mappedColumn : option string;
  row_base : Z;
  row_appliedRate : Z;
  row_appliedFrom : string
}.

(** The body of the loop for one submitted member. *)
Definition previewRow (matrix : gmap string PricingRow) (r : AirRecord) : Row :=
  let type := Main.normaliseType (get r "Membership Type") in
  let expected := Main.effectiveDiscountCategory r in
  let validated := Main.isDiscountValidated r in
  let row := default Main.defaultRow (matrix !! type) in
  let mapped := if validated then Main.discountColumnFor expected else None in
  let hit := mapped ≫= (fun c => pair c <$> discounts row !! c) in
  {| row_id := rec_id r;
     row_name := Main.orElse (strOr (get r "Team member ID"))
                   (Main.orElse (strOr (get r "Name")) (rec_id r));
     row_type := type;
     row_discountCategory := expected;
     row_validated := validated;
     row_mappedColumn := mapped;
     row_base := base row;
     row_appliedRate :=
       match hit with
       | Some (_, v) => if v =? 0 then base row else v
       | None => base row
       end;
     row_appliedFrom :=
       match hit with
       | Some (c, _) => c
       | None => "base"
       end |}.

(** A member for whom the preview and the agreement must agree: not a Day
    member, and either without validated discount or with a rate in the
    column of its category that is not zero. *)
Definition settled (matrix : gmap string PricingRow) (r : AirRecord) : bool :=
  let type := Main.normaliseType (get r "Membership Type") in
  let row := default Main.defaultRow (matrix !! type) in
  (negb (Str.eqb type Day)
   && (negb (Main.isDiscountValidated r)
       || match Main.discountColumnFor (Main.effectiveDiscountCategory r)
                  ≫= (fun c => discounts row !! c) with
          | Some v => negb (v =? 0)
          | None => false
          end))%bool.

(** The rows and the sum of the preview. *)
Definition pricingPreview (matrix : gmap string PricingRow) (team : list AirRecord)
    : list Row * Z :=
  let rows :=
    List.map (previewRow matrix)
      (List.filter (fun r => asOne (get r "New onboarding form submitted")) team) in
  (rows, fold_left (fun sum x => sum + row_appliedRate x) rows 0).

End Preview.

(* ===================================================================== *)
(** ** Conditions on runs                                                 *)
(* ===================================================================== *)

Module Conduct.
Import Airtable Validator Orchestrator Shapes.

(** Started in a state that satisfies [P], the computation ends in one
    that satisfies [Q] when it returns and [E] when it throws. *)
Definition Triple {A} (P : RunState -> Prop) (c : R A)
    (Q : A -> RunState -> Prop) (E : RunState -> Prop) : Prop :=
  forall s, P s ->
    match fst (fst (c s)) with
    | inr a => Q a (snd (fst (c s)))
    | inl _ => E (snd (fst (c s)))
    end.

(** [I] holds after the computation whenever it held before. *)
Definition Inv {A} (I : RunState -> Prop) (c : R A) : Prop :=
  Triple I c (fun _ => I) I.

(** A write a run makes while its job is running. *)
Definition job_step (j j' : Job) : Prop := state j = Running /\ job_write j j'.

(** The job of the state is running and was reached from [j0] by such
    writes. *)
Definition underway (j0 : Job) (s : RunState) : Prop :=
  rtc job_step j0 (job s) /\ state (job s) = Running.

(** The progress of the job is within its total. *)
Definition progressWithin (total : Z) (s : RunState) : Prop :=
  0 <= progress_validated (job s) <= progress_total (job s)
  /\ progress_total (job s) = total.

(** The job is finished: a terminal state, the result of that state, and
    a finishing time. *)
Definition finished (j : Job) : Prop :=
  finishedAt j <> None
  /\ match state j, result j with
     | Blocked, ResBlocked _ _ _ => True
     | Done, ResDone _ _ _ => True
     | Error, ResError _ => True
     | _, _ => False
     end.

(** A job is either running, not finished and without result, or
    finished. *)
Definition consistent (j : Job) : Prop :=
  (state j = Running /\ finishedAt j = None /\ result j = ResNull) \/ finished j.

Definition memberIdOf (x : MemberResult) : string :=
  match x with
  | MSkipped id _ => id
  | MChecked id _ _ => id
  end.

(** How often a trace refreshes the token, and the texts it searches the
    Directory for. *)
Definition refreshCount (t : list Event) : nat :=
  length (List.filter (fun e => match e with EvRefresh => true | _ => false end) t).

Definition searchesOf (t : list Event) : list string :=
  omap (fun e => match e with EvDir (CallSearch text) => Some text | _ => None end) t.

(** Events that neither refresh the token nor call the Directory. *)
Definition quiet (e : Event) : Prop :=
  match e with
  | EvRefresh => False
  | EvDir _ => False
  | _ => True
  end.

(** The state in which the member loop of a run starts: the job with the
    total and the checklist seeded from the fetched members. *)
Definition seeded (members : list AirRecord) (s : RunState) : RunState :=
  {| job := withChecklist
              (withProgress (job s) (progress_validated (job s))
                 (Z.of_nat (length members)))
              (List.map seedEntry members);
     store := store s; directory := directory s |}.

(** The three tests by which the loop leaves a member out, in the order
    in which it makes them, with the reason it records; [None] when the
    member goes to the resolver. *)
Definition skipReason (r : AirRecord) : option string :=
  if Str.truthy (Str.trim (manualOf r)) then Some "manual_override"
  else if negb (hasDiscountRequest (expectedOf r)) then Some "no_discount_requested"
  else if negb (Str.truthy (searchIdOf r)) then Some "missing search_id"
  else None.

(** The query the loop builds for a member. *)
Definition queryOf (r : AirRecord) : Query :=
  {| search_id := searchIdOf r;
     expected_bucket := expectedOf r;
     email := getField r "UTS Email";
     name := orStr (getField r "Name") (getField r "Team member ID");
     dob := orStr (getField r "Date of birth*")
              (orStr (getField r "Date of Birth") (getField r "DOB")) |}.

(** The two parts of the loop body for a member that goes to the
    resolver: the call of the resolver, and what follows its answer. *)
Definition resolverStep (w : World) (r : AirRecord) : R Outcome :=
  if devFake w
  then retR (fakeResult (expectedOf r) (name (queryOf r)) (email (queryOf r))
               (searchIdOf r))
  else
    run _ <- log "debug" "validation.member.start";
    validateWithRefresh w (queryOf r).

Definition recordStep (w : World) (r : AirRecord) (res : Outcome) : R MemberResult :=
  run upd <- updateMemberValidation w (rec_id r) res (expectedOf r);
  let pub := mapReason (statusOf res) in
  run _ <- notify (rec_id r)
             {| p_status := Str.toLowerCase (statusOf res);
                p_reason_code := fst pub; p_reason_message := snd pub |};
  run _ <- log "info" "validation.member.result";
  run _ <- emit EvSleep;
  retR (MChecked (rec_id r) res upd).

(** The job after an [onUpdate] call, in a state. *)
Definition updated (memberId : string) (p : Partial) (s : RunState) : RunState :=
  {| job := onUpdate (job s) memberId p; store := store s; directory := directory s |}.

(** The fields the run writes on a member and on the organisation. *)
Definition validationKeys : list string :=
  ["Discount Validated"; "Discount Valid Date"; "Discount Expires"; "Discount Category"].

Definition agreementKeys : list string := ["Agreement"; "Agreement Created Date"].

(** The writes a run for organisation [id] with the linked members
    [linked] may record. *)
Definition allowedWrite (id : string) (linked : list string) (e : Event) : Prop :=
  match e with
  | EvMemberWrite m written =>
      m ∈ linked /\ forall k, is_Some (written !! k) -> k ∈ validationKeys
  | EvAttach k _ => k = id
  | EvStamp k _ => k = id
  | _ => True
  end.

(** What such writes can change in a store. *)
Definition Frame (id : string) (linked : list string) (st st' : Store) : Prop :=
  pricing st' = pricing st
  /\ (forall k, k <> id -> startups st' !! k = startups st !! k)
  /\ (forall key, key ∉ agreementKeys ->
        (startups st' !! id) ≫= (fun f => f !! key)
        = (startups st !! id) ≫= (fun f => f !! key))
  /\ (forall k, is_Some (startups st' !! k) <-> is_Some (startups st !! k))
  /\ Forall2 (fun r r' =>
                rec_id r' = rec_id r
                /\ (rec_id r ∉ linked -> r' = r)
                /\ forall key, key ∉ validationKeys -> fields r' !! key = fields r !! key)
       (members st) (members st').

(** The Directory of the state is dependable, or validation is faked. *)
Definition serviceable (w : World) (s : RunState) : Prop :=
  devFake w = true \/ dependable (clock w) (directory s).

End Conduct.

(* ===================================================================== *)
(** ** Facts about the string primitives                                  *)
(* ===================================================================== *)

Module StrFacts.
Import Str.

Lemma prefix_empty (s : string) : String.prefix "" s = true.
Proof. by destruct s. Qed.

Lemma prefix_app_r (x a r : string) :
  String.prefix x a = true -> String.prefix x (a ++ r) = true.
Proof.
  revert a. induction x as [|c x IH]; intros a H.
  - apply prefix_empty.
  - destruct a as [|c' a]; simpl in *; [done|].
    destruct (ascii_dec c c'); [by apply IH | done].
Qed.

Lemma includes_app_r (x a r : string) :
  includes a x = true -> includes (a ++ r) x = true.
Proof.
  induction a as [|c a IH]; simpl; intros H.
  - rewrite orb_false_r in H. destruct x; [|done].
    by destruct r.
  - apply orb_true_iff in H as [H|H].
    + apply (prefix_app_r _ (String c a) r) in H. simpl in H. by rewrite H.
    + rewrite (IH H). by rewrite orb_true_r.
Qed.

Lemma includes_tail (c : ascii) (s x : string) :
  includes s x = true -> includes (String c s) x = true.
Proof. intros H. simpl. rewrite H. by rewrite orb_true_r. Qed.

Lemma includes_trimStart (s x : string) :
  includes (trimStart s) x = true -> includes s x = true.
Proof.
  induction s as [|c s IH]; [done|].
  cbn [trimStart]. destruct (isSpace c); [|done].
  intros H. by apply includes_tail, IH.
Qed.

Lemma dropWhileEnd_prefix (p : ascii -> bool) (s : string) :
  exists r, s = dropWhileEnd p s ++ r.
Proof.
  induction s as [|c s [r IH]]; [by exists ""|].
  cbn [dropWhileEnd]. destruct (dropWhileEnd p s) as [|c' t] eqn:E.
  - destruct (p c).
    + by exists (String c s).
    + exists s. reflexivity.
  - exists r. rewrite IH at 1. reflexivity.
Qed.

Lemma includes_trim (s x : string) :
  includes (trim s) x = true -> includes s x = true.
Proof.
  intros H. apply includes_trimStart.
  destruct (dropWhileEnd_prefix isSpace (trimStart s)) as [r Hr].
  rewrite Hr. by apply includes_app_r.
Qed.

Lemma isSpace_toLowerChar (c : ascii) : isSpace (toLowerChar c) = isSpace c.
Proof. by destruct c as [[] [] [] [] [] [] [] []]. Qed.

Lemma map_trimStart (f : ascii -> ascii) (s : string) :
  (forall c, isSpace (f c) = isSpace c) ->
  map f (trimStart s) = trimStart (map f s).
Proof.
  intros Hf. induction s as [|c s IH]; [done|].
  cbn [trimStart map]. rewrite Hf. by destruct (isSpace c).
Qed.

Lemma map_dropWhileEnd (f : ascii -> ascii) (p : ascii -> bool) (s : string) :
  (forall c, p (f c) = p c) ->
  map f (dropWhileEnd p s) = dropWhileEnd p (map f s).
Proof.
  intros Hf. induction s as [|c s IH]; [done|].
  cbn [dropWhileEnd map]. rewrite <- IH, Hf.
  destruct (dropWhileEnd p s); simpl; [by destruct (p c)|done].
Qed.

Lemma toLowerCase_trim (s : string) : toLowerCase (trim s) = trim (toLowerCase s).
Proof.
  unfold toLowerCase, trim, trimEnd.
  rewrite map_dropWhileEnd by apply isSpace_toLowerChar.
  by rewrite map_trimStart by apply isSpace_toLowerChar.
Qed.

Lemma not_includes_lower_trim (s x : string) :
  includes (toLowerCase s) x = false -> includes (toLowerCase (trim s)) x = false.
Proof.
  intros H. rewrite toLowerCase_trim.
  destruct (includes (trim (toLowerCase s)) x) eqn:E; [|done].
  apply includes_trim in E. congruence.
Qed.

Lemma eqb_eq (a b : string) : eqb a b = true <-> a = b.
Proof. unfold eqb. by rewrite bool_decide_eq_true. Qed.

Lemma eqb_neq (a b : string) : eqb a b = false <-> a <> b.
Proof. unfold eqb. by rewrite bool_decide_eq_false. Qed.

Lemma truthy_false (s : string) : truthy s = false <-> s = "".
Proof. by destruct s. Qed.

Lemma truthy_true (s : string) : truthy s = true <-> s <> "".
Proof. by destruct s. Qed.

End StrFacts.

(* ===================================================================== *)
(** ** Pricing: the fee text and the membership type                      *)
(* ===================================================================== *)

Module PricingFacts.
Import Airtable Pricing StrFacts.

Lemma strOr_VStr (s : string) : strOr (Some (VStr s)) = s.
Proof. by destruct s. Qed.

Lemma Main_normaliseType_unrecognised (raw : option FieldVal) :
  Str.includes (Str.toLowerCase (strOr raw)) "full" = false ->
  Str.includes (Str.toLowerCase (strOr raw)) "casual" = false ->
  Str.includes (Str.toLowerCase (strOr raw)) "day" = false ->
  Main.normaliseType raw = Casual.
Proof.
  intros Hf Hc Hd. unfold Main.normaliseType.
  by rewrite !not_includes_lower_trim.
Qed.

Lemma Gen_normaliseType_unrecognised (raw : string) :
  Str.includes (Str.toLowerCase raw) "full" = false ->
  Str.includes (Str.toLowerCase raw) "casual" = false ->
  Str.includes (Str.toLowerCase raw) "day" = false ->
  Gen.normaliseType raw = Casual.
Proof. intros Hf Hc Hd. unfold Gen.normaliseType. by rewrite Hf, Hc, Hd. Qed.

(** The three results of the normalisation. *)
Lemma Gen_normaliseType_range (raw : string) :
  Gen.normaliseType raw = Full \/ Gen.normaliseType raw = Casual
  \/ Gen.normaliseType raw = Day.
Proof.
  unfold Gen.normaliseType.
  repeat match goal with |- context [if ?b then _ else _] => destruct b end; auto.
Qed.

Lemma isFullOrCasual_false (rec : AirRecord) :
  Gen.isFullOrCasual rec = false <-> Gen.memberType rec = Day.
Proof.
  unfold Gen.isFullOrCasual.
  destruct (Gen_normaliseType_range (fieldStr rec "Membership Type")) as [H|[H|H]];
    unfold Gen.memberType; rewrite H; by vm_compute.
Qed.

(** The main server: with a sum that is not positive the fee block ends
    in a ReferenceError, whatever the members are. *)
Lemma Main_pricingTry_zero_sum (matrix : gmap string PricingRow)
    (submitted : list AirRecord) :
  Main.feeSum matrix submitted <= 0 ->
  Main.pricingTry matrix submitted = inl "fullCount is not defined".
Proof.
  intros H. unfold Main.pricingTry.
  destruct (0 <? Main.feeSum matrix submitted) eqn:E; [lia|reflexivity].
Qed.

(** The generation server: with a sum that is not positive the text is
    the waived zero when a Full or Casual member exists, and the
    no-monthly-fee text exactly when every member is a Day member. *)
Lemma Gen_zero_sum_label (team : list AirRecord) (matrix : gmap string PricingRow) :
  fold_left (fun sum r => sum + Gen.rateForMember r matrix) team 0 <= 0 ->
  (Exists (fun r => Gen.memberType r = Full \/ Gen.memberType r = Casual) team ->
     Gen.calculated_monthly_fee team matrix = feeWaived)
  /\ (Gen.calculated_monthly_fee team matrix = feeNoMonthly <->
      Forall (fun r => Gen.memberType r = Day) team).
Proof.
  intros Hsum. unfold Gen.calculated_monthly_fee.
  destruct (0 <? _) eqn:E; [lia|]. clear E Hsum.
  destruct (existsb Gen.isFullOrCasual team) eqn:Ex.
  - split; [done|]. split; [by vm_compute|].
    intros Hall. apply existsb_exists in Ex as (r & Hin & Hr).
    rewrite Forall_forall in Hall. apply list_elem_of_In, Hall in Hin.
    apply isFullOrCasual_false in Hin. congruence.
  - assert (Hall : Forall (fun r => Gen.memberType r = Day) team).
    { apply Forall_forall. intros r Hin. apply isFullOrCasual_false.
      destruct (Gen.isFullOrCasual r) eqn:Hr; [|done].
      assert (existsb Gen.isFullOrCasual team = true); [|congruence].
      apply existsb_exists. exists r. split; [by apply list_elem_of_In|done]. }
    split; [|done].
    intros Hex. apply Exists_exists in Hex as (r & Hin & Hr).
    rewrite Forall_forall in Hall. apply Hall in Hin.
    destruct Hr as [Hr|Hr]; rewrite Hin in Hr; by vm_compute in Hr.
Qed.

(** C7 (the failing input).  One submitted Full member and an empty pricing
    matrix: the sum is zero and a Full member exists, so the fee text
    should be the waived zero.  The generation server says so; the fee
    block of the main server's buildPdfPayload reads the undeclared
    [fullCount], throws, and the payload carries the placeholder text. *)
Example zero_sum_fee_text_main_server :
  Main.feeSum ∅ [Samples.fullMember] = 0
  /\ Main.pricingTry ∅ [Samples.fullMember] = inl "fullCount is not defined"
  /\ Main.calculated_monthly_fee
       (Main.buildPdfPayload Samples.store1 false false "recS")
     = "AUD 0.00 per month (placeholder)"
  /\ Gen.calculated_monthly_fee [Samples.fullMember] ∅ = "AUD 0.00 per month (waived)".
Proof. by vm_compute. Qed.

(** C10 (as amended).  A membership type whose lower-cased text contains
    none of "full", "casual", "day" (the empty and the missing type among
    them) is normalised to "Casual Membership" by all three copies of
    normaliseType.  Such a member is priced from the Casual row of the
    pricing table, in both servers: the base rate of that row when its
    discount is not validated, the rate of its discount column in that row
    when the discount is validated and the column has a rate, and never
    anything but the base or a discount rate of that row.  It is never a
    Day member: the generation server takes it as a Full or Casual member,
    so a sum that is not positive gives the waived zero; the main server
    adds it to exactly one of its three Casual counters and to no other
    counter. *)
Theorem unrecognised_type_is_casual (raw : string) :
  Str.includes (Str.toLowerCase raw) "full" = false ->
  Str.includes (Str.toLowerCase raw) "casual" = false ->
  Str.includes (Str.toLowerCase raw) "day" = false ->
  Main.normaliseType (Some (VStr raw)) = Casual
  /\ Main.normaliseType None = Casual
  /\ Gen.normaliseType raw = Casual
  /\ (forall (rec : AirRecord) (matrix : gmap string PricingRow),
        fieldStr rec "Membership Type" = raw ->
        let row := default Main.defaultRow (matrix !! Casual) in
        let rate := Gen.rateForMember rec matrix in
        (Gen.validationIsValid rec = false -> rate = base row)
        /\ (forall c v,
              Gen.validationIsValid rec = true ->
              Gen.discountColumnFor (fieldStr rec "Discount Category") = Some c ->
              discounts row !! c = Some v -> rate = v)
        /\ (rate = base row \/ exists c, discounts row !! c = Some rate)
        /\ Gen.isFullOrCasual rec = true
        /\ forall team,
             rec ∈ team ->
             fold_left (fun sum r => sum + Gen.rateForMember r matrix) team 0 <= 0 ->
             Gen.calculated_monthly_fee team matrix = feeWaived)
  /\ (forall (rec : AirRecord) (matrix : gmap string PricingRow),
        strOr (get rec "Membership Type") = raw ->
        let row := default Main.defaultRow (matrix !! Casual) in
        (Main.isDiscountValidated rec = false ->
         Main.memberFee matrix rec = Some (base row))
        /\ (forall c v,
              Main.isDiscountValidated rec = true ->
              Main.discountColumnFor (Main.effectiveDiscountCategory rec) = Some c ->
              discounts row !! c = Some v -> Main.memberFee matrix rec = Some v)
        /\ (exists fee,
              Main.memberFee matrix rec = Some fee
              /\ (fee = base row \/ exists c, discounts row !! c = Some fee))
        /\ forall c,
             let c' := Main.countStep c rec in
             Shapes.casualMembers c' = Shapes.casualMembers c + 1
             /\ Main.fullNoDisc c' = Main.fullNoDisc c
             /\ Main.fullDisc c' = Main.fullDisc c
             /\ Main.dayCount c' = Main.dayCount c).
Proof.
  intros Hf Hc Hd.
  assert (HM : forall o, strOr o = raw -> Main.normaliseType o = Casual).
  { intros o <-. by apply Main_normaliseType_unrecognised. }
  assert (HG : Gen.normaliseType raw = Casual)
    by by apply Gen_normaliseType_unrecognised.
  split; [apply HM, strOr_VStr|].
  split; [reflexivity|].
  split; [exact HG|].
  split.
  - intros rec matrix Hty row rate.
    assert (Hm : Gen.memberType rec = Casual) by (unfold Gen.memberType; by rewrite Hty).
    assert (Hrate : rate =
              if Gen.validationIsValid rec
              then match Gen.discountColumnFor (fieldStr rec "Discount Category")
                           ≫= (fun c => discounts row !! c) with
                   | Some d => d
                   | None => base row
                   end
              else base row).
    { unfold rate, Gen.rateForMember. rewrite Hm.
      change (Str.eqb Casual Day) with false. cbv iota. done. }
    assert (Hfc : Gen.isFullOrCasual rec = true).
    { unfold Gen.isFullOrCasual. by rewrite Hm. }
    split; [intros Hv; by rewrite Hrate, Hv|].
    split; [intros c v Hv Hcol Hrow; rewrite Hrate, Hv, Hcol; cbn; by rewrite Hrow|].
    split; [|split; [exact Hfc|]].
    + rewrite Hrate. destruct (Gen.validationIsValid rec); [|by left].
      destruct (Gen.discountColumnFor _) as [c|]; cbn; [|by left].
      destruct (discounts row !! c) as [v|] eqn:E; [|by left]. right. by exists c.
    + intros team Hin Hsum. unfold Gen.calculated_monthly_fee.
      destruct (0 <? _) eqn:E; [lia|].
      assert (existsb Gen.isFullOrCasual team = true) as ->; [|done].
      apply existsb_exists. exists rec. split; [by apply list_elem_of_In|done].
  - intros rec matrix Hty row.
    assert (Hm : Main.normaliseType (get rec "Membership Type") = Casual) by by apply HM.
    split; [|split; [|split]].
    + intros Hv. unfold Main.memberFee. rewrite Hm, Hv.
      by change (Str.eqb Casual Day) with false.
    + intros c v Hv Hcol Hrow. unfold Main.memberFee. rewrite Hm, Hv, Hcol.
      change (Str.eqb Casual Day) with false. cbv iota. fold row.
      cbn [mbind option_bind]. by rewrite Hrow.
    + unfold Main.memberFee. rewrite Hm.
      change (Str.eqb Casual Day) with false. cbv iota. fold row.
      destruct (Main.isDiscountValidated rec); [|eexists; split; [done|by left]].
      destruct (Main.discountColumnFor _) as [c|]; cbn [mbind option_bind].
      2:{ eexists. split; [done|]. by left. }
      destruct (discounts row !! c) as [v|] eqn:E.
      { eexists. split; [done|]. right. by exists c. }
      destruct (_ || _)%bool; [|eexists; split; [done|by left]].
      destruct (discounts row !! colAlumniWithin) as [v|] eqn:E'.
      * eexists. split; [done|]. right. by exists colAlumniWithin.
      * eexists. split; [done|]. by left.
    + intros c c'. unfold c', Main.countStep, Shapes.casualMembers. rewrite Hm.
      change (Str.eqb Casual Full) with false.
      change (Str.eqb Casual Casual) with true. cbv iota.
      repeat match goal with |- context [if ?b then _ else _] => destruct b end;
        cbn [Main.fullNoDisc Main.fullDisc Main.casualNoDisc Main.casualWithin
             Main.casualOver Main.dayCount];
        repeat split; lia.
Qed.

Lemma unrecognised_type_is_casual_witness :
  Main.normaliseType (Some (VStr "Hot desk")) = Casual
  /\ Gen.normaliseType "" = Casual
  /\ Gen.rateForMember Samples.blankTypeMember
       {[ Casual := {| base := 38500; discounts := ∅ |} ]} = 38500.
Proof.
  split; [|split].
  - apply (unrecognised_type_is_casual "Hot desk"); reflexivity.
  - apply (unrecognised_type_is_casual ""); reflexivity.
  - refine (proj1 (proj1 (proj2 (proj2 (proj2
             (unrecognised_type_is_casual "" _ _ _))))
             Samples.blankTypeMember _ _) _); reflexivity.
Defined.

(** C10 (the claim as worded fails).  A member of type "Hot desk", a type
    that is none of the three, whose student discount is validated: the
    member is priced from the Casual row, but at the rate of the student
    column, 192.50, not at the Casual base rate, 385.00; and that is the
    monthly fee both servers put on the agreement. *)
Lemma validated_unrecognised_type_counterexample :
  let rec := Shapes.hotDeskStudent in
  let matrix := Shapes.casualHalved in
  Main.normaliseType (get rec "Membership Type") = Casual
  /\ Gen.memberType rec = Casual
  /\ base (default Main.defaultRow (matrix !! Casual)) = 38500
  /\ Gen.rateForMember rec matrix = 19250
  /\ Main.memberFee matrix rec = Some 19250
  /\ Gen.calculated_monthly_fee [rec] matrix = "AUD 192.50 per month plus GST"
  /\ Main.calculatedMonthlyFee matrix [rec] = "AUD 192.50 per month plus GST".
Proof. by vm_compute. Qed.

End PricingFacts.

(* ===================================================================== *)
(** ** The resolver: name scoring and acceptance                          *)
(* ===================================================================== *)

Module NameFacts.
Import Validator SpecWords StrFacts.

Lemma insertDesc_perm (x : Scored) (l : list Scored) : insertDesc x l ≡ₚ x :: l.
Proof.
  induction l as [|y l IH]; [done|]. simpl.
  destruct (score y <=? score x); [done|].
  rewrite IH. apply Permutation_swap.
Qed.

Lemma sortDesc_perm (l : list Scored) : sortDesc l ≡ₚ l.
Proof.
  induction l as [|x l IH]; [done|]. simpl.
  by rewrite insertDesc_perm, IH.
Qed.

Lemma insertDesc_sorted (x : Scored) (l : list Scored) :
  StronglySorted before l -> StronglySorted before (insertDesc x l).
Proof.
  induction 1 as [|y l Hl IH Hy]; simpl.
  - repeat constructor.
  - destruct (score y <=? score x) eqn:E.
    + constructor; [by constructor|].
      constructor; [unfold before; lia|].
      eapply Forall_impl; [exact Hy|]. unfold before. intros z Hz. lia.
    + constructor; [exact IH|].
      rewrite insertDesc_perm. constructor; [unfold before; lia|exact Hy].
Qed.

Lemma sortDesc_sorted (l : list Scored) : StronglySorted before (sortDesc l).
Proof.
  induction l as [|x l IH]; simpl; [constructor|by apply insertDesc_sorted].
Qed.

(** The head of the sorted list is a top scorer and [secondScore] is the
    best score among the others. *)
Lemma scoreAll_top (pool : list Candidate) (name : string) (top : Scored)
    (rest : list Scored) :
  scoreAll pool name = top :: rest ->
  Forall (fun x => score x <= score top) rest
  /\ Forall (fun x => score x <= secondScore rest) rest
  /\ rec_ <$> (top :: rest) ≡ₚ pool.
Proof.
  intros H. pose proof (sortDesc_sorted
    (List.map (fun c => {| rec_ := c; score := scoreName (cname c) name |}) pool)) as Hs.
  fold (scoreAll pool name) in Hs. rewrite H in Hs.
  apply StronglySorted_inv in Hs as [Hrest Htop].
  split; [exact Htop|]. split.
  - destruct rest as [|x rest']; [constructor|]. simpl.
    apply StronglySorted_inv in Hrest as [_ Hx].
    constructor; [lia|exact Hx].
  - rewrite <- H. unfold scoreAll. rewrite sortDesc_perm.
    clear. induction pool as [|c pool IH]; [done|].
    cbn [List.map]. rewrite fmap_cons. by f_equiv.
Qed.

Lemma scoreAll_score (pool : list Candidate) (name : string) (x : Scored) :
  x ∈ scoreAll pool name -> score x = scoreName (cname (rec_ x)) name.
Proof.
  unfold scoreAll. rewrite sortDesc_perm. intros Hin.
  apply list_elem_of_In, in_map_iff in Hin as (c & <- & _). done.
Qed.

Lemma scoreName_empty_expected (c : string) : scoreName c "" = 0.
Proof.
  unfold scoreName. change (normalizeName "") with "".
  by rewrite orb_true_r.
Qed.

Lemma lastNamesAgree_spec (cs es : NameParts) :
  lastNamesAgree cs es = true <-> last_ cs <> "" /\ last_ cs = last_ es.
Proof.
  unfold lastNamesAgree. rewrite !andb_true_iff, !truthy_true, eqb_eq.
  split; [intros [[? ?] ?]; done|]. intros [? He]. rewrite <- He. done.
Qed.

(** What each score means. *)
Lemma scoreName_cases (c e : string) :
  let cn := normalizeName c in
  let en := normalizeName e in
  let cs := splitName cn in
  let es := splitName en in
  (scoreName c e = 100 <-> cn <> "" /\ cn = en)
  /\ (scoreName c e = 85 <->
      cn <> "" /\ en <> "" /\ cn <> en
      /\ last_ cs <> "" /\ last_ cs = last_ es /\ firstPrefixRelated cs es = true)
  /\ (scoreName c e = 60 <->
      cn <> "" /\ en <> "" /\ cn <> en
      /\ ~ (last_ cs <> "" /\ last_ cs = last_ es /\ firstPrefixRelated cs es = true)
      /\ jaccardAtLeastHalf cn en = true)
  /\ (scoreName c e = 0 \/ scoreName c e = 60 \/ scoreName c e = 85
      \/ scoreName c e = 100).
Proof.
  intros cn en cs es. unfold scoreName. fold cn en. fold cs es.
  pose proof (truthy_true cn) as Hc. pose proof (truthy_true en) as He.
  pose proof (eqb_eq cn en) as Heq.
  pose proof (lastNamesAgree_spec cs es) as Hl.
  destruct (Str.truthy cn), (Str.truthy en); simpl;
    try (repeat split; try (intros; lia); try tauto;
         intros (? & ?); intuition congruence).
  destruct (Str.eqb cn en); [repeat split; try (intros; lia); intuition congruence|].
  assert (cn <> en) by (intros ?; intuition congruence).
  destruct (lastNamesAgree cs es); simpl.
  - destruct (firstPrefixRelated cs es);
      [repeat split; try (intros; lia); intuition congruence|].
    destruct (jaccardAtLeastHalf cn en);
      repeat split; try (intros; lia); intuition congruence.
  - destruct (jaccardAtLeastHalf cn en);
      repeat split; try (intros; lia); intuition congruence.
Qed.

(** A [Scored] entry shares the last name according to its record. *)
Lemma sharesLast_rec (eLast : string) (x y : Scored) :
  rec_ x = rec_ y -> sharesLast eLast x = sharesLast eLast y.
Proof. unfold sharesLast. by intros ->. Qed.

Lemma unique_last_match (eLast : string) (top : Scored) (rest : list Scored) :
  match List.filter (sharesLast eLast) (top :: rest) with
  | [x] => Some (rec_ x)
  | _ => None
  end = Some (rec_ top)
  <-> List.filter (sharesLast eLast) (top :: rest) = [top].
Proof.
  simpl. destruct (sharesLast eLast top) eqn:Et.
  - destruct (List.filter (sharesLast eLast) rest); [done|].
    split; [done|]. intros [=].
  - destruct (List.filter (sharesLast eLast) rest) as [|x [|y l]] eqn:Ef.
    + done.
    + assert (Hx : sharesLast eLast x = true).
      { assert (In x (List.filter (sharesLast eLast) rest)) as Hin
          by (rewrite Ef; by left).
        by apply filter_In in Hin as [_ ?]. }
      split.
      * intros [= Hr]. rewrite (sharesLast_rec eLast x top Hr) in Hx. congruence.
      * intros [= ->]. congruence.
    + split; [done|]. intros [=].
Qed.

(** C6 (as amended).  [scoreName] gives 100 exactly for equal, non-empty
    normalized names; 85 exactly when they differ, both last names are
    present and equal, and one first name is a prefix of the other; 60
    exactly when neither holds and the token Jaccard similarity is at
    least one half; 0 in every other case, in particular whenever a
    normalized name is empty.  The head of the sorted list is a top
    scorer, and the name stage returns it exactly when its score is
    positive and it scores at least 85, or beats the runner-up by at least
    15, or the expected last name is present and it is the only candidate
    sharing it. *)
Theorem name_scoring_and_acceptance :
  (forall c e : string,
     let cn := normalizeName c in
     let en := normalizeName e in
     let cs := splitName cn in
     let es := splitName en in
     (scoreName c e = 100 <-> cn <> "" /\ cn = en)
     /\ (scoreName c e = 85 <->
         cn <> "" /\ en <> "" /\ cn <> en
         /\ last_ cs <> "" /\ last_ cs = last_ es /\ firstPrefixRelated cs es = true)
     /\ (scoreName c e = 60 <->
         cn <> "" /\ en <> "" /\ cn <> en
         /\ ~ (last_ cs <> "" /\ last_ cs = last_ es /\ firstPrefixRelated cs es = true)
         /\ jaccardAtLeastHalf cn en = true)
     /\ (scoreName c e = 0 \/ scoreName c e = 60 \/ scoreName c e = 85
         \/ scoreName c e = 100))
  /\ forall (pool : list Candidate) (name : string) (top : Scored) (rest : list Scored),
       scoreAll pool name = top :: rest ->
       let eLast := last_ (splitName (normalizeName name)) in
       Forall (fun x => score x <= score top) rest
       /\ Forall (fun x => score x <= secondScore rest) rest
       /\ (nameStage pool name = Some (rec_ top) <->
           0 < score top
           /\ (85 <= score top
               \/ 15 <= score top - secondScore rest
               \/ (eLast <> ""
                   /\ List.filter (sharesLast eLast) (top :: rest) = [top]))).
Proof.
  split; [exact scoreName_cases|].
  intros pool name top rest H eLast.
  destruct (scoreAll_top pool name top rest H) as (Htop & Hsec & _).
  split; [exact Htop|]. split; [exact Hsec|].
  unfold nameStage. rewrite H. fold eLast.
  destruct (Str.truthy name) eqn:Hn; cbn [negb].
  - destruct (0 <? score top) eqn:Hpos; [|split; [done|lia]].
    apply Z.ltb_lt in Hpos.
    destruct (85 <=? score top) eqn:H85; cbn [orb].
    { apply Z.leb_le in H85. split; [intros _; split; [done|by left]|done]. }
    apply Z.leb_gt in H85.
    destruct (15 <=? score top - secondScore rest) eqn:H15.
    { apply Z.leb_le in H15. split; [intros _; split; [done|right; by left]|done]. }
    apply Z.leb_gt in H15.
    destruct (Str.truthy eLast) eqn:HeL.
    + rewrite unique_last_match. apply truthy_true in HeL.
      split; [intros ?; split; [done|right; right; done]|].
      intros (_ & [?|[?|[_ ?]]]); [lia|lia|done].
    + apply truthy_false in HeL. split; [done|].
      intros (_ & [?|[?|[? _]]]); [lia|lia|done].
  - apply truthy_false in Hn. subst name.
    assert (score top = 0) as Hz.
    { rewrite (scoreAll_score pool "" top) by (rewrite H; by left).
      apply scoreName_empty_expected. }
    split; [done|lia].
Qed.

Lemma name_scoring_and_acceptance_witness :
  nameStage Samples.johnPool "John Smith"
  = Some {| cid := "2"; cname := "John Smith"; cemail := ""; lookup_id := "L2" |}.
Proof.
  refine (proj2 (proj2 (proj2 (proj2 name_scoring_and_acceptance
            Samples.johnPool "John Smith"
            {| rec_ := {| cid := "2"; cname := "John Smith"; cemail := "";
                          lookup_id := "L2" |}; score := 100 |}
            [{| rec_ := {| cid := "1"; cname := "Jon Smith"; cemail := "";
                           lookup_id := "L1" |}; score := 0 |}]
            _))) _).
  - by vm_compute.
  - cbn [score]. split; [lia|left; lia].
Defined.

(** C6 (the claim as worded fails).  "John" against "Johnny": the last
    names are equal (both absent) and one first name is a prefix of the
    other, so the worded rule gives 85; the code requires the last names
    to be present and gives 0.  And among candidates that all score 0
    against "John Smith", the head of the list is the only one with the
    last name "smith", so the worded rule accepts it; the code accepts a
    candidate only when the top score is positive and returns nothing. *)
Lemma name_acceptance_counterexample :
  scoreName "John" "Johnny" = 0
  /\ scoreName_spec "John" "Johnny" = 85
  /\ exists top rest,
       scoreAll Samples.smithPool "John Smith" = top :: rest
       /\ accept_spec top rest "John Smith"
       /\ nameStage Samples.smithPool "John Smith" = None.
Proof.
  split; [by vm_compute|]. split; [by vm_compute|].
  eexists _, _. split; [by vm_compute|].
  split; [|by vm_compute].
  right; right. by vm_compute.
Qed.

End NameFacts.

(* ===================================================================== *)
(** ** The resolver: alumni commencement and expiry                       *)
(* ===================================================================== *)

Module DateFacts.
Import Validator Shapes StrFacts.

Lemma daysInMonth_bounds (y m : Z) : 28 <= daysInMonth y m <= 31.
Proof.
  unfold daysInMonth.
  repeat match goal with |- context [if ?b then _ else _] => destruct b end; lia.
Qed.

Lemma rollDay_in_range (fuel : nat) (y m d : Z) :
  1 <= d <= daysInMonth y m -> rollDay fuel y m d = (y, m, d).
Proof.
  intros H. destruct fuel; [done|]. simpl.
  destruct (d <? 1) eqn:E1; [lia|].
  destruct (daysInMonth y m <? d) eqn:E2; [lia|done].
Qed.

Lemma makeDay_in_range (y m d : Z) :
  0 <= m <= 11 -> 1 <= d <= daysInMonth y m -> makeDay y m d = (y, m, d).
Proof.
  intros Hm Hd. unfold makeDay.
  rewrite Z.div_small, Z.mod_small, Z.add_0_r by lia.
  by apply rollDay_in_range.
Qed.

(** Twelve months later: the same month and day of the next year, before
    any day overflow. *)
Lemma makeDay_plus_12 (y m d : Z) :
  0 <= m <= 11 -> makeDay y (m + 12) d = makeDay (y + 1) m d.
Proof.
  intros Hm. unfold makeDay.
  replace ((m + 12) / 12) with 1 by (Z.div_mod_to_equations; lia).
  replace ((m + 12) mod 12) with m by (Z.div_mod_to_equations; lia).
  rewrite Z.div_small, Z.mod_small, Z.add_0_r by lia. done.
Qed.

Lemma daysFromCivil_bounds (y m d : Z) :
  0 <= y <= 10000 -> 0 <= m <= 11 -> 1 <= d <= 31 ->
  -800000 <= daysFromCivil y m d <= 4000000.
Proof.
  intros Hy Hm Hd. unfold daysFromCivil.
  destruct (m <=? 1); Z.div_mod_to_equations; lia.
Qed.

Lemma newDateYmd_valid (tz y m d : Z) :
  100 <= y <= 9999 -> 0 <= m <= 11 -> 1 <= d <= daysInMonth y m ->
  -840 <= tz <= 840 ->
  newDateYmd tz y m d = Some {| dY := y; dM := m; dD := d; dMs := 0 |}.
Proof.
  intros Hy Hm Hd Htz. unfold newDateYmd.
  destruct ((0 <=? y) && (y <=? 99))%bool eqn:E.
  { apply andb_true_iff in E as [_ E]. apply Z.leb_le in E. lia. }
  rewrite makeDay_in_range by done.
  pose proof (daysInMonth_bounds y m).
  pose proof (daysFromCivil_bounds y m d ltac:(lia) Hm ltac:(lia)) as Hb.
  unfold getTime, msPerDay. cbn [dY dM dD dMs].
  destruct (Z.abs _ <=? _) eqn:Eg; [done|].
  apply Z.leb_gt in Eg. lia.
Qed.

Lemma alumniCommencement_first (tz : Z) (pre post : list Code) (a : Code) (dt : Date) :
  Forall (fun c => codeDesc c <> "alumni" \/ start c = None) pre ->
  codeDesc a = "alumni" ->
  toDateFromYmd tz (start a) = Some dt ->
  alumniCommencementFromCodes tz (pre ++ a :: post) = Some dt.
Proof.
  intros Hpre Ha Hdt. induction Hpre as [|c pre [Hc|Hc] _ IH]; simpl.
  - rewrite Ha. change (Str.eqb "alumni" "alumni") with true. by rewrite Hdt.
  - apply eqb_neq in Hc. by rewrite Hc.
  - rewrite Hc. simpl. by destruct (Str.eqb _ _).
Qed.

Lemma length_append (a b : string) :
  String.length (a ++ b) = (String.length a + String.length b)%nat.
Proof. induction a; simpl; [done|by f_equal]. Qed.

Lemma substring_prefix (a b : string) :
  String.substring 0 (String.length a) (a ++ b) = a.
Proof.
  induction a as [|c a IH]; simpl; [by destruct b|by f_equal].
Qed.

Lemma length_pad2 (n : Z) : String.length (pad2 n) = 2%nat.
Proof. done. Qed.

Lemma length_isoDate (u : Date) :
  0 <= dY u <= 9999 -> String.length (isoDate u) = 10%nat.
Proof.
  intros H. unfold isoDate, isoYear.
  destruct ((0 <=? dY u) && (dY u <=? 9999))%bool eqn:E; [done|].
  apply andb_false_iff in E as [E|E]; [apply Z.leb_gt in E|apply Z.leb_gt in E]; lia.
Qed.

(** The date part of the ISO string of a local midnight, for a process at
    or west of UTC. *)
Lemma toISOString_midnight (tz y m d : Z) :
  -840 <= tz <= 0 -> 0 <= y <= 9999 -> 0 <= m <= 11 -> 1 <= d <= daysInMonth y m ->
  let dt := {| dY := y; dM := m; dD := d; dMs := 0 |} in
  slice10 (toISOString tz dt) = isoDate dt
  /\ (tz = 0 -> toISOString tz dt = isoDate dt ++ "T00:00:00.000Z").
Proof.
  intros Htz Hy Hm Hd dt.
  assert (Hu : toUTC tz dt = {| dY := y; dM := m; dD := d; dMs := - tz * 60000 |}).
  { unfold toUTC, msPerDay, dt. cbn [dY dM dD dMs].
    rewrite Z.div_small, Z.mod_small, Z.add_0_r by lia.
    rewrite makeDay_in_range by done. f_equal. lia. }
  unfold toISOString. rewrite Hu. split.
  - unfold slice10.
    rewrite <- (length_isoDate {| dY := y; dM := m; dD := d; dMs := - tz * 60000 |})
      by (cbn [dY]; lia).
    apply substring_prefix.
  - intros ->. reflexivity.
Qed.

Lemma makeDay_zero (y m : Z) :
  0 <= m <= 11 -> makeDay y m 0 = dayBefore (y, m, 1).
Proof.
  intros Hm. unfold makeDay, dayBefore.
  rewrite Z.div_small, Z.mod_small, Z.add_0_r by lia.
  change (Z.to_nat (Z.abs 0)) with 0%nat. cbn [rollDay].
  change (0 <? 1) with true. change (1 <? 1) with false. cbv iota.
  unfold prevMonth. destruct (m =? 0) eqn:E; [reflexivity|].
  by rewrite Z.add_0_l.
Qed.

Lemma rollDay_S (f : nat) (y m d : Z) :
  rollDay (S f) y m d
  = if d <? 1 then
      let '(y', m') := prevMonth y m in rollDay f y' m' (d + daysInMonth y' m')
    else if daysInMonth y m <? d then
      let '(y', m') := nextMonth y m in rollDay f y' m' (d - daysInMonth y m)
    else (y, m, d).
Proof. reflexivity. Qed.

Lemma toUTC_midnight (tz y m d : Z) :
  -840 <= tz <= 840 -> 0 <= m <= 11 -> 1 <= d <= daysInMonth y m ->
  toUTC tz {| dY := y; dM := m; dD := d; dMs := 0 |} = utcOfMidnight tz (y, m, d).
Proof.
  intros Htz Hm Hd. unfold toUTC, utcOfMidnight, msPerDay. cbn [dY dM dD dMs].
  replace (0 - tz * 60000) with (- tz * 60000) by lia.
  destruct (tz <=? 0) eqn:E.
  - apply Z.leb_le in E.
    rewrite Z.div_small, Z.add_0_r by lia. by rewrite makeDay_in_range by done.
  - apply Z.leb_gt in E.
    replace (- tz * 60000 / 86400000) with (-1) by (Z.div_mod_to_equations; lia).
    unfold dayBefore. destruct (1 <? d) eqn:E1.
    + apply Z.ltb_lt in E1. rewrite makeDay_in_range by lia.
      by replace (d + -1) with (d - 1) by lia.
    + apply Z.ltb_ge in E1. assert (d = 1) as -> by lia.
      change (1 + -1) with 0. rewrite makeDay_zero by done. unfold dayBefore.
      change (1 <? 1) with false. cbv iota. by destruct (m =? 0).
Qed.

Lemma leap_next (y : Z) : isLeap y = true -> isLeap (y + 1) = false.
Proof.
  unfold isLeap. intros [H4 _]%andb_true_iff. apply Z.eqb_eq in H4.
  apply andb_false_iff. left. apply Z.eqb_neq. Z.div_mod_to_equations; lia.
Qed.

(** Twelve months after a day of the calendar. *)
Lemma addMonths_year (yy mm dd : Z) :
  1 <= mm <= 12 -> 1 <= dd <= daysInMonth yy (mm - 1) ->
  let '(y, m, d) := yearLater yy mm dd in
  addMonths {| dY := yy; dM := mm - 1; dD := dd; dMs := 0 |} 12
  = {| dY := y; dM := m; dD := d; dMs := 0 |}
  /\ 0 <= m <= 11 /\ 1 <= d <= daysInMonth y m.
Proof.
  intros Hm Hd. unfold yearLater, addMonths, setMonth. cbn [dY dM dD dMs].
  rewrite makeDay_plus_12 by lia.
  destruct ((mm =? 2) && (dd =? 29))%bool eqn:E.
  - apply andb_true_iff in E as [->%Z.eqb_eq ->%Z.eqb_eq].
    change (2 - 1) with 1 in *.
    assert (Hl : isLeap yy = true).
    { unfold daysInMonth in Hd. change (1 =? 1) with true in Hd. cbv iota in Hd.
      destruct (isLeap yy); [done|lia]. }
    apply leap_next in Hl.
    split; [|split; [lia|]].
    2:{ unfold daysInMonth. change (2 =? 1) with false. cbv iota.
        change ((2 =? 3) || (2 =? 5) || (2 =? 8) || (2 =? 10))%bool with false.
        cbv iota. lia. }
    assert (H28 : daysInMonth (yy + 1) 1 = 28).
    { unfold daysInMonth. change (1 =? 1) with true. cbv iota. by rewrite Hl. }
    unfold makeDay. change (1 / 12) with 0. change (1 mod 12) with 1.
    rewrite Z.add_0_r. change (Z.to_nat (Z.abs 29)) with 29%nat.
    rewrite rollDay_S. change (29 <? 1) with false. cbv iota.
    rewrite H28. change (28 <? 29) with true. cbv iota.
    unfold nextMonth. change (1 =? 11) with false. cbv iota.
    change (29 - 28) with 1. change (1 + 1) with 2.
    rewrite rollDay_in_range; [done|]. unfold daysInMonth. change (2 =? 1) with false.
    cbv iota. change ((2 =? 3) || (2 =? 5) || (2 =? 8) || (2 =? 10))%bool with false.
    cbv iota. lia.
  - assert (Hd' : dd <= daysInMonth (yy + 1) (mm - 1)).
    { apply andb_false_iff in E. unfold daysInMonth in *.
      destruct (mm - 1 =? 1) eqn:E1.
      - apply Z.eqb_eq in E1. assert (mm = 2) by lia. subst mm.
        destruct E as [E|E]; [done|]. apply Z.eqb_neq in E.
        destruct (isLeap yy), (isLeap (yy + 1)); lia.
      - exact (proj2 Hd). }
    rewrite makeDay_in_range by lia. split; [done|]. split; lia.
Qed.

Lemma slice10_isoString (u : Date) :
  0 <= dY u <= 9999 -> slice10 (isoString u) = isoDate u.
Proof.
  intros H. unfold slice10, isoString.
  rewrite <- (length_isoDate u) by done. apply substring_prefix.
Qed.

Lemma dayBefore_year (y m d : Z) :
  fst (fst (dayBefore (y, m, d))) = y \/ fst (fst (dayBefore (y, m, d))) = y - 1.
Proof.
  unfold dayBefore. destruct (1 <? d); [by left|]. destruct (m =? 0); [by right|by left].
Qed.

Lemma utcOfMidnight_year (tz y m d : Z) :
  dY (utcOfMidnight tz (y, m, d)) = y \/ dY (utcOfMidnight tz (y, m, d)) = y - 1.
Proof.
  unfold utcOfMidnight. destruct (tz <=? 0); [by left|].
  pose proof (dayBefore_year y m d) as H.
  destruct (dayBefore (y, m, d)) as [[y' m'] d']. exact H.
Qed.




(** A commencement on 29 February: twelve months later is 1 March. *)
Example expiry_of_leap_day :
  let leap := {| description := "Alumni"; inactive := false; date_modified := None;
                 date_added := None;
                 start := Some {| ymd_y := 2024; ymd_m := 2; ymd_d := 29 |} |} in
  let dir := {| credsPresent := true;
                search := fun _ => Samples.ok [Samples.graduate];
                constituentCodes := fun _ => Samples.ok [leap];
                constituentById := fun _ => Samples.ok None |} in
  exists res,
    fst (evaluateSingle dir {| tz := 0; now := 1735689600000 |} AlumniWithin
           Samples.graduate) = inr (OSingle res)
    /\ alumni_commencement res = Some "2024-02-29T00:00:00.000Z"
    /\ alumni_expires_at res = Some "2025-03-01T00:00:00.000Z".
Proof. intros leap dir. eexists. split; [by vm_compute|]. split; by vm_compute. Qed.

End DateFacts.

(* ===================================================================== *)
(** ** The resolver: the pool of an unresolved search                     *)
(* ===================================================================== *)

Module PoolFacts.
Import Validator StrFacts.

Lemma bind_inr {A B} (x : Dir A) (f : A -> Dir B) (a : A) (l : list DirCall) :
  x = (inr a, l) -> bind x f = (fst (f a), (l ++ snd (f a))%list).
Proof. intros ->. unfold bind. by destruct (f a). Qed.

Lemma map_fmap {A B} (f : A -> B) (l : list A) : List.map f l = f <$> l.
Proof. induction l as [|a l IH]; [done|]. cbn [List.map]. by rewrite IH, fmap_cons. Qed.

Lemma getConstituentCodes_ok (dir : Directory) (id : string) :
  credsPresent dir = true ->
  getConstituentCodes dir id = (constituentCodes dir id, [CallCodes id]).
Proof. intros H. unfold getConstituentCodes, call. by rewrite H. Qed.

Lemma evaluatedOf_cons (dir : Directory) (clk : Clock) (c : Candidate)
    (pool : list Candidate) :
  evaluatedOf dir clk (c :: pool)
  = match fetchedBuckets dir clk c with
    | Some b => (c, b) :: evaluatedOf dir clk pool
    | None => evaluatedOf dir clk pool
    end.
Proof. unfold evaluatedOf. cbn. by destruct (fetchedBuckets dir clk c). Qed.

Lemma evaluatePool_ok (dir : Directory) (clk : Clock) (pool : list Candidate) :
  credsPresent dir = true ->
  Forall (fun c => exists cr, constituentCodes dir (cid c) = inr cr) pool ->
  evaluatePool dir clk pool
  = (inr (evaluatedOf dir clk pool), CallCodes <$> (cid <$> pool)).
Proof.
  intros Hcreds Hall. induction Hall as [|c pool [cr Hc] _ IH]; [done|].
  cbn [evaluatePool]. rewrite getConstituentCodes_ok by done.
  rewrite (bind_inr _ _ cr [CallCodes (cid c)]) by by rewrite Hc.
  rewrite (bind_inr _ _ _ _ IH). cbn [ret fst snd].
  rewrite evaluatedOf_cons. unfold fetchedBuckets at 1. rewrite Hc.
  rewrite !fmap_cons, app_nil_r. by destruct (status cr =? 200).
Qed.

Lemma evaluatedOf_fst (dir : Directory) (clk : Clock) (pool : list Candidate) :
  Forall (fun c => fetchedBuckets dir clk c <> None) pool ->
  fst <$> evaluatedOf dir clk pool = pool.
Proof.
  induction 1 as [|c pool Hc _ IH]; [done|].
  rewrite evaluatedOf_cons.
  destruct (fetchedBuckets dir clk c); [|done]. rewrite fmap_cons. by rewrite IH.
Qed.

Lemma evaluatedOf_elem (dir : Directory) (clk : Clock) (pool : list Candidate)
    (x : Candidate * list string) :
  x ∈ evaluatedOf dir clk pool -> fetchedBuckets dir clk (fst x) = Some (snd x).
Proof.
  unfold evaluatedOf. rewrite list_elem_of_omap. intros (c & _ & Hc).
  destruct (fetchedBuckets dir clk c) eqn:E; [|done].
  cbn in Hc. by injection Hc as <-.
Qed.

(** The matches the code filters out of the evaluated list are the pool
    candidates that hold the bucket, in pool order. *)
Lemma expectedMatches_fst (dir : Directory) (clk : Clock) (e : string)
    (pool : list Candidate) :
  fst <$> List.filter (fun x => includesStr (snd x) e) (evaluatedOf dir clk pool)
  = List.filter (holdsBucket dir clk e) pool.
Proof.
  induction pool as [|c pool IH]; [done|].
  rewrite evaluatedOf_cons. cbn [List.filter]. unfold holdsBucket at 1.
  destruct (fetchedBuckets dir clk c) as [b|].
  - cbn [List.filter snd]. destruct (includesStr b e); [|exact IH].
    rewrite fmap_cons. cbn [fst]. by rewrite IH.
  - exact IH.
Qed.

Lemma evaluateSingle_holds (dir : Directory) (clk : Clock) (e : string)
    (c : Candidate) (b : list string) :
  credsPresent dir = true -> e <> "" ->
  fetchedBuckets dir clk c = Some b -> includesStr b e = true ->
  exists res,
    evaluateSingle dir clk e c = (inr (OSingle res), [CallCodes (cid c)])
    /\ valid res = true /\ derived_buckets res = b /\ candidate res = infoOf c.
Proof.
  intros Hcreds He Hb Hin. unfold fetchedBuckets in Hb.
  destruct (constituentCodes dir (cid c)) as [|cr] eqn:Hc; [done|].
  destruct (status cr =? 200) eqn:Hs; [|done]. injection Hb as <-.
  unfold evaluateSingle. rewrite getConstituentCodes_ok by done.
  rewrite (bind_inr _ _ cr [CallCodes (cid c)]) by by rewrite Hc.
  rewrite Hs. cbn [negb ret fst snd]. eexists. split; [reflexivity|].
  cbn [valid derived_buckets candidate]. apply truthy_true in He.
  by rewrite He, Hin.
Qed.




(** A pool candidate whose codes call returns 500 is not reported. *)
Example unfetched_candidate_not_reported :
  fst (validateDiscount Samples.flakyDirectory {| tz := 0; now := 1735689600000 |}
         Samples.studentQuery)
  = inr (OInvalid "expected bucket not present on any candidate"
           [(infoOf Samples.ben, [])]).
Proof. by vm_compute. Qed.

End PoolFacts.

(* ===================================================================== *)
(** ** The run: what it emits and what it writes                          *)
(* ===================================================================== *)

Module RunFacts.
Import Airtable Validator Orchestrator StrFacts.

Lemma bindR_eq {A B} (x : R A) (f : A -> R B) (s : RunState) :
  bindR x f s =
  match x s with
  | (inl e, s', t) => (inl e, s', t)
  | (inr a, s', t) =>
      (fst (fst (f a s')), snd (fst (f a s')), (t ++ snd (f a s'))%list)
  end.
Proof. unfold bindR. destruct (x s) as [[[e|a] s'] t]; [done|]. by destruct (f a s') as [[? ?] ?]. Qed.

Lemma tryCatch_eq {A} (c : R A) (h : string -> R A) (s : RunState) :
  tryCatch c h s =
  match c s with
  | (inl e, s', t) =>
      (fst (fst (h e s')), snd (fst (h e s')), (t ++ snd (h e s'))%list)
  | (inr a, s', t) => (inr a, s', t)
  end.
Proof. unfold tryCatch. destruct (c s) as [[[e|a] s'] t]; [|done]. by destruct (h e s') as [[? ?] ?]. Qed.

Section Emits.
Context (P : Event -> Prop).

Lemma emits_ret {A} (a : A) : Emits P (retR a).
Proof. intros s. constructor. Qed.

Lemma emits_throw {A} (msg : string) : Emits P (@throwR A msg).
Proof. intros s. constructor. Qed.

Lemma emits_bind {A B} (x : R A) (f : A -> R B) :
  Emits P x -> (forall a, Emits P (f a)) -> Emits P (bindR x f).
Proof.
  intros Hx Hf s. rewrite bindR_eq. specialize (Hx s).
  destruct (x s) as [[[e|a] s'] t]; [done|]. cbn [snd] in *.
  apply Forall_app. split; [done|apply Hf].
Qed.

Lemma emits_tryCatch {A} (c : R A) (h : string -> R A) :
  Emits P c -> (forall e, Emits P (h e)) -> Emits P (tryCatch c h).
Proof.
  intros Hc Hh s. rewrite tryCatch_eq. specialize (Hc s).
  destruct (c s) as [[[e|a] s'] t]; [|done]. cbn [snd] in *.
  apply Forall_app. split; [done|apply Hh].
Qed.

Lemma emits_emit (e : Event) : P e -> Emits P (emit e).
Proof. intros H s. by repeat constructor. Qed.

Lemma emits_getState : Emits P getState.
Proof. intros s. constructor. Qed.

Lemma emits_modifyJob (f : Job -> Job) : Emits P (modifyJob f).
Proof. intros s. constructor. Qed.

Lemma emits_modifyStore (f : Store -> Store) : Emits P (modifyStore f).
Proof. intros s. constructor. Qed.

Lemma emits_setDirectory (d : Directory) : Emits P (setDirectory d).
Proof. intros s. constructor. Qed.

Lemma emits_liftDir {A} (f : Directory -> Dir A) :
  (forall c, P (EvDir c)) -> Emits P (liftDir f).
Proof.
  intros H s. unfold liftDir. destruct (f (directory s)) as [x calls]. cbn [snd].
  induction calls; constructor; auto.
Qed.
End Emits.

(** Decompose a computation along its binds and branches. *)
Ltac emits_step :=
  lazymatch goal with
  | |- Emits _ (retR _) => apply emits_ret
  | |- Emits _ (throwR _) => apply emits_throw
  | |- Emits _ getState => apply emits_getState
  | |- Emits _ (modifyJob _) => apply emits_modifyJob
  | |- Emits _ (modifyStore _) => apply emits_modifyStore
  | |- Emits _ (setDirectory _) => apply emits_setDirectory
  | |- Emits _ (bindR _ _) => apply emits_bind; [|intros ?]
  | |- Emits _ (tryCatch _ _) => apply emits_tryCatch; [|intros ?]
  | |- Emits _ (liftDir _) => apply emits_liftDir; intros ?
  | |- Emits _ (emit _) => apply emits_emit
  | |- Emits _ (if ?b then _ else _) => destruct b
  | |- Emits _ (match ?x with _ => _ end) => destruct x
  end.

Ltac emits := repeat emits_step.

Lemma replay_app (t t' : list Event) (st : Store) :
  replay (t ++ t') st = replay t' (replay t st).
Proof. apply fold_left_app. Qed.

Section Replays.
Lemma replays_ret {A} (a : A) : Replays (retR a).
Proof. by intros s. Qed.

Lemma replays_throw {A} (msg : string) : Replays (@throwR A msg).
Proof. by intros s. Qed.

Lemma replays_bind {A B} (x : R A) (f : A -> R B) :
  Replays x -> (forall a, Replays (f a)) -> Replays (bindR x f).
Proof.
  intros Hx Hf s. rewrite bindR_eq. specialize (Hx s).
  destruct (x s) as [[[e|a] s'] t]; [done|]. cbn [fst snd] in *.
  by rewrite replay_app, <- Hx, <- Hf.
Qed.

Lemma replays_tryCatch {A} (c : R A) (h : string -> R A) :
  Replays c -> (forall e, Replays (h e)) -> Replays (tryCatch c h).
Proof.
  intros Hc Hh s. rewrite tryCatch_eq. specialize (Hc s).
  destruct (c s) as [[[e|a] s'] t]; [|done]. cbn [fst snd] in *.
  by rewrite replay_app, <- Hc, <- Hh.
Qed.

Lemma replays_emit (e : Event) :
  (forall st, replayEvent st e = st) -> Replays (emit e).
Proof. intros H s. cbn. by rewrite H. Qed.

Lemma replays_getState : Replays getState.
Proof. by intros s. Qed.

Lemma replays_modifyJob (f : Job -> Job) : Replays (modifyJob f).
Proof. by intros s. Qed.

Lemma replays_setDirectory (d : Directory) : Replays (setDirectory d).
Proof. by intros s. Qed.

Lemma replays_liftDir {A} (f : Directory -> Dir A) : Replays (liftDir f).
Proof.
  intros s. unfold liftDir. destruct (f (directory s)) as [x calls]. cbn [fst snd].
  generalize (store s). induction calls as [|c calls IH]; [done|]. intros st. apply IH.
Qed.

Lemma replays_writeMember (id : string) (written : gmap string FieldVal) :
  Replays (writeMember id written).
Proof. by intros s. Qed.

Lemma replays_writeAgreement (id : string) (atts : list Attachment) :
  Replays (writeAgreement id atts).
Proof. by intros s. Qed.

Lemma replays_writeCreatedDate (id date : string) : Replays (writeCreatedDate id date).
Proof. by intros s. Qed.
End Replays.

Ltac replays_step :=
  lazymatch goal with
  | |- Replays (retR _) => apply replays_ret
  | |- Replays (throwR _) => apply replays_throw
  | |- Replays getState => apply replays_getState
  | |- Replays (modifyJob _) => apply replays_modifyJob
  | |- Replays (setDirectory _) => apply replays_setDirectory
  | |- Replays (writeMember _ _) => apply replays_writeMember
  | |- Replays (writeAgreement _ _) => apply replays_writeAgreement
  | |- Replays (writeCreatedDate _ _) => apply replays_writeCreatedDate
  | |- Replays (liftDir _) => apply replays_liftDir
  | |- Replays (emit _) => apply replays_emit; intros ?; reflexivity
  | |- Replays (bindR _ _) => apply replays_bind; [|intros ?]
  | |- Replays (tryCatch _ _) => apply replays_tryCatch; [|intros ?]
  | |- Replays (if ?b then _ else _) => destruct b
  | |- Replays (match ?x with _ => _ end) => destruct x
  | |- _ => solve [auto]
  end.

Ltac replays := repeat replays_step.

Lemma replays_notify (id : string) (p : Partial) : Replays (notify id p).
Proof. unfold notify. replays. Qed.

Lemma replays_memberStep (w : World) (r : AirRecord) : Replays (memberStep w r).
Proof.
  unfold memberStep, validateWithRefresh, updateMemberValidation, log.
  pose proof replays_notify. replays.
Qed.

Lemma replays_loop (w : World) (members : list AirRecord) :
  Replays (runMemberValidationsSequential w members).
Proof.
  induction members as [|r rest IH]; cbn [runMemberValidationsSequential].
  - apply replays_ret.
  - apply replays_bind; [apply replays_memberStep|]. intros x.
    apply replays_bind; [exact IH|]. intros xs. apply replays_ret.
Qed.

Lemma replays_runBody (w : World) (id : string) : Replays (runBody w id).
Proof.
  unfold runBody, fetchStartupAndMembers, attachAgreement, log.
  pose proof (replays_loop w). replays.
Qed.

Lemma replays_runJob (w : World) (id : string) : Replays (runJob w id).
Proof.
  unfold runJob, log. pose proof (replays_runBody w id). replays.
Qed.

End RunFacts.

(* ===================================================================== *)
(** ** The orchestrator: skipping, gates, failures, progress, triggers    *)
(* ===================================================================== *)

Module OrchestratorFacts.
Import Airtable Validator Orchestrator StrFacts RunFacts.

Lemma statusUpdates_app (t t' : list Event) :
  statusUpdates (t ++ t') = (statusUpdates t ++ statusUpdates t')%list.
Proof. apply omap_app. Qed.

Lemma statusUpdates_none (t : list Event) : Forall notUpdate t -> statusUpdates t = [].
Proof.
  induction 1 as [|e t He _ IH]; [done|].
  unfold statusUpdates in *. cbn. rewrite IH. by destruct e.
Qed.

Lemma statusUpdates_update (id : string) (p : Partial) (t : list Event) :
  statusUpdates (EvUpdate id p :: t) = p_status p :: statusUpdates t.
Proof. done. Qed.

Lemma emits_validateWithRefresh (w : World) (q : Query) :
  Emits notUpdate (validateWithRefresh w q).
Proof. unfold validateWithRefresh. emits; done. Qed.

Lemma emits_updateMemberValidation (w : World) (id : string) (o : Outcome) (e : string) :
  Emits notUpdate (updateMemberValidation w id o e).
Proof. unfold updateMemberValidation, writeMember. emits; done. Qed.

Lemma statusOf_not_skipped (o : Outcome) : Str.toLowerCase (statusOf o) <> "skipped".
Proof. destruct o as [| |res| |]; cbn [statusOf]; [| |destruct (valid res)| |]; by vm_compute. Qed.

(** [hasDiscountRequest] is false exactly for the empty category and for
    the sentinel, up to case and surrounding blanks. *)
Lemma hasDiscountRequest_false (e : string) :
  hasDiscountRequest e = false <->
  Str.toLowerCase (Str.trim e) = "" \/ Str.toLowerCase (Str.trim e) = "none of the above".
Proof.
  unfold hasDiscountRequest.
  destruct (Str.truthy e) eqn:He; cbn [negb].
  - destruct (Str.truthy (Str.toLowerCase (Str.trim e))) eqn:Hs; cbn [negb].
    + apply truthy_true in Hs. rewrite negb_false_iff, eqb_eq. tauto.
    + apply truthy_false in Hs. tauto.
  - apply truthy_false in He. subst e. split; [by left|done].
Qed.

(** The statuses the loop body passes to [onUpdate] when it validates. *)
Lemma memberStep_checked_updates (w : World) (r : AirRecord) (s : RunState) :
  Str.truthy (Str.trim (manualOf r)) = false ->
  hasDiscountRequest (expectedOf r) = true ->
  Str.truthy (searchIdOf r) = true ->
  statusUpdates (snd (memberStep w r s)) = ["pending"]
  \/ exists res,
       statusUpdates (snd (memberStep w r s)) = ["pending"; Str.toLowerCase (statusOf res)].
Proof.
  intros Hm Hr Hs. unfold memberStep. rewrite Hm, Hr, Hs. cbn [negb].
  rewrite bindR_eq. cbn [notify emit modifyJob bindR fst snd app].
  set (s0 := {| job := _; store := _; directory := _ |}).
  rewrite bindR_eq.
  match goal with |- context [match ?c s0 with _ => _ end] => set (V := c) end.
  assert (HV : Emits notUpdate V).
  { unfold V, log. pose proof emits_validateWithRefresh. emits; done || auto. }
  specialize (HV s0). destruct (V s0) as [[[e|res] s1] t1]; cbn [snd] in *.
  { left. by rewrite statusUpdates_update, (statusUpdates_none t1). }
  rewrite bindR_eq.
  pose proof (emits_updateMemberValidation w (rec_id r) res (expectedOf r) s1) as HU.
  destruct (updateMemberValidation w (rec_id r) res (expectedOf r) s1)
    as [[[e|upd] s2] t2]; cbn [fst snd] in *.
  { left. rewrite statusUpdates_update, !statusUpdates_app.
    by rewrite (statusUpdates_none t1), (statusUpdates_none t2). }
  right. exists res.
  rewrite statusUpdates_update, !statusUpdates_app.
  by rewrite (statusUpdates_none t1), (statusUpdates_none t2).
Qed.

(* ------------------------------------------------------------------- *)
(** *** The gates *)

Lemma execute_eq (w : World) (id : string) (st : Store) (dir : Directory) (j : Job) :
  execute w id st dir j
  = (snd (fst (runJob w id {| job := j; store := st; directory := dir |})),
     snd (runJob w id {| job := j; store := st; directory := dir |})).
Proof. unfold execute. by destruct (runJob _ _ _) as [[? ?] ?]. Qed.

Lemma fetch_ok (w : World) (id : string) (s : RunState) (f : gmap string FieldVal) :
  fetchStartupFails w = None -> fetchMembersFails w = None ->
  startups (store s) !! id = Some f ->
  fetchStartupAndMembers w id s
  = (inr ({| rec_id := id; fields := f |},
          strOr (f !! "Startup Name (or working title)"),
          listTeamMembersByStartupId (store s) id), s, []).
Proof.
  intros H1 H2 H3. unfold fetchStartupAndMembers.
  rewrite bindR_eq. cbn [getState fst snd app]. by rewrite H1, H3, H2.
Qed.

Ltac not_gates := unfold notGates, gatesEvent; congruence.

Lemma emits_notGates_memberStep (w : World) (r : AirRecord) :
  Emits notGates (memberStep w r).
Proof.
  unfold memberStep, validateWithRefresh, updateMemberValidation, writeMember, notify, log.
  emits; not_gates.
Qed.

Lemma emits_loop (P : Event -> Prop) (w : World) (members : list AirRecord) :
  (forall r, Emits P (memberStep w r)) ->
  Emits P (runMemberValidationsSequential w members).
Proof.
  intros H. induction members as [|r rest IH]; cbn [runMemberValidationsSequential].
  - apply emits_ret.
  - apply emits_bind; [apply H|]. intros x.
    apply emits_bind; [exact IH|]. intros xs. apply emits_ret.
Qed.

Lemma emits_notGates_attach (w : World) (rec : AirRecord) (filename : string) :
  Emits notGates (attachAgreement w rec filename).
Proof.
  unfold attachAgreement, writeAgreement, writeCreatedDate, log. emits; not_gates.
Qed.

(** The run after a successful fetch: the start and gates events, then
    either the blocked ending or the rest of the run. *)
Lemma runBody_blocked (w : World) (id : string) (s : RunState)
    (f : gmap string FieldVal) :
  fetchStartupFails w = None -> fetchMembersFails w = None ->
  startups (store s) !! id = Some f ->
  let members := listTeamMembersByStartupId (store s) id in
  let g := gatesOf {| rec_id := id; fields := f |} members in
  gatesOpen g = false ->
  runBody w id s
  = (inr tt,
     {| job := finish (withChecklist
                         (withProgress (job s) (progress_validated (job s))
                            (Z.of_nat (length members)))
                         (List.map seedEntry members))
                 Blocked
                 (ResBlocked (startupFormSubmitted g) (submissionConfirmation g)
                    (anyRepSubmitted g))
                 (finishedIso w);
        store := store s; directory := directory s |},
     [EvLog "info" "orchestrator.start"; gatesEvent;
      EvLog "warn" "orchestrator.blocked"]).
Proof.
  intros H1 H2 H3 members g Hg. unfold runBody.
  rewrite bindR_eq, (fetch_ok w id s f H1 H2 H3).
  fold members. fold g. rewrite Hg. reflexivity.
Qed.

Lemma runBody_gates_once (w : World) (id : string) (s : RunState)
    (f : gmap string FieldVal) :
  fetchStartupFails w = None -> fetchMembersFails w = None ->
  startups (store s) !! id = Some f ->
  exists post,
    snd (runBody w id s) = EvLog "info" "orchestrator.start" :: gatesEvent :: post
    /\ Forall notGates post.
Proof.
  intros H1 H2 H3. unfold runBody.
  rewrite bindR_eq, (fetch_ok w id s f H1 H2 H3).
  set (members := listTeamMembersByStartupId (store s) id).
  set (g := gatesOf _ members).
  cbn [fst snd app].
  do 4 (rewrite bindR_eq; cbn [log emit modifyJob fst snd app]).
  eexists. split; [reflexivity|].
  match goal with |- Forall _ (snd (?k ?s')) => enough (Emits notGates k) as Hk by apply Hk end.
  pose proof (emits_loop notGates w members (emits_notGates_memberStep w)).
  pose proof (emits_notGates_attach w).
  unfold log. emits; try not_gates; auto.
Qed.

(** C2.  After a successful fetch of the organisation and its members:
    when the gates are not all satisfied the run ends in state "blocked"
    with the three gate values as its result, its whole trace is the
    start event, the gate evaluation and the blocked event, so no
    Directory call is made and the store and the Directory are untouched;
    and in every run the gate evaluation occurs once, as the second event,
    with every event of the per-member work after it. *)
Theorem gates_block_without_directory
    (w : World) (id : string) (st : Store) (dir : Directory) (j : Job)
    (f : gmap string FieldVal) :
  fetchStartupFails w = None -> fetchMembersFails w = None ->
  startups st !! id = Some f ->
  let members := listTeamMembersByStartupId st id in
  let g := gatesOf {| rec_id := id; fields := f |} members in
  let s' := fst (execute w id st dir j) in
  let t := snd (execute w id st dir j) in
  (gatesOpen g = false ->
     state (job s') = Blocked
     /\ result (job s') = ResBlocked (startupFormSubmitted g) (submissionConfirmation g)
                             (anyRepSubmitted g)
     /\ t = [EvLog "info" "orchestrator.start"; gatesEvent;
             EvLog "warn" "orchestrator.blocked"]
     /\ directoryCalls t = []
     /\ store s' = st /\ directory s' = dir)
  /\ exists post,
       t = EvLog "info" "orchestrator.start" :: gatesEvent :: post
       /\ Forall notGates post
       /\ Forall (fun e => memberWork e = false)
            [EvLog "info" "orchestrator.start"].
Proof.
  intros H1 H2 H3 members g s' t.
  set (s := {| job := j; store := st; directory := dir |}).
  assert (Hex : execute w id st dir j = (snd (fst (runJob w id s)), snd (runJob w id s)))
    by apply execute_eq.
  unfold s', t. rewrite Hex. cbn [fst snd]. clear s' t Hex.
  split.
  - intros Hg. unfold runJob. rewrite tryCatch_eq.
    rewrite (runBody_blocked w id s f H1 H2 H3 Hg). cbn [fst snd job store directory].
    done.
  - destruct (runBody_gates_once w id s f H1 H2 H3) as (post & Hpost & Hng).
    unfold runJob. rewrite tryCatch_eq.
    destruct (runBody w id s) as [[[e|[]] s1] t1]; cbn [snd] in Hpost; subst t1.
    + cbn [fst snd log emit modifyJob bindR app].
      eexists. split; [reflexivity|]. split; [|by repeat constructor].
      apply Forall_app. split; [done|]. repeat constructor. not_gates.
    + cbn [snd]. eexists. split; [reflexivity|]. split; [done|by repeat constructor].
Qed.

Lemma gates_block_without_directory_witness :
  state (job (fst (execute Samples.calmWorld "recS" Samples.store3
                     Samples.emptyDirectory (newJob "2025-01-01T00:00:00.000Z"))))
  = Blocked.
Proof.
  assert (Hf : startups Samples.store3 !! "recS" = Some Samples.unconfirmed)
    by reflexivity.
  pose proof (gates_block_without_directory Samples.calmWorld "recS"
                Samples.store3 Samples.emptyDirectory
                (newJob "2025-01-01T00:00:00.000Z") Samples.unconfirmed
                eq_refl eq_refl Hf) as H.
  cbv zeta in H. destruct H as [H _].
  assert (Hg : gatesOpen (gatesOf {| rec_id := "recS"; fields := Samples.unconfirmed |}
                            (listTeamMembersByStartupId Samples.store3 "recS")) = false)
    by (vm_compute; reflexivity).
  destruct (H Hg) as [Hs _]. exact Hs.
Defined.

(* ------------------------------------------------------------------- *)
(** *** Failures *)

(** The attachment block never throws. *)
Lemma attachAgreement_total (w : World) (rec : AirRecord) (filename : string)
    (s : RunState) :
  fst (fst (attachAgreement w rec filename s)) = inr tt.
Proof.
  unfold attachAgreement. rewrite tryCatch_eq.
  destruct (attachFails w); [done|].
  rewrite bindR_eq. cbn [writeAgreement modifyStore emit bindR fst snd].
  rewrite bindR_eq. by destruct (stampFails w).
Qed.

(** A failed store write of a member never throws either: it is recorded
    in the member's result. *)
Lemma updateMemberValidation_total (w : World) (id : string) (o : Outcome)
    (e : string) (s : RunState) :
  exists upd, fst (fst (updateMemberValidation w id o e s)) = inr upd.
Proof.
  unfold updateMemberValidation.
  destruct (Str.truthy id); cbn [negb]; [|by eexists].
  destruct (memberWriteFails w id); by eexists.
Qed.

(** The member validation written before the renderer failed is in the
    store the failed run leaves. *)
Example write_survives_render_failure :
  let out := execute Samples.renderFailsWorld "recS" Samples.store2
               Samples.emptyDirectory (newJob "2025-01-01T00:00:00.000Z") in
  state (job (fst out)) = Error
  /\ memberWritesOf (snd out) = ["recM1"]
  /\ (members (store (fst out)) !! 0%nat) ≫= (fun m => get m "Discount Validated")
     = Some (VStr "Invalid").
Proof. repeat split; vm_compute; reflexivity. Qed.


(* ------------------------------------------------------------------- *)
(** *** Progress *)

Lemma updateFirst_length (id : string) (f : Entry -> Entry) (l l' : list Entry) :
  updateFirst id f l = Some l' -> length l' = length l.
Proof.
  revert l'. induction l as [|m l IH]; intros l' H; [done|]. cbn in H.
  destruct (Str.eqb (e_id m) id); [by injection H as <-|].
  destruct (updateFirst id f l) as [l0|]; [|done]. injection H as <-.
  cbn. by rewrite (IH l0).
Qed.

(** [onUpdate] never lowers [progress.validated], never raises it by more
    than one, never takes it past [progress.total], and leaves the total
    and the state alone. *)
Lemma onUpdate_progress (j : Job) (id : string) (p : Partial) :
  progress_validated j <= progress_total j ->
  progress_validated j <= progress_validated (onUpdate j id p) <= progress_validated j + 1
  /\ progress_validated (onUpdate j id p) <= progress_total j
  /\ progress_total (onUpdate j id p) = progress_total j
  /\ state (onUpdate j id p) = state j
  /\ startedAt (onUpdate j id p) = startedAt j.
Proof.
  intros H. unfold onUpdate.
  destruct (updateFirst id (applyPartial p) (default [] (checklist j))); [|repeat split; lia].
  destruct (bool_decide _);
    cbn [withProgress withChecklist progress_validated progress_total state startedAt];
    repeat split; lia.
Qed.

(** The status "not_found" does not count as terminal for the progress. *)
Lemma not_found_does_not_advance (j : Job) (id : string) (code : option string)
    (msg : string) :
  progress_validated
    (onUpdate j id {| p_status := "not_found"; p_reason_code := code;
                      p_reason_message := msg |})
  = progress_validated j.
Proof.
  unfold onUpdate.
  destruct (updateFirst id _ (default [] (checklist j))); [|done].
  reflexivity.
Qed.

(** C8 (the failing inputs).  An organisation whose gates are open and
    whose only member asked for a discount.  Without a UTS ID the member is
    left out with no [onUpdate] call after "pending"; with a UTS ID the
    Directory knows nothing of it and the status is "not_found", which the
    callback does not count.  Both runs reach "done" with
    progress.validated = 0 and progress.total = 1. *)
Example done_with_progress_short_of_total :
  let noId := fst (execute Samples.calmWorld "recS" Samples.store1
                     Samples.emptyDirectory (newJob "2025-01-01T00:00:00.000Z")) in
  let unknown := fst (execute Samples.calmWorld "recS" Samples.store2
                        Samples.emptyDirectory (newJob "2025-01-01T00:00:00.000Z")) in
  (state (job noId) = Done
   /\ progress_validated (job noId) = 0 /\ progress_total (job noId) = 1
   /\ (List.map e_status <$> checklist (job noId)) = Some ["pending"])
  /\ (state (job unknown) = Done
      /\ progress_validated (job unknown) = 0 /\ progress_total (job unknown) = 1
      /\ (List.map e_status <$> checklist (job unknown)) = Some ["not_found"]).
Proof. repeat split; vm_compute; reflexivity. Qed.

(* ------------------------------------------------------------------- *)
(** *** Triggers *)

Lemma job_write_not_idle (j j' : Job) :
  job_write j j' -> state j <> Idle -> state j' <> Idle.
Proof.
  destruct 1; cbn; try done.
  intros H. unfold onUpdate.
  destruct (updateFirst _ _ _); [|done]. by destruct (bool_decide _).
Qed.

Lemma trigger_lookup (nowIso : string) (id : option string) (J : gmap string Job)
    (k : string) (j : Job) :
  snd (fst (trigger nowIso id J)) !! k = Some j -> J !! k = Some j \/ j = newJob nowIso.
Proof.
  unfold trigger. destruct id as [id|]; [|by left].
  destruct (J !! id) as [existing|] eqn:E.
  - destruct (bool_decide (state existing = Running)); cbn [fst snd]; [by left|].
    destruct (decide (id = k)) as [->|Hne].
    + rewrite lookup_insert_eq. intros [= <-]. by right.
    + rewrite lookup_insert_ne by done. by left.
  - cbn [fst snd]. destruct (decide (id = k)) as [->|Hne].
    + rewrite lookup_insert_eq. intros [= <-]. by right.
    + rewrite lookup_insert_ne by done. by left.
Qed.

(** No job of the registry is ever idle: a job enters it running and a
    run only moves it to a terminal state. *)
Lemma reachable_not_idle (J : gmap string Job) :
  reachable J -> forall id j, J !! id = Some j -> state j <> Idle.
Proof.
  unfold reachable. intros H.
  refine (rtc_ind_r (R := step)
            (fun J => forall id j, J !! id = Some j -> state j <> Idle) ∅ _ _ J H);
    clear J H.
  - intros id j Hl. by rewrite lookup_empty in Hl.
  - intros J1 J2 _ Hstep IH id j Hl.
    destruct Hstep as [J nowIso tid|J k j0 j' Hk Hrun Hw].
    + apply trigger_lookup in Hl as [Hl| ->]; [by eapply IH|done].
    + destruct (decide (k = id)) as [->|Hne].
      * rewrite lookup_insert_eq in Hl. injection Hl as <-.
        eapply job_write_not_idle; [exact Hw|]. by rewrite Hrun.
      * rewrite lookup_insert_ne in Hl by done. by eapply IH.
Qed.

(** C1.  In a registry reached by triggers and runs, a trigger for an
    organisation whose job is not in a terminal state starts nothing: no
    run is spawned, the registry is returned as it was (same entries, same
    size), and the answer carries the state, startedAt and progress of the
    existing job.  Triggering twice in a row gives two answers with the same
    state and startedAt, and the second trigger changes nothing. *)
Theorem trigger_idempotent_while_running
    (J : gmap string Job) (id : string) (j : Job) (nowIso : string) :
  reachable J ->
  J !! id = Some j ->
  terminal (state j) = false ->
  trigger nowIso (Some id) J
    = (R202 "Validation/generation already in progress" (state j) (startedAt j)
         (progress_validated j) (progress_total j), J, None)
  /\ size (snd (fst (trigger nowIso (Some id) J))) = size J
  /\ snd (fst (trigger nowIso (Some id) J)) !! id = Some j
  /\ forall (J0 : gmap string Job) (now1 now2 : string),
       let '(r1, J1, _) := trigger now1 (Some id) J0 in
       let '(r2, J2, spawned) := trigger now2 (Some id) J1 in
       J2 = J1 /\ spawned = None
       /\ match r1, r2 with
          | R202 _ st1 started1 _ _, R202 _ st2 started2 _ _ =>
              st1 = st2 /\ started1 = started2 /\ st1 = Running
          | _, _ => False
          end.
Proof.
  intros Hreach Hl Hterm.
  assert (Hrun : state j = Running).
  { pose proof (reachable_not_idle J Hreach id j Hl). by destruct (state j). }
  assert (Ht : trigger nowIso (Some id) J
               = (R202 "Validation/generation already in progress" (state j) (startedAt j)
                    (progress_validated j) (progress_total j), J, None)).
  { unfold trigger. rewrite Hl. by rewrite bool_decide_eq_true_2. }
  rewrite Ht. cbn [fst snd]. split; [done|]. split; [done|]. split; [done|].
  intros J0 now1 now2. unfold trigger at 1.
  destruct (J0 !! id) as [existing|] eqn:E.
  - destruct (bool_decide (state existing = Running)) eqn:Eb.
    + apply bool_decide_eq_true in Eb. unfold trigger. rewrite E.
      rewrite bool_decide_eq_true_2 by done. cbn. by rewrite Eb.
    + unfold trigger. rewrite lookup_insert_eq. cbn. done.
  - unfold trigger. rewrite lookup_insert_eq. cbn. done.
Qed.

Lemma trigger_idempotent_while_running_witness :
  let J := snd (fst (trigger "2025-01-01T00:00:00.000Z" (Some "recS") ∅)) in
  trigger "2025-01-01T00:05:00.000Z" (Some "recS") J
  = (R202 "Validation/generation already in progress" Running
       "2025-01-01T00:00:00.000Z" 0 0, J, None).
Proof.
  intros J.
  refine (proj1 (trigger_idempotent_while_running J "recS"
                   (newJob "2025-01-01T00:00:00.000Z") "2025-01-01T00:05:00.000Z" _ _ _)).
  - unfold reachable, J. eapply rtc_l; [|apply rtc_refl]. apply step_trigger.
  - unfold J. vm_compute. reflexivity.
  - reflexivity.
Defined.

End OrchestratorFacts.

(* ===================================================================== *)
(** ** The resolver: identifiers, names and candidates                    *)
(* ===================================================================== *)

Module ResolverFacts.
Import Validator Shapes StrFacts.

Lemma trimStart_blank_app (pre s : string) :
  blank pre = true -> Str.trimStart (pre ++ s) = Str.trimStart s.
Proof.
  unfold blank. induction pre as [|c pre IH]; [done|].
  change (String c pre ++ s) with (String c (pre ++ s)).
  cbn [all Str.trimStart].
  intros [Hc Hpre]%andb_true_iff. rewrite Hc. by apply IH.
Qed.

Lemma trimStart_blank (s : string) : blank s = true -> Str.trimStart s = "".
Proof.
  unfold blank. induction s as [|c s IH]; [done|].
  cbn [all Str.trimStart].
  intros [Hc Hs]%andb_true_iff. rewrite Hc. by apply IH.
Qed.

Lemma dropWhileEnd_all (p : ascii -> bool) (s : string) :
  all p s = true -> Str.dropWhileEnd p s = "".
Proof.
  induction s as [|c s IH]; [done|]. cbn [all Str.dropWhileEnd].
  intros [Hc Hs]%andb_true_iff. by rewrite (IH Hs), Hc.
Qed.

Lemma dropWhileEnd_app_all (p : ascii -> bool) (a b : string) :
  all p b = true -> Str.dropWhileEnd p (a ++ b) = Str.dropWhileEnd p a.
Proof.
  intros Hb. induction a as [|c a IH].
  - by apply dropWhileEnd_all.
  - change (String c a ++ b) with (String c (a ++ b)).
    cbn [Str.dropWhileEnd]. by rewrite IH.
Qed.

Lemma dropWhileEnd_none (p : ascii -> bool) (s : string) :
  all (fun c => negb (p c)) s = true -> Str.dropWhileEnd p s = s.
Proof.
  induction s as [|c s IH]; [done|]. cbn [all Str.dropWhileEnd].
  intros [Hc Hs]%andb_true_iff. rewrite (IH Hs).
  apply negb_true_iff in Hc. rewrite Hc. by destruct s.
Qed.

Lemma collapseWs_unspaced (b : bool) (s : string) :
  unspaced s = true -> Str.collapseWs b s = s.
Proof.
  unfold unspaced. revert b. induction s as [|c s IH]; intros b; [done|].
  cbn [all Str.collapseWs].
  intros [Hc Hs]%andb_true_iff. apply negb_true_iff in Hc. rewrite Hc.
  by rewrite (IH false Hs).
Qed.

(** [sanitizeId] removes the ASCII white space around an ASCII
    identifier: an id of ASCII characters without white space and without
    trailing punctuation comes back as it is, whatever tabs, line breaks
    and spaces surround it.  (Outside ASCII this fails: U+200B inside an id
    becomes a space.) *)
Theorem sanitizeId_drops_surrounding_blanks (pre core post : string) :
  blank pre = true -> blank post = true ->
  ascii7 core = true -> unspaced core = true ->
  Str.stripTrailPunct core = core ->
  sanitizeId (pre ++ core ++ post) = core.
Proof.
  intros Hpre Hpost _ Hcore Hpunct. unfold sanitizeId, Str.trim, Str.trimEnd.
  rewrite trimStart_blank_app by done.
  destruct core as [|c core].
  - change ("" ++ post) with post. by rewrite trimStart_blank.
  - assert (Hc : Str.isSpace c = false).
    { unfold unspaced in Hcore. cbn [all] in Hcore.
      apply andb_true_iff in Hcore as [Hc _]. by apply negb_true_iff. }
    change (String c core ++ post) with (String c (core ++ post)).
    cbn [Str.trimStart]. rewrite Hc.
    change (String c (core ++ post)) with (String c core ++ post).
    rewrite dropWhileEnd_app_all by done.
    rewrite dropWhileEnd_none by done.
    by rewrite collapseWs_unspaced.
Qed.

Lemma sanitizeId_drops_surrounding_blanks_witness :
  sanitizeId "UTS-001  " = "UTS-001".
Proof.
  exact (sanitizeId_drops_surrounding_blanks "" "UTS-001" "  "
           eq_refl eq_refl eq_refl eq_refl eq_refl).
Defined.

(* ------------------------------------------------------------------- *)
(** *** Names *)

Lemma interCount_sym (ct et : list string) :
  NoDup ct -> NoDup et -> interCount ct et = interCount et ct.
Proof.
  intros Hc He. unfold interCount. f_equal. apply Permutation_length.
  apply NoDup_Permutation.
  - by apply NoDup_ListNoDup, List.NoDup_filter, NoDup_ListNoDup.
  - by apply NoDup_ListNoDup, List.NoDup_filter, NoDup_ListNoDup.
  - intros x. rewrite !list_elem_of_In, !filter_In, !bool_decide_eq_true.
    rewrite !list_elem_of_In. tauto.
Qed.

Lemma jaccardAtLeastHalf_sym (c e : string) :
  jaccardAtLeastHalf c e = jaccardAtLeastHalf e c.
Proof.
  unfold jaccardAtLeastHalf, tokenSet.
  rewrite (interCount_sym (remove_dups _) (remove_dups _))
    by apply NoDup_remove_dups.
  by rewrite (Z.add_comm (Z.of_nat (length (remove_dups (Str.splitChar " " "" c))))).
Qed.

Lemma eqb_sym (a b : string) : Str.eqb a b = Str.eqb b a.
Proof.
  unfold Str.eqb. destruct (decide (a = b)) as [->|Hne]; [done|].
  rewrite !bool_decide_eq_false_2; [done|congruence|done].
Qed.

(** [scoreName] does not depend on which of the two names is the
    candidate's and which is the expected one. *)
Theorem scoreName_symmetric (a b : string) : scoreName a b = scoreName b a.
Proof.
  unfold scoreName, lastNamesAgree, firstPrefixRelated.
  set (c := normalizeName a). set (e := normalizeName b).
  rewrite (orb_comm (negb (Str.truthy c))), (eqb_sym c e).
  rewrite (jaccardAtLeastHalf_sym c e).
  rewrite (eqb_sym (last_ (splitName c))).
  rewrite (andb_comm (Str.truthy (last_ (splitName c)))).
  by rewrite (orb_comm (Str.startsWith (first_ (splitName c)) _)).
Qed.

(* ------------------------------------------------------------------- *)
(** *** The candidate chosen from the search results *)

Lemma nameStage_elem (pool : list Candidate) (name : string) (c : Candidate) :
  nameStage pool name = Some c -> c ∈ pool.
Proof.
  unfold nameStage. destruct (negb (Str.truthy name)); [done|].
  destruct (scoreAll pool name) as [|top rest] eqn:E; [done|].
  assert (Hall : forall x, x ∈ top :: rest -> rec_ x ∈ pool).
  { intros x Hx. rewrite <- E in Hx. unfold scoreAll in Hx.
    rewrite NameFacts.sortDesc_perm in Hx.
    apply list_elem_of_In, in_map_iff in Hx as (c0 & <- & Hc0).
    by apply list_elem_of_In. }
  destruct (0 <? score top); [|done].
  destruct (_ || _)%bool.
  - intros [= <-]. apply Hall. by left.
  - destruct (Str.truthy _); [|done].
    destruct (List.filter _ (top :: rest)) as [|x [|y l]] eqn:Ef; try done.
    intros [= <-]. apply Hall.
    assert (In x (List.filter (sharesLast (last_ (splitName (normalizeName name))))
                    (top :: rest))) as Hin by (rewrite Ef; by left).
    apply filter_In in Hin as [Hin _]. by apply list_elem_of_In.
Qed.

(** [resolveCandidate] only ever returns one of the search results, and
    never one whose own lookup id is the trimmed search id; and a lone
    result that is not such a collision is returned whatever the email and
    the name are. *)
Theorem resolveCandidate_returns_pool_member
    (results : list Candidate) (searchId email name : string) :
  (forall c, resolveCandidate results searchId email name = Some c ->
     c ∈ results /\ lookup_id c <> Str.trim searchId)
  /\ (forall c, List.filter (notCollision (Str.trim searchId)) results = [c] ->
        resolveCandidate results searchId email name = Some c).
Proof.
  split.
  - intros c H.
    enough (Hin : c ∈ List.filter (notCollision (Str.trim searchId)) results).
    { apply list_elem_of_In, filter_In in Hin as [Hin Hn]. split; [by apply list_elem_of_In|].
      unfold notCollision in Hn. apply negb_true_iff, eqb_neq in Hn. done. }
    unfold resolveCandidate in H.
    destruct (List.filter _ results) as [|c0 [|c1 pool]] eqn:E; [done| |].
    + injection H as <-. by left.
    + destruct (if Str.truthy _ then _ else _) as [hit|] eqn:Eh.
      * injection H as <-. destruct (Str.truthy _); [|done].
        apply find_some in Eh as [Hin _]. by apply list_elem_of_In.
      * by apply nameStage_elem in H.
  - intros c H. unfold resolveCandidate. by rewrite H.
Qed.

Lemma resolveCandidate_returns_pool_member_witness :
  resolveCandidate [Samples.namesake; Samples.ann] "UTS-001 " "" "" = Some Samples.ann.
Proof.
  refine (proj2 (resolveCandidate_returns_pool_member
                   [Samples.namesake; Samples.ann] "UTS-001 " "" "") Samples.ann _).
  vm_compute. reflexivity.
Defined.

End ResolverFacts.

(* ===================================================================== *)
(** ** The resolver: buckets of a candidate                               *)
(* ===================================================================== *)

Module BucketFacts.
Import Validator Shapes StrFacts.

Lemma setAdd_nil (x : string) : setAdd x [] = [x].
Proof. unfold setAdd. by rewrite bool_decide_eq_false_2 by apply not_elem_of_nil. Qed.

Lemma setAdd_elem (x b : string) (out : list string) :
  b ∈ setAdd x out <-> b = x \/ b ∈ out.
Proof.
  unfold setAdd. case_bool_decide as H.
  - split; [by right|]. by intros [->|?].
  - rewrite elem_of_app, list_elem_of_singleton. tauto.
Qed.

Lemma setAdd_NoDup (x : string) (out : list string) : NoDup out -> NoDup (setAdd x out).
Proof.
  intros Hout. unfold setAdd. case_bool_decide as H; [done|].
  apply NoDup_app. split; [done|]. split; [|apply NoDup_singleton].
  intros y Hy ->%list_elem_of_singleton. done.
Qed.

(** A code adds at most one label, the same whatever was collected
    before. *)
Lemma bucketStep_label (tz now : Z) (out : list string) (c : Code) :
  bucketStep tz now out c
  = match labelOf tz now c with Some l => setAdd l out | None => out end.
Proof.
  unfold labelOf, bucketStep.
  destruct (Str.eqb (codeDesc c) "student").
  { destruct (negb (inactive c)); by rewrite ?setAdd_nil. }
  destruct (Str.eqb (codeDesc c) "staff").
  { destruct (negb (inactive c)); [by rewrite setAdd_nil|].
    destruct (date_modified c) as [t|]; [|destruct (date_added c) as [t|]];
      try destruct (within12Months t now); by rewrite setAdd_nil. }
  destruct (Str.eqb (codeDesc c) "alumni"); [|done].
  destruct (toDateFromYmd tz (start c)) as [dt|]; [|destruct (date_added c) as [t|]];
    try destruct (within12Months _ now); by rewrite setAdd_nil.
Qed.

Lemma fold_bucketStep_elem (tz now : Z) (codes : list Code) (out : list string)
    (b : string) :
  b ∈ fold_left (bucketStep tz now) codes out
  <-> b ∈ out \/ exists c, c ∈ codes /\ labelOf tz now c = Some b.
Proof.
  revert out. induction codes as [|c codes IH]; intros out; cbn [fold_left].
  - split; [by left|]. intros [?|(c & Hc & _)]; [done|]. by apply elem_of_nil in Hc.
  - rewrite IH, bucketStep_label. split.
    + intros [H|(c' & Hc' & Hl)].
      * destruct (labelOf tz now c) as [l|] eqn:El; [|by left].
        apply setAdd_elem in H as [->|H]; [|by left].
        right. exists c. split; [by left|done].
      * right. exists c'. split; [by right|done].
    + intros [H|(c' & Hc' & Hl)].
      * left. destruct (labelOf tz now c); [|done]. apply setAdd_elem. by right.
      * apply elem_of_cons in Hc' as [->|Hc'].
        -- left. rewrite Hl. apply setAdd_elem. by left.
        -- right. by exists c'.
Qed.

Lemma fold_bucketStep_NoDup (tz now : Z) (codes : list Code) (out : list string) :
  NoDup out -> NoDup (fold_left (bucketStep tz now) codes out).
Proof.
  revert out. induction codes as [|c codes IH]; intros out Hout; [done|].
  cbn [fold_left]. apply IH. rewrite bucketStep_label.
  destruct (labelOf tz now c); [by apply setAdd_NoDup|done].
Qed.

Lemma inferBuckets_elem (tz now : Z) (codes : list Code) (b : string) :
  b ∈ inferBucketsFromCodes tz now codes
  <-> exists c, c ∈ codes /\ labelOf tz now c = Some b.
Proof.
  unfold inferBucketsFromCodes. rewrite fold_bucketStep_elem.
  split; [|by right]. intros [H|H]; [|done]. by apply elem_of_nil in H.
Qed.

(** The label of a code, by the three descriptions that matter. *)
Lemma labelOf_cases (tz now : Z) (c : Code) :
  (codeDesc c = "student" /\
     labelOf tz now c = if inactive c then None else Some CurrentStudent)
  \/ (codeDesc c = "staff" /\
        (if inactive c
         then labelOf tz now c = Some FormerStaffWithin
              \/ labelOf tz now c = Some FormerStaffOver
         else labelOf tz now c = Some CurrentStaff))
  \/ (codeDesc c = "alumni" /\
        (labelOf tz now c = Some AlumniWithin \/ labelOf tz now c = Some AlumniOver))
  \/ (codeDesc c <> "student" /\ codeDesc c <> "staff" /\ codeDesc c <> "alumni"
      /\ labelOf tz now c = None).
Proof.
  unfold labelOf, bucketStep.
  destruct (Str.eqb (codeDesc c) "student") eqn:E1.
  { left. apply eqb_eq in E1. split; [done|].
    destruct (inactive c); cbn [negb]; by rewrite ?setAdd_nil. }
  right. apply eqb_neq in E1.
  destruct (Str.eqb (codeDesc c) "staff") eqn:E2.
  { left. apply eqb_eq in E2. split; [done|].
    destruct (inactive c); cbn [negb]; [|by rewrite setAdd_nil].
    destruct (date_modified c) as [t|]; [|destruct (date_added c) as [t|]];
      try destruct (within12Months t now); rewrite setAdd_nil; auto. }
  right. apply eqb_neq in E2.
  destruct (Str.eqb (codeDesc c) "alumni") eqn:E3.
  { left. apply eqb_eq in E3. split; [done|].
    destruct (toDateFromYmd tz (start c)) as [dt|]; [|destruct (date_added c) as [t|]];
      try destruct (within12Months _ now); rewrite setAdd_nil; auto. }
  right. apply eqb_neq in E3. done.
Qed.

Lemma labelOf_range (tz now : Z) (c : Code) (b : string) :
  labelOf tz now c = Some b -> b ∈ bucketOrder.
Proof.
  intros H. apply (bool_decide_unpack _).
  destruct (labelOf_cases tz now c) as [[_ Hl]|[[_ Hl]|[[_ Hl]|(_ & _ & _ & Hl)]]].
  - destruct (inactive c); rewrite Hl in H; [done|]. injection H as <-. by vm_compute.
  - destruct (inactive c); [destruct Hl as [Hl|Hl]|]; rewrite Hl in H;
      injection H as <-; by vm_compute.
  - destruct Hl as [Hl|Hl]; rewrite Hl in H; injection H as <-; by vm_compute.
  - by rewrite Hl in H.
Qed.

(** The buckets derived from a list of codes: each label once, only the
    six labels, Current UTS Student exactly when some student code is
    active, Current UTS Staff exactly when some staff code is active, an
    alumni label exactly when there is an alumni code, a former-staff label
    exactly when some staff code is inactive; an inactive student code and
    a code of any other description contribute nothing. *)
Theorem inferBuckets_characterised (tz now : Z) (codes : list Code) :
  let bs := inferBucketsFromCodes tz now codes in
  NoDup bs
  /\ (forall b, b ∈ bs -> b ∈ bucketOrder)
  /\ (CurrentStudent ∈ bs <->
      exists c, c ∈ codes /\ codeDesc c = "student" /\ inactive c = false)
  /\ (CurrentStaff ∈ bs <->
      exists c, c ∈ codes /\ codeDesc c = "staff" /\ inactive c = false)
  /\ (AlumniWithin ∈ bs \/ AlumniOver ∈ bs <->
      exists c, c ∈ codes /\ codeDesc c = "alumni")
  /\ (FormerStaffWithin ∈ bs \/ FormerStaffOver ∈ bs <->
      exists c, c ∈ codes /\ codeDesc c = "staff" /\ inactive c = true)
  /\ (bs = [] <->
      forall c, c ∈ codes ->
        (codeDesc c = "student" /\ inactive c = true)
        \/ (codeDesc c <> "student" /\ codeDesc c <> "staff" /\ codeDesc c <> "alumni")).
Proof.
  intros bs.
  assert (Hin : forall b, b ∈ bs <-> exists c, c ∈ codes /\ labelOf tz now c = Some b)
    by apply inferBuckets_elem.
  split; [by apply fold_bucketStep_NoDup, NoDup_nil|].
  split. { intros b (c & _ & Hl)%Hin. by eapply labelOf_range. }
  split; [|split; [|split; [|split]]].
  - rewrite Hin. split; intros (c & Hc & H); exists c; (split; [done|]).
    + destruct (labelOf_cases tz now c) as [[Hd Hl]|[[_ Hl]|[[_ Hl]|(_ & _ & _ & Hl)]]].
      * destruct (inactive c); [by rewrite Hl in H|done].
      * destruct (inactive c); [destruct Hl as [Hl|Hl]|]; by rewrite Hl in H.
      * destruct Hl as [Hl|Hl]; by rewrite Hl in H.
      * by rewrite Hl in H.
    + destruct H as [Hd Hi].
      destruct (labelOf_cases tz now c) as [[_ Hl]|[[Hd' _]|[[Hd' _]|(Hd' & _)]]];
        [by rewrite Hl, Hi| | |]; by rewrite Hd in Hd'.
  - rewrite Hin. split; intros (c & Hc & H); exists c; (split; [done|]).
    + destruct (labelOf_cases tz now c) as [[Hd Hl]|[[Hd Hl]|[[_ Hl]|(_ & _ & _ & Hl)]]].
      * destruct (inactive c); by rewrite Hl in H.
      * destruct (inactive c); [destruct Hl as [Hl|Hl]; by rewrite Hl in H|done].
      * destruct Hl as [Hl|Hl]; by rewrite Hl in H.
      * by rewrite Hl in H.
    + destruct H as [Hd Hi].
      destruct (labelOf_cases tz now c) as [[Hd' _]|[[_ Hl]|[[Hd' _]|(_ & Hd' & _)]]];
        [|by rewrite Hi in Hl| |]; by rewrite Hd in Hd'.
  - rewrite !Hin. split.
    + intros [(c & Hc & H)|(c & Hc & H)]; exists c; (split; [done|]);
        destruct (labelOf_cases tz now c) as [[_ Hl]|[[_ Hl]|[[Hd _]|(_ & _ & _ & Hl)]]];
        try done; try (destruct (inactive c); try destruct Hl as [Hl|Hl]);
        by rewrite Hl in H.
    + intros (c & Hc & Hd).
      destruct (labelOf_cases tz now c) as [[Hd' _]|[[Hd' _]|[[_ Hl]|(_ & _ & Hd' & _)]]];
        try by rewrite Hd in Hd'.
      destruct Hl as [Hl|Hl]; [left|right]; by exists c.
  - rewrite !Hin. split.
    + intros [(c & Hc & H)|(c & Hc & H)]; exists c; (split; [done|]);
        destruct (labelOf_cases tz now c) as [[_ Hl]|[[Hd Hl]|[[_ Hl]|(_ & _ & _ & Hl)]]];
        try (destruct (inactive c); try done; try destruct Hl as [Hl|Hl]);
        by rewrite Hl in H.
    + intros (c & Hc & Hd & Hi).
      destruct (labelOf_cases tz now c) as [[Hd' _]|[[_ Hl]|[[Hd' _]|(_ & Hd' & _)]]];
        try by rewrite Hd in Hd'.
      rewrite Hi in Hl. destruct Hl as [Hl|Hl]; [left|right]; by exists c.
  - split.
    + intros Hnil c Hc.
      destruct (labelOf_cases tz now c) as [[Hd Hl]|[[_ Hl]|[[_ Hl]|(H1 & H2 & H3 & _)]]].
      * left. split; [done|]. destruct (inactive c); [done|].
        assert (CurrentStudent ∈ bs) as Hb by (apply Hin; by exists c).
        rewrite Hnil in Hb. by apply elem_of_nil in Hb.
      * exfalso.
        assert (exists b, b ∈ bs) as [b Hb].
        { destruct (inactive c); [destruct Hl as [Hl|Hl]|];
            eexists; apply Hin; exists c; by split. }
        rewrite Hnil in Hb. by apply elem_of_nil in Hb.
      * exfalso.
        assert (exists b, b ∈ bs) as [b Hb].
        { destruct Hl as [Hl|Hl]; eexists; apply Hin; exists c; by split. }
        rewrite Hnil in Hb. by apply elem_of_nil in Hb.
      * by right.
    + intros Hall. destruct bs as [|b bs'] eqn:E; [done|]. exfalso.
      assert (b ∈ b :: bs') as (c & Hc & Hl)%Hin by by left.
      destruct (Hall c Hc) as [[Hd Hi]|(H1 & H2 & H3)];
        destruct (labelOf_cases tz now c) as [[Hd' Hl']|[[Hd' _]|[[Hd' _]|(_ & _ & _ & Hl')]]];
        try congruence.
      rewrite Hi in Hl'. congruence.
Qed.

(* ------------------------------------------------------------------- *)
(** *** The primary bucket *)

Lemma find_split {A} (p : A -> bool) (l : list A) (b : A) :
  List.find p l = Some b ->
  exists pre post, l = (pre ++ b :: post)%list /\ p b = true
                   /\ forall x, x ∈ pre -> p x = false.
Proof.
  induction l as [|a l IH]; [done|]. cbn [List.find].
  destruct (p a) eqn:Ea.
  - intros [= <-]. exists [], l. split; [done|]. split; [done|].
    intros x Hx. by apply elem_of_nil in Hx.
  - intros (pre & post & -> & Hb & Hpre)%IH. exists (a :: pre), post.
    split; [done|]. split; [done|].
    intros x [->|Hx]%elem_of_cons; [done|by apply Hpre].
Qed.

Lemma find_ext {A} (p q : A -> bool) (l : list A) :
  (forall x, p x = q x) -> List.find p l = List.find q l.
Proof.
  intros H. induction l as [|a l IH]; [done|]. cbn [List.find].
  by rewrite H, IH.
Qed.

Lemma includesStr_true (l : list string) (x : string) : includesStr l x = true <-> x ∈ l.
Proof. unfold includesStr. apply bool_decide_eq_true. Qed.

Lemma choosePrimaryBucket_none (bs : list string) :
  (forall b, b ∈ bs -> b ∈ bucketOrder) ->
  choosePrimaryBucket bs = None <-> bs = [].
Proof.
  intros Hsub. split; [|by intros ->].
  unfold choosePrimaryBucket.
  destruct (List.find (includesStr bs) bucketOrder) eqn:Ef; [done|].
  destruct bs as [|b bs']; [done|]. exfalso.
  assert (Hb : b ∈ b :: bs') by by left.
  pose proof (find_none _ _ Ef b) as Hn.
  rewrite <- list_elem_of_In in Hn. specialize (Hn (Hsub b Hb)).
  apply includesStr_true in Hb. congruence.
Qed.

Lemma primary_bucket_for_labels (bs : list string) :
  (forall b, b ∈ bs -> b ∈ bucketOrder) ->
  (choosePrimaryBucket bs = None -> bs = [])
  /\ (forall b, choosePrimaryBucket bs = Some b -> b ∈ bs).
Proof.
  intros Hsub. split; [by apply choosePrimaryBucket_none|].
  intros b H. unfold choosePrimaryBucket in H.
  destruct (List.find (includesStr bs) bucketOrder) as [b'|] eqn:Ef.
  - injection H as ->. apply find_some in Ef as [_ Hb]. by apply includesStr_true.
  - destruct bs as [|b0 bs']; [done|]. destruct (Str.truthy b0); [|done].
    injection H as <-. by left.
Qed.

(** The primary bucket of a candidate is the first label of the fixed
    order that the derived buckets hold; there is none exactly when no
    bucket was derived; and it does not depend on the order in which the
    Directory lists the codes. *)
Theorem primary_bucket_precedence (tz now : Z) (codes : list Code) :
  let bs := inferBucketsFromCodes tz now codes in
  (choosePrimaryBucket bs = None <-> bs = [])
  /\ (forall b, choosePrimaryBucket bs = Some b ->
        b ∈ bs
        /\ exists pre post, bucketOrder = (pre ++ b :: post)%list
                            /\ forall x, x ∈ pre -> x ∉ bs)
  /\ (forall codes', codes ≡ₚ codes' ->
        choosePrimaryBucket (inferBucketsFromCodes tz now codes')
        = choosePrimaryBucket bs).
Proof.
  intros bs.
  assert (Hsub : forall codes b, b ∈ inferBucketsFromCodes tz now codes -> b ∈ bucketOrder).
  { intros cs b (c & _ & Hl)%inferBuckets_elem. by eapply labelOf_range. }
  split; [by apply choosePrimaryBucket_none, Hsub|]. split.
  - intros b H. unfold choosePrimaryBucket in H.
    destruct (List.find (includesStr bs) bucketOrder) as [b'|] eqn:Ef.
    + injection H as ->. apply find_split in Ef as (pre & post & Ho & Hb & Hpre).
      split; [by apply includesStr_true|]. exists pre, post. split; [done|].
      intros x Hx Hin. apply includesStr_true in Hin. rewrite (Hpre x Hx) in Hin. done.
    + exfalso. assert (choosePrimaryBucket bs = Some b) as Hc.
      { unfold choosePrimaryBucket. by rewrite Ef. }
      assert (bs = []) as Hnil.
      { destruct bs as [|b0 bs'] eqn:E; [done|]. exfalso.
        assert (Hb0 : b0 ∈ bs) by (rewrite E; by left).
        pose proof (find_none _ _ Ef b0) as Hn.
        rewrite <- list_elem_of_In in Hn. specialize (Hn (Hsub codes b0 Hb0)).
        rewrite <- E in Hn. apply includesStr_true in Hb0. congruence. }
      rewrite Hnil in H. done.
  - intros codes' Hperm.
    set (bs' := inferBucketsFromCodes tz now codes').
    assert (Hsame : forall b, b ∈ bs' <-> b ∈ bs).
    { intros b. unfold bs', bs. rewrite !inferBuckets_elem.
      split; intros (c & Hc & Hl); exists c; (split; [|done]).
      - by rewrite Hperm. - by rewrite <- Hperm. }
    unfold choosePrimaryBucket.
    rewrite (find_ext (includesStr bs') (includesStr bs)).
    2:{ intros x. unfold includesStr. apply bool_decide_ext, Hsame. }
    destruct (List.find (includesStr bs) bucketOrder) eqn:Ef; [done|].
    assert (bs = []) as Hnil.
    { apply (choosePrimaryBucket_none bs (Hsub codes)). unfold choosePrimaryBucket.
      rewrite Ef. destruct bs as [|b0 bs0] eqn:E; [done|]. exfalso.
      assert (Hb0 : b0 ∈ bs) by (rewrite E; by left).
      pose proof (find_none _ _ Ef b0) as Hn.
      rewrite <- list_elem_of_In in Hn. specialize (Hn (Hsub codes b0 Hb0)).
      rewrite <- E in Hn. apply includesStr_true in Hb0. congruence. }
    assert (bs' = []) as ->.
    { destruct bs' as [|b0 bs0] eqn:E; [done|]. exfalso.
      assert (b0 ∈ bs) as Hb by (apply Hsame; by left).
      rewrite Hnil in Hb. by apply elem_of_nil in Hb. }
    by rewrite Hnil.
Qed.

End BucketFacts.

(* ===================================================================== *)
(** ** The resolver: birth dates and Directory calls                      *)
(* ===================================================================== *)

Module CallFacts.
Import Validator Shapes StrFacts.

(* ------------------------------------------------------------------- *)
(** *** Birth dates *)

Lemma digit_run (cur : option Z) (n : Z) (s : string) :
  digitRuns cur (digit n ++ s) = digitRuns (Some (10 * default 0 cur + n mod 10)) s.
Proof.
  unfold digit. pose proof (Z.mod_pos_bound n 10 ltac:(lia)) as Hk.
  remember (n mod 10) as k eqn:Ek. clear Ek.
  assert (k = 0 \/ k = 1 \/ k = 2 \/ k = 3 \/ k = 4 \/ k = 5 \/ k = 6 \/ k = 7
          \/ k = 8 \/ k = 9) as Hcases by lia.
  destruct Hcases as [->|[->|[->|[->|[->|[->|[->|[->|[->| ->]]]]]]]]]; reflexivity.
Qed.

Lemma digit_unspaced (n : Z) : unspaced (digit n) = true.
Proof.
  unfold digit. pose proof (Z.mod_pos_bound n 10 ltac:(lia)) as Hk.
  remember (n mod 10) as k eqn:Ek. clear Ek.
  assert (k = 0 \/ k = 1 \/ k = 2 \/ k = 3 \/ k = 4 \/ k = 5 \/ k = 6 \/ k = 7
          \/ k = 8 \/ k = 9) as Hcases by lia.
  destruct Hcases as [->|[->|[->|[->|[->|[->|[->|[->|[->| ->]]]]]]]]]; reflexivity.
Qed.

Lemma all_app (p : ascii -> bool) (a b : string) :
  all p (a ++ b) = (all p a && all p b)%bool.
Proof.
  induction a as [|c a IH]; [done|].
  change (String c a ++ b) with (String c (a ++ b)). cbn [all].
  by rewrite IH, andb_assoc.
Qed.

Lemma pad2_run (cur : option Z) (n : Z) (s : string) :
  digitRuns cur (pad2 n ++ s)
  = digitRuns (Some (10 * (10 * default 0 cur + (n / 10) mod 10) + n mod 10)) s.
Proof.
  change (pad2 n ++ s) with (digit (n / 10) ++ (digit n ++ s)).
  by rewrite !digit_run.
Qed.

Lemma pad4_run (cur : option Z) (n : Z) (s : string) :
  digitRuns cur (pad4 n ++ s)
  = digitRuns
      (Some (10 * (10 * (10 * (10 * default 0 cur + (n / 1000) mod 10)
                         + (n / 100) mod 10) + (n / 10) mod 10) + n mod 10)) s.
Proof.
  change (pad4 n ++ s) with (digit (n / 1000) ++ (digit (n / 100) ++ (pad2 n ++ s))).
  rewrite !digit_run. by rewrite pad2_run.
Qed.

Lemma pad2_value (n : Z) :
  0 <= n < 100 -> 10 * (10 * 0 + (n / 10) mod 10) + n mod 10 = n.
Proof. intros H. Z.to_euclidean_division_equations. lia. Qed.

Lemma pad4_value (n : Z) :
  0 <= n < 10000 ->
  10 * (10 * (10 * (10 * 0 + (n / 1000) mod 10) + (n / 100) mod 10) + (n / 10) mod 10)
  + n mod 10 = n.
Proof. intros H. Z.to_euclidean_division_equations. lia. Qed.

Lemma trim_unspaced (s : string) : unspaced s = true -> Str.trim s = s.
Proof.
  intros H. unfold Str.trim, Str.trimEnd.
  assert (Str.trimStart s = s) as ->.
  { destruct s as [|c s]; [done|]. unfold unspaced in H. cbn [all] in H.
    apply andb_true_iff in H as [Hc _]. apply negb_true_iff in Hc.
    cbn [Str.trimStart]. by rewrite Hc. }
  by apply ResolverFacts.dropWhileEnd_none.
Qed.

Lemma unspaced_app (a b : string) :
  unspaced (a ++ b) = (unspaced a && unspaced b)%bool.
Proof. apply all_app. Qed.

Lemma pad2_unspaced (n : Z) : unspaced (pad2 n) = true.
Proof. unfold pad2. by rewrite unspaced_app, !digit_unspaced. Qed.

Lemma pad4_unspaced (n : Z) : unspaced (pad4 n) = true.
Proof.
  unfold pad4, pad3. by rewrite !unspaced_app, !digit_unspaced, pad2_unspaced.
Qed.

Lemma numOrNull_some (o : option Z) (n : Z) : n <> 0 -> numOrNull o = Some n <-> o = Some n.
Proof.
  intros Hn. destruct o as [v|]; [|done]. cbn [numOrNull].
  destruct (v =? 0) eqn:E; split; intros H; try done.
  - injection H as ->. lia.
Qed.

(** A full birth date parses to its three components whether it is
    written year first or day first, and then a Directory birth date
    matches exactly when its three components are these. *)
Theorem dob_formats_agree (y m d : Z) :
  1000 <= y <= 9999 -> 1 <= m <= 12 -> 1 <= d <= 31 ->
  let target := {| ty := y; tm := Some m; td := Some d |} in
  parseDobInput (yearFirst y m d) = Some target
  /\ parseDobInput (dayFirst y m d) = Some target
  /\ forall b, matchDob (Some b) target = true
               <-> by_ b = Some y /\ bm_ b = Some m /\ bd_ b = Some d.
Proof.
  intros Hy Hm Hd target.
  assert (H4 : fourDigits y = true) by (unfold fourDigits; lia).
  assert (H4d : fourDigits d = false) by (unfold fourDigits; lia).
  split; [|split].
  - unfold parseDobInput. rewrite trim_unspaced.
    2:{ unfold yearFirst. rewrite !unspaced_app.
        by rewrite pad4_unspaced, !pad2_unspaced. }
    unfold yearFirst. rewrite pad4_run. cbn [default].
    rewrite pad4_value by lia.
    change ("-" ++ pad2 m ++ "-" ++ pad2 d) with (String "-" (pad2 m ++ "-" ++ pad2 d)).
    cbn [digitRuns].
    change (Str.isDigit "-") with false. cbv iota.
    rewrite pad2_run. cbn [default]. rewrite pad2_value by lia.
    change ("-" ++ pad2 d) with (String "-" (pad2 d ++ "")).
    cbn [digitRuns]. change (Str.isDigit "-") with false. cbv iota.
    rewrite pad2_run. cbn [default digitRuns]. rewrite pad2_value by lia.
    by rewrite H4.
  - unfold parseDobInput. rewrite trim_unspaced.
    2:{ unfold dayFirst. rewrite !unspaced_app.
        by rewrite pad4_unspaced, !pad2_unspaced. }
    unfold dayFirst. rewrite pad2_run. cbn [default]. rewrite pad2_value by lia.
    change ("/" ++ pad2 m ++ "/" ++ pad4 y) with (String "/" (pad2 m ++ "/" ++ pad4 y)).
    cbn [digitRuns]. change (Str.isDigit "/") with false. cbv iota.
    rewrite pad2_run. cbn [default]. rewrite pad2_value by lia.
    change ("/" ++ pad4 y) with (String "/" (pad4 y ++ "")).
    cbn [digitRuns]. change (Str.isDigit "/") with false. cbv iota.
    rewrite pad4_run. cbn [default digitRuns]. rewrite pad4_value by lia.
    by rewrite H4d, H4.
  - intros b. unfold matchDob, target, differsFrom. cbn [ty tm td numOrNull].
    assert ((y =? 0) = false) as -> by lia.
    assert ((m =? 0) = false) as -> by lia.
    assert ((d =? 0) = false) as -> by lia.
    rewrite <- (numOrNull_some (by_ b) y), <- (numOrNull_some (bm_ b) m),
      <- (numOrNull_some (bd_ b) d) by lia.
    repeat case_bool_decide; cbn [negb]; split; try done; tauto.
Qed.

Lemma dob_formats_agree_witness :
  parseDobInput "1990-05-17" = parseDobInput "17/05/1990".
Proof.
  destruct (dob_formats_agree 1990 5 17 ltac:(lia) ltac:(lia) ltac:(lia)) as (H1 & H2 & _).
  exact (eq_trans H1 (eq_sym H2)).
Defined.

(* ------------------------------------------------------------------- *)
(** *** Calls of the Directory *)

Lemma bind_inv {A B} (x : Dir A) (f : A -> Dir B) (b : B) (l : list DirCall) :
  bind x f = (inr b, l) ->
  exists a l1 l2, x = (inr a, l1) /\ f a = (inr b, l2) /\ l = (l1 ++ l2)%list.
Proof.
  unfold bind. destruct x as [[e|a] l1]; [done|].
  destruct (f a) as [r l2] eqn:Ef. intros [= -> <-]. by exists a, l1, l2.
Qed.

Lemma call_ok {A} (dir : Directory) (c : DirCall) (answer : string + A) :
  credsPresent dir = true -> call dir c answer = (answer, [c]).
Proof. intros H. unfold call. by rewrite H. Qed.

Lemma call_inv {A} (dir : Directory) (c : DirCall) (answer : string + A) (a : A)
    (l : list DirCall) :
  call dir c answer = (inr a, l) ->
  credsPresent dir = true /\ answer = inr a /\ l = [c].
Proof. unfold call. destruct (credsPresent dir); [|done]. by intros [= -> <-]. Qed.

(** The loop of [resolveByDob] is a filter of the pool. *)
Lemma dobMatches_filter (dir : Directory) (pool : list Candidate) (target : DobTarget) :
  credsPresent dir = true ->
  (forall c, c ∈ pool -> exists det, constituentById dir (cid c) = inr det) ->
  dobMatches dir pool target
  = (inr (List.filter (dobOk dir target) pool), CallById <$> (cid <$> pool)).
Proof.
  intros Hcreds Hall. induction pool as [|c pool IH]; [done|].
  cbn [dobMatches List.filter]. unfold getConstituentById.
  rewrite call_ok by done.
  destruct (Hall c) as [det Hdet]; [by left|].
  rewrite (PoolFacts.bind_inr _ _ det [CallById (cid c)]) by by rewrite Hdet.
  rewrite IH by (intros c' Hc'; apply Hall; by right).
  assert (Hok : dobOk dir target c
                = ((status det =? 200) && matchDob (value det) target)%bool)
    by (unfold dobOk; by rewrite Hdet).
  rewrite Hok. cbn [bind ret fst snd].
  rewrite !fmap_cons, app_nil_r. cbn [app].
  by destruct (_ && _)%bool.
Qed.

(** [resolveByDob]: a birth date that does not parse costs no call and
    resolves nobody; otherwise, when the Directory answers, the record of
    every pool candidate is fetched once, in pool order, and a candidate is
    returned exactly when it is the only one whose record came back with
    status 200 and a matching birth date. *)
Theorem resolveByDob_unique_match (dir : Directory) (pool : list Candidate)
    (dobStr : string) :
  (parseDobInput dobStr = None -> resolveByDob dir pool dobStr = (inr None, []))
  /\ (forall target,
        parseDobInput dobStr = Some target ->
        credsPresent dir = true ->
        (forall c, c ∈ pool -> exists det, constituentById dir (cid c) = inr det) ->
        resolveByDob dir pool dobStr
        = (inr (match List.filter (dobOk dir target) pool with
                | [c] => Some c
                | _ => None
                end),
           CallById <$> (cid <$> pool)))
  /\ (forall c calls,
        resolveByDob dir pool dobStr = (inr (Some c), calls) -> c ∈ pool).
Proof.
  split; [|split].
  - intros H. unfold resolveByDob. by rewrite H.
  - intros target Ht Hcreds Hall. unfold resolveByDob. rewrite Ht.
    rewrite (PoolFacts.bind_inr _ _ _ _ (dobMatches_filter dir pool target Hcreds Hall)).
    cbn [ret fst snd]. by rewrite app_nil_r.
  - intros c calls H. unfold resolveByDob in H.
    destruct (parseDobInput dobStr) as [target|]; [|done].
    apply bind_inv in H as (ms & l1 & l2 & Hms & Hret & _).
    injection Hret as Hc _.
    assert (Hsub : forall pool ms l, dobMatches dir pool target = (inr ms, l) ->
                     forall x, x ∈ ms -> x ∈ pool).
    { clear. induction pool as [|c pool IH]; intros ms l H x Hx.
      - injection H as <- _. done.
      - cbn [dobMatches] in H.
        apply bind_inv in H as (det & l1 & l2 & _ & H & _).
        apply bind_inv in H as (more & l3 & l4 & Hmore & H & _).
        injection H as <- _.
        destruct (_ && _)%bool.
        + apply elem_of_cons in Hx as [->|Hx]; [by left|].
          right. by eapply IH.
        + right. by eapply IH. }
    destruct ms as [|m [|m' ms]]; try done. injection Hc as <-.
    eapply Hsub; [exact Hms|by left].
Qed.

(* ------------------------------------------------------------------- *)
(** *** The evaluation of one candidate *)

(** What [evaluateSingle] answers for a candidate whose codes could be
    fetched: one codes call, for that candidate; buckets derived from the
    codes of that call alone; valid exactly when the expected bucket is
    among them (or, with no expectation, when there is any bucket);
    "qualifies for other" exactly when an expectation was given and missed
    while some bucket was derived; a valid answer always has a primary
    bucket, which is one of the derived ones; and the expiry is present
    exactly when the commencement is. *)
Theorem evaluateSingle_verdict (dir : Directory) (clk : Clock) (e : string)
    (c : Candidate) (res : Single) (calls : list DirCall) :
  evaluateSingle dir clk e c = (inr (OSingle res), calls) ->
  calls = [CallCodes (cid c)]
  /\ bb_record_id res = cid c /\ candidate res = infoOf c
  /\ (exists cr, constituentCodes dir (cid c) = inr cr /\ status cr = 200
                 /\ codes res = value cr
                 /\ derived_buckets res
                    = inferBucketsFromCodes (tz clk) (now clk) (value cr))
  /\ (e <> "" -> (valid res = true <-> e ∈ derived_buckets res)
                 /\ (qualifies_other res = true
                     <-> (e ∉ derived_buckets res) /\ derived_buckets res <> []))
  /\ (e = "" -> (valid res = true <-> derived_buckets res <> [])
                /\ qualifies_other res = false)
  /\ (valid res = true ->
      exists b, primary_bucket res = Some b /\ b ∈ derived_buckets res)
  /\ (alumni_expires_at res = None <-> alumni_commencement res = None).
Proof.
  intros H. unfold evaluateSingle in H.
  apply bind_inv in H as (cr & l1 & l2 & Hcall & H & ->).
  apply call_inv in Hcall as (Hcreds & Hcr & ->).
  destruct (status cr =? 200) eqn:Hs; cbn [negb] in H; [|done].
  injection H as <- <-. cbn [valid qualifies_other derived_buckets primary_bucket
    bb_record_id candidate codes alumni_expires_at alumni_commencement].
  set (bs := inferBucketsFromCodes (tz clk) (now clk) (value cr)).
  split; [done|]. split; [done|]. split; [done|].
  split. { exists cr. split; [done|]. split; [lia|done]. }
  split; [|split; [|split]].
  - intros He. apply truthy_true in He. rewrite He.
    rewrite BucketFacts.includesStr_true. split; [done|].
    rewrite andb_true_r, andb_true_iff, !negb_true_iff, bool_decide_eq_false.
    rewrite <- not_true_iff_false, BucketFacts.includesStr_true. done.
  - intros ->. cbn [Str.truthy]. rewrite andb_false_r.
    rewrite negb_true_iff, bool_decide_eq_false. done.
  - intros Hv.
    assert (Hne : bs <> []).
    { destruct (Str.truthy e).
      - apply BucketFacts.includesStr_true in Hv. intros Hnil. rewrite Hnil in Hv.
        by apply elem_of_nil in Hv.
      - by apply negb_true_iff, bool_decide_eq_false in Hv. }
    destruct (BucketFacts.primary_bucket_for_labels bs) as [Hnone Hsome].
    { intros b (c0 & _ & Hl)%BucketFacts.inferBuckets_elem.
      by eapply BucketFacts.labelOf_range. }
    destruct (choosePrimaryBucket bs) as [b|] eqn:Ep.
    + exists b. split; [done|]. by apply Hsome.
    + by specialize (Hnone eq_refl).
  - by destruct (alumniCommencementFromCodes (tz clk) (value cr)).
Qed.

Lemma evaluateSingle_verdict_witness :
  exists res calls,
    evaluateSingle Samples.alumniDirectory {| tz := 0; now := 1735689600000 |}
      AlumniWithin Samples.graduate = (inr (OSingle res), calls)
    /\ calls = [CallCodes "bb-7"].
Proof.
  eexists _, _. split; [vm_compute; reflexivity|].
  eapply (fun H => proj1 (evaluateSingle_verdict Samples.alumniDirectory
                            {| tz := 0; now := 1735689600000 |}
                            AlumniWithin Samples.graduate _ _ H)).
  vm_compute. reflexivity.
Defined.

(* ------------------------------------------------------------------- *)
(** *** The calls of one validation *)

Lemma calls_bind {A B} (P : DirCall -> Prop) (x : Dir A) (f : A -> Dir B) :
  Forall P (snd x) -> (forall a, Forall P (snd (f a))) -> Forall P (snd (bind x f)).
Proof.
  intros Hx Hf. unfold bind. destruct x as [[e|a] l]; [done|].
  specialize (Hf a). destruct (f a) as [b l']. cbn [snd] in *.
  apply Forall_app. by split.
Qed.

Lemma calls_call {A} (P : DirCall -> Prop) (dir : Directory) (c : DirCall)
    (answer : string + A) :
  P c -> Forall P (snd (call dir c answer)).
Proof. intros H. unfold call. destruct (credsPresent dir); by repeat constructor. Qed.

Lemma calls_dobMatches (dir : Directory) (pool : list Candidate) (target : DobTarget) :
  Forall (fun c => isSearch c = false) (snd (dobMatches dir pool target)).
Proof.
  induction pool as [|c pool IH]; [constructor|]. cbn [dobMatches].
  apply calls_bind; [by apply calls_call|]. intros det.
  apply calls_bind; [done|]. intros more. constructor.
Qed.

Lemma calls_disambiguate (dir : Directory) (results : list Candidate) (s : string)
    (q : Query) :
  Forall (fun c => isSearch c = false) (snd (disambiguate dir results s q)).
Proof.
  unfold disambiguate. destruct (resolveCandidate _ _ _ _); [constructor|].
  destruct (Str.truthy (dob q)); [|constructor].
  unfold resolveByDob. destruct (parseDobInput (dob q)); [|constructor].
  apply calls_bind; [apply calls_dobMatches|]. intros ms. constructor.
Qed.

Lemma calls_evaluateSingle (dir : Directory) (clk : Clock) (e : string) (c : Candidate) :
  Forall (fun c => isSearch c = false) (snd (evaluateSingle dir clk e c)).
Proof.
  unfold evaluateSingle. apply calls_bind; [by apply calls_call|]. intros cr.
  destruct (negb _); constructor.
Qed.

Lemma calls_evaluatePool (dir : Directory) (clk : Clock) (pool : list Candidate) :
  Forall (fun c => isSearch c = false) (snd (evaluatePool dir clk pool)).
Proof.
  induction pool as [|c pool IH]; [constructor|]. cbn [evaluatePool].
  apply calls_bind; [by apply calls_call|]. intros cr.
  apply calls_bind; [done|]. intros more. constructor.
Qed.

Lemma validateDiscount_calls_shape (dir : Directory) (clk : Clock) (q : Query) :
  credsPresent dir = true ->
  exists rest,
    snd (validateDiscount dir clk q) = CallSearch (sanitizeId (search_id q)) :: rest
    /\ Forall (fun c => isSearch c = false) rest.
Proof.
  unfold validateDiscount. set (sanitized := sanitizeId (search_id q)).
  unfold searchConstituents, call.
  intros ->. destruct (search dir sanitized) as [msg|sr] eqn:Hsr.
  { exists []. by split. }
  rewrite (PoolFacts.bind_inr _ _ sr [CallSearch sanitized] eq_refl).
  cbn [snd app]. eexists. split; [reflexivity|].
  destruct (negb (status sr =? 200)); [constructor|].
  destruct (value sr) as [|v0 vs] eqn:Ev; [constructor|].
  rewrite <- Ev. apply calls_bind; [apply calls_disambiguate|].
  intros [c|]; [apply calls_evaluateSingle|].
  destruct (List.filter _ (value sr)) as [|p0 ps] eqn:Ep; [constructor|].
  rewrite <- Ep. apply calls_bind; [apply calls_evaluatePool|]. intros ev.
  destruct (Str.truthy (expected_bucket q)); [|constructor].
  destruct (List.filter _ ev) as [|x [|y l]]; [constructor| |constructor].
  apply calls_evaluateSingle.
Qed.

(** One validation searches the Directory once, first, and with the
    sanitized id; every later call fetches codes or a record.  Without
    credentials it throws before any call; a rejected search is thrown on;
    a search that answers with another status than 200 gives "error" with
    that status, and one that finds nobody gives "not_found", in both cases
    after this one call. *)
Theorem validateDiscount_searches_once (dir : Directory) (clk : Clock) (q : Query) :
  let sanitized := sanitizeId (search_id q) in
  (credsPresent dir = false -> validateDiscount dir clk q = (inl missingCreds, []))
  /\ (credsPresent dir = true ->
      exists rest,
        snd (validateDiscount dir clk q) = CallSearch sanitized :: rest
        /\ Forall (fun c => isSearch c = false) rest)
  /\ (forall msg, credsPresent dir = true -> search dir sanitized = inl msg ->
        validateDiscount dir clk q = (inl msg, [CallSearch sanitized]))
  /\ (forall sr, credsPresent dir = true -> search dir sanitized = inr sr ->
        (status sr <> 200 ->
         validateDiscount dir clk q
         = (inr (OError StageSearch (status sr) None (body401 sr)),
            [CallSearch sanitized]))
        /\ (status sr = 200 -> value sr = [] ->
            validateDiscount dir clk q
            = (inr (ONotFound "no matches"), [CallSearch sanitized]))).
Proof.
  intros sanitized.
  split; [|split; [apply validateDiscount_calls_shape|]];
    unfold validateDiscount; fold sanitized; unfold searchConstituents, call.
  { by intros ->. }
  split.
  - intros msg -> ->. done.
  - intros sr -> ->.
    rewrite (PoolFacts.bind_inr _ _ sr [CallSearch sanitized] eq_refl).
    split.
    + intros Hs. assert ((status sr =? 200) = false) as -> by lia. done.
    + intros Hs Hv. rewrite Hs, Hv. done.
Qed.

Lemma resolveByDob_unique_match_witness :
  let dir :=
    {| credsPresent := true;
       search := fun _ => Samples.ok [];
       constituentCodes := fun _ => Samples.ok [];
       constituentById := fun id =>
         Samples.ok (if Str.eqb id "bb-2"
                     then Some {| by_ := Some 1990; bm_ := Some 5; bd_ := Some 17 |}
                     else Some {| by_ := Some 1990; bm_ := Some 6; bd_ := Some 17 |}) |} in
  resolveByDob dir [Samples.ann; Samples.ben] "1990-05-17"
  = (inr (Some Samples.ann), [CallById "bb-2"; CallById "bb-3"]).
Proof.
  intros dir.
  refine (proj1 (proj2 (resolveByDob_unique_match dir
                          [Samples.ann; Samples.ben] "1990-05-17"))
            {| ty := 1990; tm := Some 5; td := Some 17 |} _ _ _).
  - vm_compute. reflexivity.
  - reflexivity.
  - intros c _. eexists. reflexivity.
Defined.

Lemma validateDiscount_searches_once_witness :
  validateDiscount Samples.emptyDirectory (Orchestrator.clock Samples.calmWorld)
    Samples.studentQuery
  = (inr (ONotFound "no matches"), [CallSearch "UTS-001"]).
Proof.
  refine (proj2 (proj2 (proj2 (proj2 (validateDiscount_searches_once
            Samples.emptyDirectory (Orchestrator.clock Samples.calmWorld)
            Samples.studentQuery)))
            _ eq_refl eq_refl) eq_refl eq_refl).
Defined.

End CallFacts.

(* ===================================================================== *)
(** ** The public vocabulary, the registry and the status view            *)
(* ===================================================================== *)

Module PublicFacts.
Import Airtable Validator Orchestrator StatusView Conduct StrFacts.

Lemma mapReason_public_vocabulary_aux (internal : string) :
  (forall c, fst (mapReason internal) = Some c -> c ∈ publicVocabulary)
  /\ (fst (mapReason internal) = None -> snd (mapReason internal) = "").
Proof.
  split.
  - intros c. unfold mapReason.
    repeat match goal with
           | |- context [if ?b then _ else _] => destruct b
           end;
      cbn [fst]; intros [= <-] || done;
      apply (bool_decide_unpack _); by vm_compute.
  - unfold mapReason.
    repeat match goal with
           | |- context [if ?b then _ else _] => destruct b
           end; done.
Qed.

(** [mapReason] answers only codes of the public vocabulary; applied to a
    code it has answered it answers the same again, so the status view,
    which maps the stored reason codes once more, shows them unchanged; an
    unknown status gets no code and an empty message; and every status the
    resolver returns has a code, never "unauthorized". *)
Theorem mapReason_public_vocabulary (internal : string) :
  (forall c, fst (mapReason internal) = Some c ->
     c ∈ publicVocabulary /\ mapReason c = mapReason internal)
  /\ (fst (mapReason internal) = None -> mapReason internal = (None, ""))
  /\ forall o : Outcome,
       exists c, fst (mapReason (statusOf o)) = Some c
                 /\ c ∈ ["validated"; "ambiguous"; "not_found"; "mismatch"; "error"].
Proof.
  split; [|split].
  - assert (H : forall code msg, mapReason internal = (Some code, msg) ->
                 code ∈ publicVocabulary /\ mapReason code = (Some code, msg)).
    { unfold mapReason at 1.
      repeat match goal with
             | |- context [if ?b then _ else _] => destruct b
             end;
        intros code msg [= <- <-];
        (split; [apply (bool_decide_unpack _); by vm_compute|by vm_compute]). }
    intros c Hc. destruct (mapReason internal) as [code msg] eqn:E.
    cbn [fst] in Hc. subst code. by apply H.
  - destruct (mapReason_public_vocabulary_aux internal) as [_ H]. intros Hn.
    specialize (H Hn). destruct (mapReason internal) as [code msg].
    cbn [fst snd] in *. by subst.
  - intros o. destruct o as [| |res| |]; cbn [statusOf]; [| |destruct (valid res)| |];
      eexists; (split; [by vm_compute|]); apply (bool_decide_unpack _); by vm_compute.
Qed.

(* ------------------------------------------------------------------- *)
(** *** Triggers *)

(** A trigger starts a run exactly when the token names an organisation
    whose job is not running; it then replaces the job of that
    organisation by a fresh running one and answers with it.  After a
    trigger for an organisation its job is running in any case, and the
    jobs of the other organisations are as before. *)
Theorem trigger_starts_unless_running (nowIso : string) (oid : option string)
    (J : gmap string Job) :
  let resp := fst (fst (trigger nowIso oid J)) in
  let J' := snd (fst (trigger nowIso oid J)) in
  let spawned := snd (trigger nowIso oid J) in
  (forall id, spawned = Some id <->
     oid = Some id /\ forall j, J !! id = Some j -> state j <> Running)
  /\ (forall id, spawned = Some id ->
        J' = <[id := newJob nowIso]> J
        /\ resp = R202 "Validation and generation started" Running nowIso 0 0)
  /\ (spawned = None -> J' = J)
  /\ (forall id, oid = Some id -> exists j, J' !! id = Some j /\ state j = Running)
  /\ (forall k, oid <> Some k -> J' !! k = J !! k)
  /\ (resp = R400 <-> oid = None).
Proof.
  intros resp J' spawned. unfold resp, J', spawned, trigger. clear.
  destruct oid as [id|]; cbn [fst snd].
  2:{ repeat split; try done. intros [? ?]. done. }
  destruct (J !! id) as [existing|] eqn:E.
  - case_bool_decide as Hrun; cbn [fst snd].
    + split. { intros id'. split; [done|]. intros [[= <-] H]. by destruct (H existing). }
      split; [done|]. split; [done|].
      split. { intros id' [= <-]. by exists existing. }
      split; [done|]. done.
    + split.
      { intros id'. split.
        - intros [= <-]. split; [done|]. intros j Hj. rewrite E in Hj. by injection Hj as <-.
        - by intros [[= <-] _]. }
      split. { intros id' [= <-]. done. }
      split; [done|].
      split. { intros id' [= <-]. exists (newJob nowIso). by rewrite lookup_insert_eq. }
      split; [|done]. intros k Hk. apply lookup_insert_ne. congruence.
  - cbn [fst snd]. split.
    { intros id'. split.
      - intros [= <-]. split; [done|]. intros j Hj. by rewrite E in Hj.
      - by intros [[= <-] _]. }
    split. { intros id' [= <-]. done. }
    split; [done|].
    split. { intros id' [= <-]. exists (newJob nowIso). by rewrite lookup_insert_eq. }
    split; [|done]. intros k Hk. apply lookup_insert_ne. congruence.
Qed.

(* ------------------------------------------------------------------- *)
(** *** The jobs of the registry and their view *)

Lemma onUpdate_keeps (j : Job) (id : string) (p : Partial) :
  state (onUpdate j id p) = state j
  /\ startedAt (onUpdate j id p) = startedAt j
  /\ finishedAt (onUpdate j id p) = finishedAt j
  /\ result (onUpdate j id p) = result j.
Proof.
  unfold onUpdate. destruct (updateFirst _ _ _); [|done].
  by destruct (bool_decide _).
Qed.

Lemma job_write_consistent (j j' : Job) :
  job_write j j' -> state j = Running -> consistent j -> consistent j'.
Proof.
  intros Hw Hrun [(_ & Hf & Hr)|[_ Hfin]].
  2:{ rewrite Hrun in Hfin. by destruct (result j). }
  destruct Hw; cbn.
  - left. done.
  - left. done.
  - left. destruct (onUpdate_keeps j id p) as (-> & _ & -> & ->). done.
  - right. split; done.
  - right. split; done.
  - right. split; done.
Qed.

Lemma reachable_consistent (J : gmap string Job) :
  reachable J -> forall id j, J !! id = Some j -> consistent j.
Proof.
  unfold reachable. intros H.
  refine (rtc_ind_r (R := step)
            (fun J => forall id j, J !! id = Some j -> consistent j) ∅ _ _ J H);
    clear J H.
  - intros id j Hl. by rewrite lookup_empty in Hl.
  - intros J1 J2 _ Hstep IH id j Hl.
    destruct Hstep as [J nowIso tid|J k j0 j' Hk Hrun Hw].
    + apply OrchestratorFacts.trigger_lookup in Hl as [Hl| ->]; [by eapply IH|].
      left. done.
    + destruct (decide (k = id)) as [->|Hne].
      * rewrite lookup_insert_eq in Hl. injection Hl as <-.
        eapply job_write_consistent; [exact Hw|exact Hrun|by eapply IH].
      * rewrite lookup_insert_ne in Hl by done. by eapply IH.
Qed.

(** In a registry reached by triggers and runs every job is either
    running, unfinished and without result, or in a terminal state with the
    result of that state and a finishing time.  The status view therefore
    carries a result exactly when the state it shows is "done"; the reason
    of a blocked job and the message of a failed one are never part of it;
    it is the idle view exactly for an organisation without job; and it
    shows one member per checklist entry, each with a code of the public
    vocabulary or none. *)
Theorem status_view_of_reachable_registry (J : gmap string Job) (id : string) :
  reachable J ->
  let v := jobStatus J id in
  (forall j, J !! id = Some j -> consistent j)
  /\ (jv_result v <> None <-> jv_state v = Done)
  /\ (jv_state v = Idle <-> J !! id = None)
  /\ (J !! id = None ->
      v = {| jv_state := Idle; jv_validated := 0; jv_total := 0; jv_members := [];
             jv_result := None |})
  /\ (forall j, J !! id = Some j ->
        jv_state v = state j /\ jv_validated v = progress_validated j
        /\ jv_total v = progress_total j
        /\ v_id <$> jv_members v = e_id <$> default [] (checklist j))
  /\ Forall (fun m => match v_reason_code m with
                      | Some c => c ∈ publicVocabulary
                      | None => v_reason_message m = ""
                      end) (jv_members v).
Proof.
  intros Hreach v.
  assert (Hcons : forall j, J !! id = Some j -> consistent j)
    by (intros j; by apply reachable_consistent).
  split; [exact Hcons|].
  assert (Hmem : forall j,
            Forall (fun m => match v_reason_code m with
                             | Some c => c ∈ publicVocabulary
                             | None => v_reason_message m = ""
                             end) (jv_members (sanitizeJob j))).
  { intros j. cbn [sanitizeJob jv_members]. apply Forall_forall. intros m Hm.
    apply list_elem_of_In, in_map_iff in Hm as (e & <- & _).
    cbn [sanitizeMember v_reason_code v_reason_message].
    destruct (mapReason_public_vocabulary_aux (internalReason e)) as [Hsome Hnone].
    destruct (fst (mapReason (internalReason e))) as [c|] eqn:Ec.
    - by apply Hsome.
    - by rewrite (Hnone eq_refl). }
  unfold v, jobStatus. destruct (J !! id) as [j|] eqn:E.
  - change (default idleJob (Some j)) with j.
    destruct (Hcons j eq_refl) as [(Hrun & _ & Hres)|[_ Hfin]].
    + cbn [sanitizeJob jv_result jv_state jv_validated jv_total jv_members].
      split. { rewrite Hres, Hrun. by split. }
      split. { rewrite Hrun. by split. }
      split; [done|].
      split; [|apply Hmem].
      intros j' [= <-]. split; [done|]. split; [done|]. split; [done|].
      rewrite <- !PoolFacts.map_fmap, map_map. done.
    + cbn [sanitizeJob jv_result jv_state jv_validated jv_total jv_members].
      split.
      { destruct (state j), (result j); try done. }
      split. { split; [|done]. intros Hi. rewrite Hi in Hfin. done. }
      split; [done|].
      split; [|apply Hmem].
      intros j' [= <-]. split; [done|]. split; [done|]. split; [done|].
      rewrite <- !PoolFacts.map_fmap, map_map. done.
  - split; [done|]. split; [done|]. split; [done|]. split; [done|]. constructor.
Qed.

Lemma status_view_of_reachable_registry_witness :
  jv_state (jobStatus (snd (fst (trigger "2025-01-01T00:00:00.000Z" (Some "recS") ∅)))
              "recS") = Running.
Proof.
  set (J := snd (fst (trigger "2025-01-01T00:00:00.000Z" (Some "recS") ∅))).
  assert (Hr : reachable J).
  { unfold reachable, J. eapply rtc_l; [|apply rtc_refl]. apply step_trigger. }
  destruct (status_view_of_reachable_registry J "recS" Hr) as (_ & _ & _ & _ & H & _).
  exact (proj1 (H (newJob "2025-01-01T00:00:00.000Z") eq_refl)).
Defined.

End PublicFacts.

(* ===================================================================== *)
(** ** Runs: how they end, what they write, how they call                 *)
(* ===================================================================== *)

Module ConductFacts.
Import Airtable Validator Orchestrator Shapes Conduct StrFacts RunFacts.

(* ------------------------------------------------------------------- *)
(** *** Rules for [Triple] *)

Lemma triple_ret {A} (P : RunState -> Prop) (a : A) Q E :
  (forall s, P s -> Q a s) -> Triple P (retR a) Q E.
Proof. intros H s Hs. by apply H. Qed.

Lemma triple_throw {A} (P : RunState -> Prop) (msg : string) (Q : A -> RunState -> Prop) E :
  (forall s, P s -> E s) -> Triple P (throwR msg) Q E.
Proof. intros H s Hs. by apply H. Qed.

Lemma triple_top {A} (P : RunState -> Prop) (c : R A) :
  Triple P c (fun _ _ => True) (fun _ => True).
Proof. intros s _. by destruct (fst (fst (c s))). Qed.

Lemma triple_bind {A B} (P : RunState -> Prop) (x : R A) (f : A -> R B)
    (Q' : A -> RunState -> Prop) Q E :
  Triple P x Q' E -> (forall a, Triple (Q' a) (f a) Q E) -> Triple P (bindR x f) Q E.
Proof.
  intros Hx Hf s Hs. rewrite bindR_eq. specialize (Hx s Hs).
  destruct (x s) as [[[e|a] s'] t]; cbn [fst snd] in *; [done|].
  exact (Hf a s' Hx).
Qed.

Lemma triple_tryCatch {A} (P : RunState -> Prop) (c : R A) (h : string -> R A)
    Q (E' : RunState -> Prop) E :
  Triple P c Q E' -> (forall e, Triple E' (h e) Q E) -> Triple P (tryCatch c h) Q E.
Proof.
  intros Hc Hh s Hs. rewrite tryCatch_eq. specialize (Hc s Hs).
  destruct (c s) as [[[e|a] s'] t]; cbn [fst snd] in *; [|done].
  exact (Hh e s' Hc).
Qed.

Lemma triple_emit (P : RunState -> Prop) (e : Event) Q E :
  (forall s, P s -> Q tt s) -> Triple P (emit e) Q E.
Proof. intros H s Hs. by apply H. Qed.

Lemma triple_getState (P : RunState -> Prop) Q E :
  (forall s, P s -> Q s s) -> Triple P getState Q E.
Proof. intros H s Hs. by apply H. Qed.

Lemma triple_modifyJob (P : RunState -> Prop) (f : Job -> Job) Q E :
  (forall s, P s ->
     Q tt {| job := f (job s); store := store s; directory := directory s |}) ->
  Triple P (modifyJob f) Q E.
Proof. intros H s Hs. by apply H. Qed.

Lemma triple_modifyStore (P : RunState -> Prop) (f : Store -> Store) Q E :
  (forall s, P s ->
     Q tt {| job := job s; store := f (store s); directory := directory s |}) ->
  Triple P (modifyStore f) Q E.
Proof. intros H s Hs. by apply H. Qed.

Lemma triple_setDirectory (P : RunState -> Prop) (d : Directory) Q E :
  (forall s, P s -> Q tt {| job := job s; store := store s; directory := d |}) ->
  Triple P (setDirectory d) Q E.
Proof. intros H s Hs. by apply H. Qed.

Lemma triple_liftDir {A} (P : RunState -> Prop) (f : Directory -> Dir A) Q E :
  (forall s, P s ->
     match fst (f (directory s)) with
     | inr a => Q a s
     | inl _ => E s
     end) ->
  Triple P (liftDir f) Q E.
Proof.
  intros H s Hs. specialize (H s Hs). unfold liftDir.
  by destruct (f (directory s)) as [[e|a] calls].
Qed.

(** The last two steps of a run that ends: the three assignments and the
    log line. *)
Lemma triple_finish (P : RunState -> Prop) (st : JobState) (res : JobResult)
    (at_ level event : string) (Q : unit -> RunState -> Prop) E :
  (forall s, P s ->
     Q tt {| job := finish (job s) st res at_; store := store s;
             directory := directory s |}) ->
  Triple P (run _ <- modifyJob (fun j => finish j st res at_); log level event) Q E.
Proof. intros H s Hs. by apply H. Qed.

(* ------------------------------------------------------------------- *)
(** *** Invariants of a run *)

Lemma inv_ret {A} (I : RunState -> Prop) (a : A) : Inv I (retR a).
Proof. by apply triple_ret. Qed.

Lemma inv_throw {A} (I : RunState -> Prop) (msg : string) : Inv I (@throwR A msg).
Proof. by apply triple_throw. Qed.

Lemma inv_emit (I : RunState -> Prop) (e : Event) : Inv I (emit e).
Proof. by apply triple_emit. Qed.

Lemma inv_getState (I : RunState -> Prop) : Inv I getState.
Proof. by apply triple_getState. Qed.

Lemma inv_liftDir {A} (I : RunState -> Prop) (f : Directory -> Dir A) : Inv I (liftDir f).
Proof. apply triple_liftDir. intros s Hs. by destruct (fst (f (directory s))). Qed.

Lemma inv_modifyJob (I : RunState -> Prop) (f : Job -> Job) :
  (forall s, I s -> I {| job := f (job s); store := store s; directory := directory s |}) ->
  Inv I (modifyJob f).
Proof. exact (triple_modifyJob I f (fun _ => I) I). Qed.

Lemma inv_modifyStore (I : RunState -> Prop) (f : Store -> Store) :
  (forall s, I s -> I {| job := job s; store := f (store s); directory := directory s |}) ->
  Inv I (modifyStore f).
Proof. exact (triple_modifyStore I f (fun _ => I) I). Qed.

Lemma inv_setDirectory (I : RunState -> Prop) (d : Directory) :
  (forall s, I s -> I {| job := job s; store := store s; directory := d |}) ->
  Inv I (setDirectory d).
Proof. exact (triple_setDirectory I d (fun _ => I) I). Qed.

Lemma inv_bind {A B} (I : RunState -> Prop) (x : R A) (f : A -> R B) :
  Inv I x -> (forall a, Inv I (f a)) -> Inv I (bindR x f).
Proof. intros Hx Hf. by apply (triple_bind I x f (fun _ => I)). Qed.

Lemma inv_tryCatch {A} (I : RunState -> Prop) (c : R A) (h : string -> R A) :
  Inv I c -> (forall e, Inv I (h e)) -> Inv I (tryCatch c h).
Proof. intros Hc Hh. by apply (triple_tryCatch I c h _ I). Qed.

Ltac inv_step :=
  lazymatch goal with
  | |- Inv _ (retR _) => apply inv_ret
  | |- Inv _ (throwR _) => apply inv_throw
  | |- Inv _ getState => apply inv_getState
  | |- Inv _ (emit _) => apply inv_emit
  | |- Inv _ (liftDir _) => apply inv_liftDir
  | |- Inv _ (modifyJob _) => apply inv_modifyJob
  | |- Inv _ (modifyStore _) => apply inv_modifyStore
  | |- Inv _ (setDirectory _) => apply inv_setDirectory
  | |- Inv _ (bindR _ _) => apply inv_bind; [|intros ?]
  | |- Inv _ (tryCatch _ _) => apply inv_tryCatch; [|intros ?]
  | |- Inv _ (if ?b then _ else _) => destruct b
  | |- Inv _ (match ?x with _ => _ end) => destruct x
  | |- Inv _ _ => solve [auto]
  end.

Lemma inv_loop (I : RunState -> Prop) (w : World) (members : list AirRecord) :
  (forall r, Inv I (memberStep w r)) -> Inv I (runMemberValidationsSequential w members).
Proof.
  intros H. induction members as [|r rest IH]; cbn [runMemberValidationsSequential].
  - apply inv_ret.
  - apply inv_bind; [apply H|]. intros x.
    apply inv_bind; [exact IH|]. intros xs. apply inv_ret.
Qed.

(* ------------------------------------------------------------------- *)
(** *** The writes of a run to its job *)

Lemma steady_write (j0 : Job) (f : Job -> Job) :
  (forall j, job_write j (f j) /\ state (f j) = state j) ->
  forall s, underway j0 s ->
    underway j0 {| job := f (job s); store := store s; directory := directory s |}.
Proof.
  intros Hf s [Hrtc Hrun]. destruct (Hf (job s)) as [Hw Hst]. split; cbn [job].
  - eapply rtc_r; [exact Hrtc|]. by split.
  - by rewrite Hst.
Qed.

Lemma steady_onUpdate (j0 : Job) (id : string) (p : Partial) (s : RunState) :
  underway j0 s ->
  underway j0 {| job := onUpdate (job s) id p; store := store s;
                 directory := directory s |}.
Proof.
  apply (steady_write j0 (fun j => onUpdate j id p)). intros j.
  split; [constructor|apply PublicFacts.onUpdate_keeps].
Qed.

Lemma steady_total (j0 : Job) (n : Z) (s : RunState) :
  underway j0 s ->
  underway j0 {| job := withProgress (job s) (progress_validated (job s)) n;
                 store := store s; directory := directory s |}.
Proof.
  apply (steady_write j0 (fun j => withProgress j (progress_validated j) n)).
  intros j. split; [constructor|done].
Qed.

Lemma steady_checklist (j0 : Job) (l : list Entry) (s : RunState) :
  underway j0 s ->
  underway j0 {| job := withChecklist (job s) l; store := store s;
                 directory := directory s |}.
Proof.
  apply (steady_write j0 (fun j => withChecklist j l)).
  intros j. split; [constructor|done].
Qed.

Ltac steady_side :=
  intros ?;
  first [ apply steady_onUpdate | apply steady_total | apply steady_checklist
        | let Hs := fresh in intros Hs; exact Hs ].

Lemma steady_notify (j0 : Job) (id : string) (p : Partial) :
  Inv (underway j0) (notify id p).
Proof. unfold notify. repeat inv_step. steady_side. Qed.

Lemma steady_memberStep (j0 : Job) (w : World) (r : AirRecord) :
  Inv (underway j0) (memberStep w r).
Proof.
  unfold memberStep, validateWithRefresh, updateMemberValidation, writeMember, log.
  pose proof (steady_notify j0). repeat inv_step; steady_side.
Qed.

Lemma steady_attach (j0 : Job) (w : World) (rec : AirRecord) (filename : string) :
  Inv (underway j0) (attachAgreement w rec filename).
Proof.
  unfold attachAgreement, writeAgreement, writeCreatedDate, log.
  repeat inv_step; steady_side.
Qed.

Lemma steady_fetch (j0 : Job) (w : World) (id : string) :
  Inv (underway j0) (fetchStartupAndMembers w id).
Proof. unfold fetchStartupAndMembers. repeat inv_step. Qed.

Ltac conduct_step :=
  lazymatch goal with
  | |- Triple _ (bindR (modifyJob (fun j => finish _ _ _ _)) _) _ _ =>
      apply triple_finish; intros ? [? ?]; cbn [job];
      eapply rtc_r; [eassumption|split; [assumption|constructor]]
  | |- Triple ?P (bindR ?x ?f) ?Q ?E =>
      apply (triple_bind P x f (fun _ => P) Q E); [change (Inv P x)|intros ?]
  | |- Triple _ (throwR _) _ _ =>
      apply triple_throw; let Hs := fresh in intros ? Hs; exact Hs
  | |- Triple _ (if ?b then _ else _) _ _ => destruct b
  | |- Triple _ (match ?x with _ => _ end) _ _ => destruct x
  end.

Lemma runBody_conduct (j0 : Job) (w : World) (id : string) :
  Triple (underway j0) (runBody w id) (fun _ s => rtc job_step j0 (job s)) (underway j0).
Proof.
  unfold runBody, log.
  pose proof (steady_fetch j0 w id).
  pose proof (inv_loop (underway j0) w) as Hloop.
  pose proof (steady_memberStep j0 w).
  pose proof (steady_attach j0 w).
  repeat conduct_step; repeat inv_step; try steady_side.
  all: by apply Hloop.
Qed.

Lemma job_write_startedAt (j j' : Job) : job_write j j' -> startedAt j' = startedAt j.
Proof. destruct 1; try done. apply PublicFacts.onUpdate_keeps. Qed.

Lemma job_steps_startedAt (j j' : Job) : rtc job_step j j' -> startedAt j' = startedAt j.
Proof.
  induction 1 as [|j j1 j' [_ Hw] _ IH]; [done|].
  rewrite IH. by apply job_write_startedAt.
Qed.

Lemma job_steps_registry (id : string) (j j' : Job) :
  rtc job_step j j' ->
  forall J : gmap string Job, J !! id = Some j -> rtc step J (<[id := j']> J).
Proof.
  induction 1 as [j|j j1 j' [Hrun Hw] _ IH]; intros J Hl.
  - by rewrite insert_id.
  - eapply rtc_l; [by eapply (step_run J id j j1)|].
    specialize (IH (<[id := j1]> J)). rewrite lookup_insert_eq in IH.
    specialize (IH eq_refl). by rewrite insert_insert_eq in IH.
Qed.

(** The writes of a run to its job are writes of the registry's step
    relation, each made while the job is running: a run that starts on the
    running job of its organisation moves the registry along steps, so it
    keeps the registry among the reachable ones; and it never changes
    [startedAt]. *)
Theorem run_follows_registry_steps (w : World) (id : string) (s : RunState)
    (J : gmap string Job) :
  J !! id = Some (job s) -> state (job s) = Running ->
  let j' := job (snd (fst (runJob w id s))) in
  rtc job_step (job s) j'
  /\ rtc step J (<[id := j']> J)
  /\ (reachable J -> reachable (<[id := j']> J))
  /\ startedAt j' = startedAt (job s).
Proof.
  intros Hl Hrun j'.
  assert (Hsteps : rtc job_step (job s) j').
  { unfold j', runJob. rewrite tryCatch_eq.
    pose proof (runBody_conduct (job s) w id s) as Hbody.
    specialize (Hbody (conj (rtc_refl _ _) Hrun)).
    destruct (runBody w id s) as [[[msg|[]] s1] t1]; cbn [fst snd] in *.
    - cbn [log emit modifyJob bindR fst snd job]. destruct Hbody as [Hrtc Hst].
      eapply rtc_r; [exact Hrtc|]. split; [exact Hst|constructor].
    - exact Hbody. }
  pose proof (job_steps_registry id _ _ Hsteps J Hl) as Hreg.
  split; [exact Hsteps|]. split; [exact Hreg|].
  split; [|by apply job_steps_startedAt].
  unfold reachable. intros HJ. by etrans.
Qed.

Lemma run_follows_registry_steps_witness :
  let J := snd (fst (trigger "2025-01-01T00:00:00.000Z" (Some "recS") ∅)) in
  let s := {| job := newJob "2025-01-01T00:00:00.000Z"; store := Samples.store3;
              directory := Samples.emptyDirectory |} in
  reachable (<["recS" := job (snd (fst (runJob Samples.calmWorld "recS" s)))]> J).
Proof.
  intros J s.
  assert (Hl : J !! "recS" = Some (job s)) by (vm_compute; reflexivity).
  destruct (run_follows_registry_steps Samples.calmWorld "recS" s J Hl eq_refl)
    as (_ & _ & H & _).
  apply H. unfold reachable, J. eapply rtc_l; [|apply rtc_refl]. apply step_trigger.
Defined.

(* ------------------------------------------------------------------- *)
(** *** A Directory that answers *)

Lemma dir_total_bind {A B} (x : Dir A) (f : A -> Dir B) :
  (exists a, fst x = inr a) -> (forall a, exists b, fst (f a) = inr b) ->
  exists b, fst (bind x f) = inr b.
Proof.
  intros [a Ha] Hf. destruct x as [[e|a'] l]; cbn [fst] in Ha; [done|].
  injection Ha as ->. unfold bind. destruct (Hf a) as [b Hb].
  destruct (f a) as [r l']. cbn [fst] in *. by exists b.
Qed.

Lemma dir_total_ret {A} (a : A) : exists b, fst (ret a) = inr b.
Proof. by exists a. Qed.

Lemma codes_total (dir : Directory) (id : string) :
  answers dir -> exists r, fst (getConstituentCodes dir id) = inr r.
Proof.
  intros (Hc & _ & Hcodes & _). destruct (Hcodes id) as [r Hr]. exists r.
  unfold getConstituentCodes, call. by rewrite Hc, Hr.
Qed.

Lemma byId_total (dir : Directory) (id : string) :
  answers dir -> exists r, fst (getConstituentById dir id) = inr r.
Proof.
  intros (Hc & _ & _ & Hby). destruct (Hby id) as [r Hr]. exists r.
  unfold getConstituentById, call. by rewrite Hc, Hr.
Qed.

Lemma dobMatches_total (dir : Directory) (pool : list Candidate) (t : DobTarget) :
  answers dir -> exists ms, fst (dobMatches dir pool t) = inr ms.
Proof.
  intros Ha. induction pool as [|c pool IH]; [by eexists|]. cbn [dobMatches].
  apply dir_total_bind; [by apply byId_total|]. intros det.
  apply dir_total_bind; [exact IH|]. intros more. apply dir_total_ret.
Qed.

Lemma evaluatePool_total (dir : Directory) (clk : Clock) (pool : list Candidate) :
  answers dir -> exists ev, fst (evaluatePool dir clk pool) = inr ev.
Proof.
  intros Ha. induction pool as [|c pool IH]; [by eexists|]. cbn [evaluatePool].
  apply dir_total_bind; [by apply codes_total|]. intros cr.
  apply dir_total_bind; [exact IH|]. intros more. apply dir_total_ret.
Qed.

Lemma evaluateSingle_total (dir : Directory) (clk : Clock) (e : string) (c : Candidate) :
  answers dir -> exists o, fst (evaluateSingle dir clk e c) = inr o.
Proof.
  intros Ha. unfold evaluateSingle.
  apply dir_total_bind; [by apply codes_total|]. intros cr.
  destruct (negb _); apply dir_total_ret.
Qed.

Lemma disambiguate_total (dir : Directory) (results : list Candidate) (sid : string)
    (q : Query) :
  answers dir -> exists c, fst (disambiguate dir results sid q) = inr c.
Proof.
  intros Ha. unfold disambiguate.
  destruct (resolveCandidate _ _ _ _); [apply dir_total_ret|].
  destruct (Str.truthy (dob q)); [|apply dir_total_ret].
  unfold resolveByDob. destruct (parseDobInput (dob q)); [|apply dir_total_ret].
  apply dir_total_bind; [by apply dobMatches_total|]. intros ms. apply dir_total_ret.
Qed.

(** Against a Directory whose calls all answer, [validateDiscount]
    returns: a status other than 200 is an answer, not an exception. *)
Lemma validateDiscount_total (dir : Directory) (clk : Clock) (q : Query) :
  answers dir -> exists o, fst (validateDiscount dir clk q) = inr o.
Proof.
  intros Ha. unfold validateDiscount.
  apply dir_total_bind.
  { destruct Ha as (Hc & Hs & _). destruct (Hs (sanitizeId (search_id q))) as [r Hr].
    exists r. unfold searchConstituents, call. by rewrite Hc, Hr. }
  intros sr. destruct (negb _); [apply dir_total_ret|].
  destruct (value sr) as [|v0 vs] eqn:Ev; [apply dir_total_ret|]. rewrite <- Ev.
  apply dir_total_bind; [by apply disambiguate_total|].
  intros [c|]; [by apply evaluateSingle_total|].
  destruct (List.filter _ (value sr)) as [|p0 ps] eqn:Ep; [apply dir_total_ret|].
  rewrite <- Ep. apply dir_total_bind; [by apply evaluatePool_total|]. intros ev.
  destruct (Str.truthy (expected_bucket q)); [|apply dir_total_ret].
  destruct (List.filter _ ev) as [|x [|y l]]; try apply dir_total_ret.
  by apply evaluateSingle_total.
Qed.

(* ------------------------------------------------------------------- *)
(** *** Errors of one member do not abort the loop *)

Lemma triple_pure_pre {A} (P : RunState -> Prop) (phi : Prop) (c : R A) Q E :
  (phi -> Triple P c Q E) -> Triple (fun s => P s /\ phi) c Q E.
Proof. intros H s [Hs Hphi]. by apply H. Qed.

Ltac nothrow_step :=
  lazymatch goal with
  | |- Triple ?P (bindR ?x ?f) ?Q ?E =>
      apply (triple_bind P x f (fun _ => P) Q E); [|intros ?]
  | |- Triple _ (retR _) _ _ => apply triple_ret
  | |- Triple _ (emit _) _ _ => apply triple_emit
  | |- Triple _ (modifyJob _) _ _ => apply triple_modifyJob
  | |- Triple _ (modifyStore _) _ _ => apply triple_modifyStore
  | |- Triple _ (if ?b then _ else _) _ _ => destruct b eqn:?
  | |- Triple _ (match ?x with _ => _ end) _ _ => destruct x eqn:?
  | |- Triple _ _ _ _ => solve [eauto]
  end.

Ltac nothrow_side :=
  let Hs := fresh in
  intros ? Hs; first [exact Hs|split; [exact Hs|reflexivity]].

Lemma nothrow_validate (w : World) (q : Query) :
  devFake w = false ->
  (forall d d', dependable (clock w) d -> refresh w d = Some d' ->
                dependable (clock w) d') ->
  Triple (serviceable w) (validateWithRefresh w q) (fun _ => serviceable w)
    (fun _ => False).
Proof.
  intros Hfake Hrefresh.
  assert (Hdep : forall s, serviceable w s -> dependable (clock w) (directory s)).
  { intros s [Hf|Ha]; [congruence|done]. }
  assert (Hans : forall s, serviceable w s -> answers (directory s)).
  { intros s Hs. apply (Hdep s Hs). }
  assert (Hlift : Triple (serviceable w)
                    (liftDir (fun dir => validateDiscount dir (clock w) q))
                    (fun _ => serviceable w) (fun _ => False)).
  { apply triple_liftDir. intros s Hs.
    destruct (validateDiscount_total (directory s) (clock w) q (Hans s Hs)) as [o Ho].
    by rewrite Ho. }
  unfold validateWithRefresh.
  apply (triple_bind _ _ _ (fun _ => serviceable w)); [exact Hlift|]. intros first.
  destruct (needsRefresh first); [|by apply triple_ret].
  apply (triple_bind _ _ _ (fun _ => serviceable w)); [by apply triple_emit|]. intros _.
  apply (triple_bind _ _ _ (fun a s => serviceable w s /\ a = s));
    [by apply triple_getState|].
  intros s0. destruct (refresh w (directory s0)) as [dir'|] eqn:Er.
  - apply (triple_bind _ _ _ (fun _ => serviceable w)); [|intros _; exact Hlift].
    apply triple_setDirectory. intros s [Hs ->]. right.
    eapply Hrefresh; [|exact Er]. by apply Hdep.
  - apply triple_ret. by intros s [Hs _].
Qed.

Lemma nothrow_memberStep (w : World) (r : AirRecord) :
  (forall d d', dependable (clock w) d -> refresh w d = Some d' ->
                dependable (clock w) d') ->
  Triple (serviceable w) (memberStep w r)
    (fun x s => serviceable w s /\ memberIdOf x = rec_id r) (fun _ => False).
Proof.
  intros Hrefresh. pose proof (fun q H => nothrow_validate w q H Hrefresh) as Hv.
  unfold memberStep, notify, updateMemberValidation, writeMember, log.
  repeat nothrow_step; nothrow_side.
Qed.

Lemma nothrow_loop (w : World) (members : list AirRecord) :
  (forall d d', dependable (clock w) d -> refresh w d = Some d' ->
                dependable (clock w) d') ->
  Triple (serviceable w) (runMemberValidationsSequential w members)
    (fun xs s => serviceable w s /\ memberIdOf <$> xs = rec_id <$> members)
    (fun _ => False).
Proof.
  intros Hrefresh. induction members as [|r rest IH];
    cbn [runMemberValidationsSequential].
  - by apply triple_ret.
  - eapply triple_bind; [by apply nothrow_memberStep|]. intros x.
    apply triple_pure_pre. intros Hx.
    eapply triple_bind; [exact IH|]. intros xs.
    apply triple_ret. intros s [Hs Hxs]. split; [done|].
    by rewrite !fmap_cons, Hx, Hxs.
Qed.

(** The statuses the Directory answers with never abort the loop: with
    credentials present and a Directory whose calls answer and whose alumni
    start dates have an expiry that is a valid date (also after a token
    refresh), or with validation faked, the loop returns one result per
    member, in the order of the members, whatever statuses the answers
    carry and whichever store writes fail.  (An alumni start in the last
    year of the range of dates does abort it: rendering its expiry throws.) *)
Theorem member_errors_do_not_abort (w : World) (members : list AirRecord)
    (s : RunState) :
  serviceable w s ->
  (forall d d', dependable (clock w) d -> refresh w d = Some d' ->
                dependable (clock w) d') ->
  exists results,
    fst (fst (runMemberValidationsSequential w members s)) = inr results
    /\ memberIdOf <$> results = rec_id <$> members
    /\ serviceable w (snd (fst (runMemberValidationsSequential w members s))).
Proof.
  intros Hs Hrefresh. pose proof (nothrow_loop w members Hrefresh s Hs) as H.
  destruct (fst (fst (runMemberValidationsSequential w members s))) as [e|results];
    [done|].
  exists results. by destruct H.
Qed.

Lemma member_errors_do_not_abort_witness :
  exists results,
    fst (fst (runMemberValidationsSequential Samples.calmWorld
                [Samples.fullMemberWithId; Samples.overridden]
                {| job := newJob "2025-01-01T00:00:00.000Z"; store := Samples.store2;
                   directory := Samples.alumniDirectory |})) = inr results
    /\ memberIdOf <$> results = ["recM1"; "recM3"].
Proof.
  destruct (member_errors_do_not_abort Samples.calmWorld
              [Samples.fullMemberWithId; Samples.overridden]
              {| job := newJob "2025-01-01T00:00:00.000Z"; store := Samples.store2;
                 directory := Samples.alumniDirectory |})
    as (results & H1 & H2 & _).
  - right. split; [|intros id r [= <-]; by vm_compute].
    split; [reflexivity|]. repeat split; intros; eexists; reflexivity.
  - intros d d' _ H. discriminate H.
  - exists results. split; [exact H1|exact H2].
Defined.

(* ------------------------------------------------------------------- *)
(** *** With the gates open the job is done *)

Lemma inv_serviceable_attach (w : World) (rec : AirRecord) (filename : string) :
  Inv (serviceable w) (attachAgreement w rec filename).
Proof.
  unfold attachAgreement, writeAgreement, writeCreatedDate, log.
  repeat inv_step; let Hs := fresh in intros ? Hs; exact Hs.
Qed.

Lemma nothrow_attach (w : World) (rec : AirRecord) (filename : string) :
  Triple (serviceable w) (attachAgreement w rec filename) (fun _ => serviceable w)
    (fun _ => False).
Proof.
  intros s Hs. pose proof (inv_serviceable_attach w rec filename s Hs) as Hi.
  by rewrite (OrchestratorFacts.attachAgreement_total w rec filename s) in *.
Qed.

(** When the organisation and its members can be fetched, the gates are
    open, the Directory answers with alumni start dates whose expiry is a
    valid date (or validation is faked), and rendering and caching succeed,
    the run ends in "done" with the stable link and one validation result
    per linked member, in order: no status of the Directory, no failed
    store write of a member and no failed attachment can make it end
    otherwise. *)
Theorem open_gates_reach_done (w : World) (id : string) (s : RunState)
    (f : gmap string FieldVal) :
  fetchStartupFails w = None -> fetchMembersFails w = None ->
  startups (store s) !! id = Some f ->
  let members := listTeamMembersByStartupId (store s) id in
  gatesOpen (gatesOf {| rec_id := id; fields := f |} members) = true ->
  serviceable w s ->
  (forall d d', dependable (clock w) d -> refresh w d = Some d' ->
                dependable (clock w) d') ->
  (forall payload, exists pdf, render w payload = inr pdf) ->
  cacheFails w = None ->
  let j' := job (snd (fst (runJob w id s))) in
  state j' = Done
  /\ exists filename results,
       result j' = ResDone (baseUrl w ++ "/agreement/latest/" ++ token w)
                     filename results
       /\ memberIdOf <$> results = rec_id <$> members.
Proof.
  intros Hf1 Hf2 Hl members Hg Hs Hrefresh Hrender Hcache j'.
  set (Qd := fun (_ : unit) (s' : RunState) =>
         state (job s') = Done
         /\ exists filename results,
              result (job s') = ResDone (baseUrl w ++ "/agreement/latest/" ++ token w)
                                  filename results
              /\ memberIdOf <$> results = rec_id <$> members).
  assert (Hbody : Triple (fun s' => serviceable w s' /\ s' = s) (runBody w id) Qd
                    (fun _ => False)).
  { unfold runBody, log.
    apply (triple_bind _ _ _
             (fun a s' => serviceable w s'
                          /\ a = ({| rec_id := id; fields := f |},
                                  strOr (f !! "Startup Name (or working title)"),
                                  members))).
    { intros s' [Hs' ->]. rewrite (OrchestratorFacts.fetch_ok w id s f Hf1 Hf2 Hl).
      cbn [fst snd]. done. }
    intros a. apply triple_pure_pre. intros ->. cbv beta iota.
    do 4 (nothrow_step; [nothrow_step; nothrow_side|]).
    fold members. rewrite Hg. cbn [negb].
    eapply triple_bind; [by apply nothrow_loop|]. intros results.
    apply triple_pure_pre. intros Hids.
    nothrow_step; [nothrow_step; nothrow_side|].
    apply (triple_bind _ _ _ (fun _ => serviceable w)); [by apply triple_getState|].
    intros sx.
    do 2 (nothrow_step; [nothrow_step; nothrow_side|]).
    destruct (Hrender (Pricing.Main.buildPdfPayload (store sx)
                         (payloadStartupReadFails w) (payloadTeamReadFails w) id))
      as [pdf ->].
    rewrite Hcache.
    nothrow_step; [nothrow_step; nothrow_side|].
    nothrow_step; [apply nothrow_attach|].
    apply triple_finish. intros s' _. unfold Qd. cbn [job state result finish].
    split; [done|]. eexists _, results. by split. }
  specialize (Hbody s (conj Hs eq_refl)).
  unfold j', runJob. rewrite tryCatch_eq.
  destruct (runBody w id s) as [[[msg|[]] s1] t1]; cbn [fst snd] in *; [done|].
  exact Hbody.
Qed.

Lemma open_gates_reach_done_witness :
  state (job (snd (fst (runJob Samples.calmWorld "recS"
                          {| job := newJob "2025-01-01T00:00:00.000Z";
                             store := Samples.store2;
                             directory := Samples.emptyDirectory |})))) = Done.
Proof.
  assert (Hl : startups Samples.store2 !! "recS" = Some Samples.acme) by reflexivity.
  refine (proj1 (open_gates_reach_done Samples.calmWorld "recS"
                   {| job := newJob "2025-01-01T00:00:00.000Z";
                      store := Samples.store2;
                      directory := Samples.emptyDirectory |}
                   Samples.acme eq_refl eq_refl Hl _ _ _ _ eq_refl)).
  - vm_compute. reflexivity.
  - right. split; [|by intros id r [= <-]].
    split; [reflexivity|]. repeat split; intros; eexists; reflexivity.
  - intros d d' _ H. discriminate H.
  - intros payload. by eexists.
Defined.

End ConductFacts.

(* ===================================================================== *)
(** ** Runs: token refreshes and searches                                 *)
(* ===================================================================== *)

Module RefreshFacts.
Import Airtable Validator Orchestrator Shapes Conduct StrFacts RunFacts.

Lemma refreshCount_app (t t' : list Event) :
  refreshCount (t ++ t') = (refreshCount t + refreshCount t')%nat.
Proof. unfold refreshCount. by rewrite List.filter_app, length_app. Qed.

Lemma searchesOf_app (t t' : list Event) :
  searchesOf (t ++ t') = (searchesOf t ++ searchesOf t')%list.
Proof. apply omap_app. Qed.

Lemma quiet_counts (t : list Event) :
  Forall quiet t -> refreshCount t = 0%nat /\ searchesOf t = [].
Proof.
  induction 1 as [|e t He _ [IH1 IH2]]; [done|].
  change (e :: t) with ([e] ++ t)%list. rewrite refreshCount_app, searchesOf_app, IH1, IH2.
  by destruct e.
Qed.

Lemma calls_counts (calls : list DirCall) :
  refreshCount (List.map EvDir calls) = 0%nat.
Proof. induction calls as [|c calls IH]; [done|]. exact IH. Qed.

Lemma calls_no_search (calls : list DirCall) :
  Forall (fun c => isSearch c = false) calls -> searchesOf (List.map EvDir calls) = [].
Proof.
  induction 1 as [|c calls Hc _ IH]; [done|].
  cbn [List.map]. change (EvDir c :: List.map EvDir calls)
    with ([EvDir c] ++ List.map EvDir calls)%list.
  rewrite searchesOf_app, IH. by destruct c.
Qed.

(** The searches of one [validateDiscount]: none without credentials, one
    otherwise, for the sanitized id. *)
Lemma validate_searches (dir : Directory) (clk : Clock) (q : Query) :
  searchesOf (List.map EvDir (snd (validateDiscount dir clk q)))
  = if credsPresent dir then [sanitizeId (search_id q)] else [].
Proof.
  destruct (credsPresent dir) eqn:Hc.
  - destruct (CallFacts.validateDiscount_calls_shape dir clk q Hc) as (rest & -> & Hrest).
    cbn [List.map].
    change (EvDir (CallSearch (sanitizeId (search_id q))) :: List.map EvDir rest)
      with ([EvDir (CallSearch (sanitizeId (search_id q)))] ++ List.map EvDir rest)%list.
    by rewrite searchesOf_app, calls_no_search.
  - unfold validateDiscount, searchConstituents, call. by rewrite Hc.
Qed.

Lemma validateWithRefresh_counts (w : World) (q : Query) (s : RunState) :
  let t := snd (validateWithRefresh w q s) in
  (refreshCount t <= 1)%nat
  /\ (length (searchesOf t) <= 1 + refreshCount t)%nat
  /\ Forall (fun text => text = sanitizeId (search_id q)) (searchesOf t).
Proof.
  assert (Hone : forall dir,
            (length (searchesOf (List.map EvDir (snd (validateDiscount dir (clock w) q))))
             <= 1)%nat
            /\ Forall (fun text => text = sanitizeId (search_id q))
                 (searchesOf (List.map EvDir (snd (validateDiscount dir (clock w) q))))).
  { intros dir. rewrite validate_searches. destruct (credsPresent dir); cbn.
    - split; [lia|]. by repeat constructor.
    - split; [lia|constructor]. }
  intros t. assert (Ht : t = snd (validateWithRefresh w q s)) by reflexivity.
  clearbody t. unfold validateWithRefresh in Ht. rewrite bindR_eq in Ht.
  unfold liftDir at 1 in Ht.
  destruct (Hone (directory s)) as [Hlen1 Hall1].
  destruct (validateDiscount (directory s) (clock w) q) as [[e|first] calls1];
    cbn [fst snd] in *.
  { subst t. rewrite calls_counts. split; [lia|]. split; [lia|done]. }
  destruct (needsRefresh first).
  2:{ cbn [retR fst snd] in Ht. subst t. rewrite app_nil_r, calls_counts.
      split; [lia|]. split; [lia|done]. }
  rewrite bindR_eq in Ht. cbn [emit fst snd] in Ht.
  rewrite bindR_eq in Ht. cbn [getState fst snd] in Ht.
  destruct (refresh w (directory s)) as [dir'|].
  - rewrite bindR_eq in Ht. cbn [setDirectory fst snd] in Ht. unfold liftDir in Ht.
    destruct (Hone dir') as [Hlen2 Hall2]. cbn [directory] in Ht.
    destruct (validateDiscount dir' (clock w) q) as [x calls2]; cbn [fst snd] in *.
    subst t.
    rewrite !refreshCount_app, !searchesOf_app, !calls_counts. cbn [app].
    change (refreshCount [EvRefresh]) with 1%nat. change (refreshCount []) with 0%nat.
    change (searchesOf [EvRefresh]) with (@nil string).
    change (searchesOf []) with (@nil string). cbn [app].
    rewrite length_app. split; [lia|]. split; [lia|]. by apply Forall_app.
  - cbn [retR fst snd] in Ht. subst t.
    rewrite !refreshCount_app, !searchesOf_app, !calls_counts.
    change (refreshCount [EvRefresh]) with 1%nat. change (refreshCount []) with 0%nat.
    change (searchesOf [EvRefresh]) with (@nil string).
    change (searchesOf []) with (@nil string). rewrite !app_nil_r.
    split; [lia|]. split; [lia|done].
Qed.

Lemma emits_quiet_notify (id : string) (p : Partial) : Emits quiet (notify id p).
Proof. unfold notify. emits; done. Qed.

Lemma emits_quiet_update (w : World) (id : string) (o : Outcome) (e : string) :
  Emits quiet (updateMemberValidation w id o e).
Proof. unfold updateMemberValidation, writeMember. emits; done. Qed.

(** One member costs at most one token refresh and at most two searches
    of the Directory, the second only after a refresh; every search is for
    the sanitized id of the member; faked validation calls nothing. *)
Theorem member_refreshes_at_most_once (w : World) (r : AirRecord) (s : RunState) :
  let t := snd (memberStep w r s) in
  (refreshCount t <= 1)%nat
  /\ (length (searchesOf t) <= 1 + refreshCount t)%nat
  /\ Forall (fun text => text = sanitizeId (searchIdOf r)) (searchesOf t)
  /\ (devFake w = true -> refreshCount t = 0%nat /\ directoryCalls t = []).
Proof.
  intros t.
  assert (Hquiet : Forall quiet t ->
            (refreshCount t <= 1)%nat
            /\ (length (searchesOf t) <= 1 + refreshCount t)%nat
            /\ Forall (fun text => text = sanitizeId (searchIdOf r)) (searchesOf t)
            /\ (devFake w = true -> refreshCount t = 0%nat /\ directoryCalls t = [])).
  { intros Hq. destruct (quiet_counts t Hq) as [-> ->]. cbn.
    split; [lia|]. split; [lia|]. split; [constructor|]. intros _. split; [done|].
    clear -Hq. induction Hq as [|e t He _ IH]; [done|].
    unfold directoryCalls in *. cbn. rewrite IH. by destruct e. }
  unfold t, memberStep in *. clear t.
  rewrite bindR_eq in *. cbn [notify emit modifyJob bindR fst snd app] in *.
  set (s0 := {| job := _; store := _; directory := _ |}) in *.
  destruct (Str.truthy (Str.trim (manualOf r))).
  { apply Hquiet. cbn. by repeat constructor. }
  destruct (negb (hasDiscountRequest (expectedOf r))).
  { apply Hquiet. cbn. by repeat constructor. }
  destruct (negb (Str.truthy (searchIdOf r))).
  { apply Hquiet. cbn. by repeat constructor. }
  match goal with
  | |- context [bindR ?x ?k s0] => set (V := x) in *; set (K := k) in *
  end.
  assert (HK : forall res, Emits quiet (K res)).
  { intros res. unfold K, log. pose proof (emits_quiet_update w) as Hu.
    pose proof emits_quiet_notify as Hn. emits; done || auto. }
  destruct (devFake w) eqn:Hfake.
  { apply Hquiet. constructor; [done|]. rewrite bindR_eq. unfold V. cbn [retR fst snd app].
    apply HK. }
  clear Hquiet. rewrite bindR_eq.
  assert (HV : snd (V s0) = (EvLog "debug" "validation.member.start"
                             :: snd (validateWithRefresh w (queryOf r) s0))%list).
  { unfold V. rewrite bindR_eq. reflexivity. }
  pose proof (validateWithRefresh_counts w (queryOf r) s0) as (Hc1 & Hc2 & Hc3).
  assert (Hrest : forall t', Forall quiet t' ->
            let t := (EvUpdate (rec_id r) pending :: snd (V s0) ++ t')%list in
            (refreshCount t <= 1)%nat
            /\ (length (searchesOf t) <= 1 + refreshCount t)%nat
            /\ Forall (fun text => text = sanitizeId (searchIdOf r)) (searchesOf t)
            /\ (false = true -> refreshCount t = 0%nat /\ directoryCalls t = [])).
  { intros t' Hq t. unfold t. rewrite HV.
    change (EvUpdate (rec_id r) pending
            :: (EvLog "debug" "validation.member.start"
                :: snd (validateWithRefresh w (queryOf r) s0)) ++ t')%list
      with ([EvUpdate (rec_id r) pending; EvLog "debug" "validation.member.start"]
            ++ snd (validateWithRefresh w (queryOf r) s0) ++ t')%list.
    destruct (quiet_counts t' Hq) as [Hr' Hs'].
    rewrite !refreshCount_app, !searchesOf_app, Hr', Hs', app_nil_r.
    change (refreshCount [EvUpdate (rec_id r) pending;
                          EvLog "debug" "validation.member.start"]) with 0%nat.
    change (searchesOf [EvUpdate (rec_id r) pending;
                        EvLog "debug" "validation.member.start"]) with (@nil string).
    cbn [app]. split; [lia|]. split; [lia|]. split; [exact Hc3|done]. }
  destruct (V s0) as [[[e|res] s1] t1] eqn:EV; cbn [fst snd] in *.
  - specialize (Hrest [] ltac:(constructor)). cbv zeta in Hrest.
    rewrite app_nil_r in Hrest. exact Hrest.
  - apply (Hrest (snd (K res s1))). apply HK.
Qed.

End RefreshFacts.

(* ===================================================================== *)
(** ** Runs: what they write to the store                                 *)
(* ===================================================================== *)

Module WriteFacts.
Import Airtable Validator Orchestrator Shapes Conduct StrFacts RunFacts.

Lemma validationFields_keys (w : World) (o : Outcome) (e k : string) :
  is_Some (validationFields w o e !! k) -> k ∈ validationKeys.
Proof.
  unfold validationFields. intros H. apply (bool_decide_unpack _).
  repeat match type of H with
         | context [if ?b then _ else _] => destruct b
         | context [match ?x with Some _ => _ | None => _ end] => destruct x
         end;
    repeat (apply lookup_insert_is_Some in H as [<-|[_ H]]; [by vm_compute|]);
    rewrite lookup_empty in H; by destruct H.
Qed.

Lemma Frame_refl (id : string) (linked : list string) (st : Store) :
  Frame id linked st st.
Proof.
  repeat split; try done.
  induction (members st) as [|r l IH]; constructor; done.
Qed.

Lemma Frame_trans (id : string) (linked : list string) (st1 st2 st3 : Store) :
  Frame id linked st1 st2 -> Frame id linked st2 st3 -> Frame id linked st1 st3.
Proof.
  intros (Hp1 & Ho1 & Hk1 & Hd1 & Hm1) (Hp2 & Ho2 & Hk2 & Hd2 & Hm2).
  split; [congruence|]. split.
  { intros k Hk. by rewrite Ho2, Ho1. }
  split. { intros key Hkey. by rewrite Hk2, Hk1. }
  split. { intros k. by rewrite Hd2, Hd1. }
  revert Hm2. generalize (members st3).
  induction Hm1 as [|r r' l l' (Hid & Hun & Hf) _ IH]; intros l3 Hm2.
  - inversion Hm2. constructor.
  - inversion Hm2 as [|r2 r'' l2 l'' (Hid' & Hun' & Hf') Hrest]; subst.
    constructor; [|by apply IH]. split; [congruence|]. split.
    + intros Hn. rewrite Hun' by by rewrite Hid. by apply Hun.
    + intros key Hkey. by rewrite Hf', Hf.
Qed.

Lemma frame_event (id : string) (linked : list string) (st : Store) (e : Event) :
  allowedWrite id linked e -> Frame id linked st (replayEvent st e).
Proof.
  destruct e as [| | | |m written| | | |k atts|k date]; try (intros _; apply Frame_refl).
  - intros [Hm Hkeys]. cbn [replayEvent]. unfold updateMember.
    repeat split; try done. cbn [members].
    induction (members st) as [|r l IH]; cbn [List.map]; constructor; [|exact IH].
    destruct (Str.eqb (rec_id r) m) eqn:E; [|done].
    apply eqb_eq in E. subst m. split; [done|]. split; [done|].
    intros key Hkey. cbn [patch fields]. apply lookup_union_r.
    destruct (written !! key) eqn:Ew; [|done]. exfalso. apply Hkey, Hkeys. by eexists.
  - intros ->. cbn [replayEvent]. unfold updateStartup.
    split; [done|]. cbn [startups members].
    split. { intros k Hk. by apply lookup_alter_ne. }
    split.
    { intros key Hkey. rewrite lookup_alter_eq.
      destruct (startups st !! id) as [f|]; [|done]. cbn.
      apply lookup_union_r, lookup_singleton_ne. intros <-. apply Hkey.
      apply (bool_decide_unpack _). by vm_compute. }
    split. { intros k. apply lookup_alter_is_Some. }
    induction (members st) as [|r l IH]; constructor; done.
  - intros ->. cbn [replayEvent]. unfold updateStartup.
    split; [done|]. cbn [startups members].
    split. { intros k Hk. by apply lookup_alter_ne. }
    split.
    { intros key Hkey. rewrite lookup_alter_eq.
      destruct (startups st !! id) as [f|]; [|done]. cbn.
      apply lookup_union_r, lookup_singleton_ne. intros <-. apply Hkey.
      apply (bool_decide_unpack _). by vm_compute. }
    split. { intros k. apply lookup_alter_is_Some. }
    induction (members st) as [|r l IH]; constructor; done.
Qed.

Lemma frame_replay (id : string) (linked : list string) (t : list Event) (st : Store) :
  Forall (allowedWrite id linked) t -> Frame id linked st (replay t st).
Proof.
  intros H. revert st. induction H as [|e t He _ IH]; intros st.
  - apply Frame_refl.
  - cbn [replay fold_left]. eapply Frame_trans; [by apply frame_event|]. apply IH.
Qed.

Lemma allowed_memberStep (id : string) (linked : list string) (w : World)
    (r : AirRecord) :
  rec_id r ∈ linked -> Emits (allowedWrite id linked) (memberStep w r).
Proof.
  intros Hr.
  unfold memberStep, validateWithRefresh, updateMemberValidation, writeMember, notify, log.
  emits; try done.
  split; [done|]. apply validationFields_keys.
Qed.

Lemma allowed_loop (id : string) (linked : list string) (w : World)
    (members : list AirRecord) :
  (forall r, r ∈ members -> rec_id r ∈ linked) ->
  Emits (allowedWrite id linked) (runMemberValidationsSequential w members).
Proof.
  induction members as [|r rest IH]; intros Hall; cbn [runMemberValidationsSequential].
  - apply emits_ret.
  - apply emits_bind; [apply allowed_memberStep, Hall; by left|]. intros x.
    apply emits_bind; [apply IH; intros r' Hr'; apply Hall; by right|].
    intros xs. apply emits_ret.
Qed.

Lemma allowed_attach (id : string) (linked : list string) (w : World)
    (rec : AirRecord) (filename : string) :
  rec_id rec = id -> Emits (allowedWrite id linked) (attachAgreement w rec filename).
Proof.
  intros Hid. unfold attachAgreement, writeAgreement, writeCreatedDate, log.
  emits; done.
Qed.

Lemma allowed_runJob (w : World) (id : string) (s : RunState) :
  Forall (allowedWrite id (rec_id <$> listTeamMembersByStartupId (store s) id))
    (snd (runJob w id s)).
Proof.
  set (linked := rec_id <$> listTeamMembersByStartupId (store s) id).
  unfold runJob. rewrite tryCatch_eq.
  assert (Hbody : Forall (allowedWrite id linked) (snd (runBody w id s))).
  { unfold runBody. rewrite bindR_eq. unfold fetchStartupAndMembers at 1.
    rewrite bindR_eq. cbn [getState fst snd app].
    destruct (fetchStartupFails w); [constructor|].
    destruct (startups (store s) !! id) as [f|]; [|constructor].
    destruct (fetchMembersFails w); [constructor|].
    cbn [retR throwR fst snd app].
    match goal with
    | |- Forall _ (snd (?k s)) => enough (Emits (allowedWrite id linked) k) as Hk by apply Hk
    end.
    pose proof (allowed_loop id linked w (listTeamMembersByStartupId (store s) id)) as Hl.
    pose proof (allowed_attach id linked w) as Ha.
    unfold log. emits; try done.
    - apply Hl. intros r Hr. unfold linked. apply list_elem_of_fmap. by exists r.
    - by apply Ha. }
  destruct (runBody w id s) as [[[e|[]] s1] t1]; cbn [fst snd] in *; [|done].
  cbn [log emit modifyJob bindR fst snd app]. apply Forall_app. split; [done|].
  by repeat constructor.
Qed.

(** Whatever happens in a run for an organisation, the store it leaves
    differs from the store it found only in the four validation fields of
    members linked to that organisation and in the agreement fields of the
    organisation's own record: the pricing table, the other organisations,
    the members of other organisations, every other field, and the order
    and the ids of the members are untouched. *)
Theorem run_writes_only_its_fields (w : World) (id : string) (s : RunState) :
  Frame id (rec_id <$> listTeamMembersByStartupId (store s) id)
    (store s) (store (snd (fst (runJob w id s)))).
Proof.
  rewrite (replays_runJob w id s). apply frame_replay, allowed_runJob.
Qed.

(* ------------------------------------------------------------------- *)
(** *** The attachment and the validation fields *)

(** The attachment block, when the write succeeds, replaces the list of
    the organisation by the ids of the attachments the fetched record had,
    in their order, followed by the new document: nothing with an id is
    dropped and the new one is last; the creation date is stamped unless
    that second write fails.  When the write fails the store is left as it
    was.  In both cases the block returns. *)
Theorem attachment_is_appended (w : World) (startupRec : AirRecord)
    (filename : string) (s : RunState) (f : gmap string FieldVal) :
  startups (store s) !! rec_id startupRec = Some f ->
  let existing := match get startupRec "Agreement" with
                  | Some (VAttach l) => l
                  | _ => []
                  end in
  let fresh := {| att_id := ""; att_url := baseUrl w ++ "/download/" ++ downloadToken w;
                  att_filename := filename |} in
  let out := attachAgreement w startupRec filename s in
  let after := startups (store (snd (fst out))) !! rec_id startupRec in
  fst (fst out) = inr tt
  /\ (attachFails w <> None -> store (snd (fst out)) = store s)
  /\ (attachFails w = None ->
      exists kept,
        after ≫= (fun f' => f' !! "Agreement") = Some (VAttach (kept ++ [fresh]))
        /\ att_id <$> kept = List.filter Str.truthy (att_id <$> existing)
        /\ Forall (fun a => att_url a = "" /\ att_filename a = "") kept
        /\ after ≫= (fun f' => f' !! "Agreement Created Date")
           = if stampFails w then f !! "Agreement Created Date"
             else Some (VStr (today w))).
Proof.
  intros Hf existing fresh out after.
  split; [apply OrchestratorFacts.attachAgreement_total|].
  unfold after, out, attachAgreement. clear after out. fold existing. fold fresh.
  rewrite tryCatch_eq.
  destruct (attachFails w) as [msg|]; cbn [throwR log emit fst snd].
  { split; [done|]. done. }
  split; [done|]. intros _.
  rewrite bindR_eq. cbn [writeAgreement modifyStore emit bindR fst snd app].
  rewrite bindR_eq.
  set (keep := List.map _ (List.filter _ existing)).
  exists keep. 
  assert (Hkeep : att_id <$> keep = List.filter Str.truthy (att_id <$> existing)
                  /\ Forall (fun a => att_url a = "" /\ att_filename a = "") keep).
  { unfold keep. clear. induction existing as [|a l [IH1 IH2]]; [by split|].
    cbn [List.filter fmap list_fmap]. destruct (Str.truthy (att_id a)) eqn:E.
    - cbn [List.map List.filter fmap list_fmap att_id].
      split; [by rewrite IH1|]. by constructor.
    - by split. }
  destruct (stampFails w); cbn [retR writeCreatedDate modifyStore emit bindR log fst snd
                                 store startups updateStartup].
  - rewrite lookup_alter_eq, Hf. cbn.
    split; [by rewrite lookup_union_l', lookup_singleton_eq|]. 
    split; [apply Hkeep|]. split; [apply Hkeep|].
    apply lookup_union_r. by apply lookup_singleton_ne.
  - rewrite !lookup_alter_eq, Hf. cbn.
    split.
    { rewrite lookup_union_r by by apply lookup_singleton_ne.
      by rewrite lookup_union_l', lookup_singleton_eq. }
    split; [apply Hkeep|]. split; [apply Hkeep|].
    by rewrite lookup_union_l', lookup_singleton_eq.
Qed.

Lemma attachment_is_appended_witness :
  (startups (store (snd (fst (attachAgreement Samples.calmWorld
                                {| rec_id := "recS"; fields := Samples.acme |}
                                "Acme.pdf"
                                {| job := newJob "2025-01-01T00:00:00.000Z";
                                   store := Samples.store1;
                                   directory := Samples.emptyDirectory |}))))
     !! "recS") ≫= (fun f' => f' !! "Agreement Created Date")
  = Some (VStr "2025-01-01").
Proof.
  assert (Hf : startups Samples.store1 !! "recS" = Some Samples.acme) by reflexivity.
  destruct (attachment_is_appended Samples.calmWorld
              {| rec_id := "recS"; fields := Samples.acme |} "Acme.pdf"
              {| job := newJob "2025-01-01T00:00:00.000Z"; store := Samples.store1;
                 directory := Samples.emptyDirectory |} Samples.acme Hf)
    as (_ & _ & H).
  destruct (H eq_refl) as (kept & _ & _ & _ & Hdate). exact Hdate.
Defined.

End WriteFacts.

(* ===================================================================== *)
(** ** Pricing: columns, Day members, the preview                         *)
(* ===================================================================== *)

Module PricingMore.
Import Airtable Validator Pricing Orchestrator Shapes Conduct StrFacts.

(** Every bucket the resolver can derive has a pricing column, the same
    in both servers: the label in position i of the fixed order maps to the
    column in position i. *)
Theorem derived_buckets_have_columns (tz now : Z) (codes : list Code) (b : string) :
  b ∈ inferBucketsFromCodes tz now codes ->
  exists (i : nat) (c : string),
    bucketOrder !! i = Some b /\ columnOrder !! i = Some c
    /\ Main.discountColumnFor b = Some c /\ Gen.discountColumnFor b = Some c.
Proof.
  intros (code & _ & Hl)%BucketFacts.inferBuckets_elem.
  apply BucketFacts.labelOf_range in Hl.
  unfold bucketOrder in Hl.
  repeat (apply elem_of_cons in Hl as [->|Hl];
          [first [ by exists 0%nat; eexists; vm_compute
                 | by exists 1%nat; eexists; vm_compute
                 | by exists 2%nat; eexists; vm_compute
                 | by exists 3%nat; eexists; vm_compute
                 | by exists 4%nat; eexists; vm_compute
                 | by exists 5%nat; eexists; vm_compute ]|]).
  by apply elem_of_nil in Hl.
Qed.

Lemma derived_buckets_have_columns_witness :
  Main.discountColumnFor AlumniOver = Some colAlumniOver.
Proof.
  destruct (derived_buckets_have_columns 0 1735689600000
              [{| description := "Alumni"; inactive := false; date_modified := None;
                  date_added := None; start := None |}] AlumniOver)
    as (i & c & Hi & Hc & Hm & _).
  - apply (bool_decide_unpack _). vm_compute. reflexivity.
  - destruct i as [|[|[|[|[|[|i]]]]]]; try discriminate Hi.
    + injection Hc as <-. exact Hm.
Defined.

(* ------------------------------------------------------------------- *)
(** *** Day members *)

Lemma fold_sum_shift {A} (g : A -> Z) (l : list A) (a : Z) :
  fold_left (fun sum r => sum + g r) l a = a + fold_left (fun sum r => sum + g r) l 0.
Proof.
  revert a. induction l as [|x l IH]; intros a; cbn [fold_left]; [lia|].
  rewrite IH, (IH (0 + g x)). lia.
Qed.

Lemma fold_sum_filter {A} (g : A -> Z) (keep : A -> bool) (l : list A) :
  (forall x, keep x = false -> g x = 0) ->
  fold_left (fun sum r => sum + g r) (List.filter keep l) 0
  = fold_left (fun sum r => sum + g r) l 0.
Proof.
  intros H. induction l as [|x l IH]; [done|]. cbn [List.filter fold_left].
  rewrite (fold_sum_shift g l (0 + g x)). destruct (keep x) eqn:E.
  - cbn [fold_left]. rewrite (fold_sum_shift g _ (0 + g x)). by rewrite IH.
  - rewrite IH, (H x E). lia.
Qed.

(** Day members never contribute to the monthly sum, in either server and
    whatever the pricing table holds in its Day row: leaving them out of
    the team does not change the sum. *)
Theorem day_members_never_contribute (matrix : gmap string PricingRow)
    (team : list AirRecord) :
  (forall r, Main.normaliseType (get r "Membership Type") = Day ->
     Main.memberFee matrix r = None)
  /\ (forall r, Gen.memberType r = Day -> Gen.rateForMember r matrix = 0)
  /\ Main.feeSum matrix
       (List.filter (fun r => negb (Str.eqb (Main.normaliseType (get r "Membership Type"))
                                      Day)) team)
     = Main.feeSum matrix team
  /\ fold_left (fun sum r => sum + Gen.rateForMember r matrix)
       (List.filter (fun r => negb (Str.eqb (Gen.memberType r) Day)) team) 0
     = fold_left (fun sum r => sum + Gen.rateForMember r matrix) team 0.
Proof.
  assert (H1 : forall r, Main.normaliseType (get r "Membership Type") = Day ->
                 Main.memberFee matrix r = None).
  { intros r Hr. unfold Main.memberFee. by rewrite Hr. }
  assert (H2 : forall r, Gen.memberType r = Day -> Gen.rateForMember r matrix = 0).
  { intros r Hr. unfold Gen.rateForMember. by rewrite Hr. }
  split; [exact H1|]. split; [exact H2|]. split.
  - unfold Main.feeSum. apply fold_sum_filter. intros r Hr.
    apply negb_false_iff, eqb_eq in Hr. by rewrite (H1 r Hr).
  - apply fold_sum_filter. intros r Hr.
    apply negb_false_iff, eqb_eq in Hr. by apply H2.
Qed.

(* ------------------------------------------------------------------- *)
(** *** The zero sum in the generation server *)

Lemma Gen_zero_sum_label_witness :
  Gen.calculated_monthly_fee [Samples.fullMember] ∅ = feeWaived.
Proof.
  refine (proj1 (PricingFacts.Gen_zero_sum_label [Samples.fullMember] ∅ _) _).
  - vm_compute. discriminate.
  - constructor. left. vm_compute. reflexivity.
Defined.

(* ------------------------------------------------------------------- *)
(** *** What a validation write means for the price *)

Lemma validationFields_selection (w : World) (o : Outcome) (e : string) :
  validationFields w o e !! "Discount Validated" = Some (VStr (selectionOf o)).
Proof.
  unfold validationFields.
  repeat match goal with
         | |- context [if ?b then _ else _] => destruct b
         | |- context [match ?x with Some _ => _ | None => _ end] => destruct x
         end;
    repeat (rewrite lookup_insert_ne by done); by rewrite lookup_insert_eq.
Qed.

Lemma selection_valid (o : Outcome) :
  Str.eqb (Str.toLowerCase (Str.trim (selectionOf o))) "valid" = validOf o.
Proof.
  unfold selectionOf. destruct (validOf o); [by vm_compute|].
  destruct (qualifiesOtherOf o); [by vm_compute|].
  destruct (Str.eqb (statusOf o) "ambiguous"); by vm_compute.
Qed.

Lemma patch_keeps (w : World) (o : Outcome) (e key : string) (r : AirRecord) :
  key ∉ validationKeys ->
  get (patch (validationFields w o e) r) key = get r key.
Proof.
  intros Hkey. unfold get, patch. cbn [fields]. apply lookup_union_r.
  destruct (validationFields w o e !! key) eqn:E; [|done].
  exfalso. apply Hkey. apply (WriteFacts.validationFields_keys w o e). by eexists.
Qed.

(** The validation write decides the discount: on the record as the write
    leaves it, the generation server takes the discount as validated
    exactly when the resolver's answer was valid, and so does the main
    server unless a manual override says "valid"; the override fields
    themselves and the membership type are not touched by the write. *)
Theorem validation_write_decides_discount (w : World) (o : Outcome) (e : string)
    (r : AirRecord) :
  let r' := patch (validationFields w o e) r in
  let manual :=
    (Str.eqb (Str.toLowerCase (Str.trim (strOr (get r "Manual Discount Check")))) "valid"
     && Str.truthy (Str.trim (strOr (get r "Manual Discount Category"))))%bool in
  Gen.validationIsValid r' = validOf o
  /\ Main.isDiscountValidated r' = (manual || validOf o)%bool
  /\ get r' "Manual Discount Check" = get r "Manual Discount Check"
  /\ get r' "Manual Discount Category" = get r "Manual Discount Category"
  /\ get r' "Membership Type" = get r "Membership Type"
  /\ getField r' "Discount Validated" = selectionOf o
  /\ selectionOf o ∈ ["Valid"; "Qualifies for Other"; "Ambiguous"; "Invalid"].
Proof.
  intros r' manual.
  assert (Hsel : get r' "Discount Validated" = Some (VStr (selectionOf o))).
  { unfold r', get, patch. cbn [fields].
    apply lookup_union_Some_l, validationFields_selection. }
  assert (Hk : forall key, key ∉ validationKeys -> get r' key = get r key)
    by (intros key; apply patch_keeps).
  assert (Hn : forall key, bool_decide (key ∈ validationKeys) = false ->
                 key ∉ validationKeys)
    by (intros key; apply bool_decide_eq_false).
  assert (H1 : get r' "Manual Discount Check" = get r "Manual Discount Check")
    by (apply Hk, Hn; by vm_compute).
  assert (H2 : get r' "Manual Discount Category" = get r "Manual Discount Category")
    by (apply Hk, Hn; by vm_compute).
  assert (H3 : get r' "Membership Type" = get r "Membership Type")
    by (apply Hk, Hn; by vm_compute).
  assert (Hf : getField r' "Discount Validated" = selectionOf o).
  { unfold getField. by rewrite Hsel. }
  split.
  { unfold Gen.validationIsValid, fieldStr. rewrite Hf. apply selection_valid. }
  split.
  { unfold Main.isDiscountValidated. rewrite H1, H2, Hsel. fold manual.
    rewrite PricingFacts.strOr_VStr, selection_valid. by destruct manual. }
  split; [done|]. split; [done|]. split; [done|]. split; [done|].
  apply (bool_decide_unpack _). unfold selectionOf.
  destruct (validOf o); [by vm_compute|].
  destruct (qualifiesOtherOf o); [by vm_compute|].
  destruct (Str.eqb (statusOf o) "ambiguous"); by vm_compute.
Qed.

(* ------------------------------------------------------------------- *)
(** *** The preview and the agreement *)

Lemma previewRow_settled (matrix : gmap string PricingRow) (r : AirRecord) :
  Preview.settled matrix r = true ->
  Main.memberFee matrix r = Some (Preview.row_appliedRate (Preview.previewRow matrix r)).
Proof.
  unfold Preview.settled, Main.memberFee, Preview.previewRow.
  cbn [Preview.row_appliedRate].
  intros [Hday Hrest]%andb_true_iff. apply negb_true_iff in Hday. rewrite Hday.
  destruct (Main.isDiscountValidated r); [|done]. cbn [negb orb] in Hrest.
  destruct (Main.discountColumnFor (Main.effectiveDiscountCategory r)) as [c|];
    cbn [mbind option_bind] in *; [|done].
  destruct (discounts _ !! c) as [v|]; [|done]. cbn [fmap option_fmap option_map].
  apply negb_true_iff in Hrest. by rewrite Hrest.
Qed.

(** The pricing preview and the fee of the agreement.  They give the same
    sum when no submitted member is a Day member and every validated
    discount has a rate that is not zero in its column.  They differ on a
    validated discount whose rate is zero: the agreement charges nothing,
    the preview falls back to the base rate; and on a Day member: the
    agreement leaves it out, the preview charges it from the Day row, the
    rate of its validated discount column when that rate is there and not
    zero, the base rate of the row otherwise. *)
Theorem preview_and_agreement (matrix : gmap string PricingRow) :
  (forall team,
     Forall (fun r => asOne (get r "New onboarding form submitted") = true ->
                      Preview.settled matrix r = true) team ->
     snd (Preview.pricingPreview matrix team)
     = Main.feeSum matrix
         (List.filter (fun r => asOne (get r "New onboarding form submitted")) team))
  /\ (forall r c,
        Main.normaliseType (get r "Membership Type") <> Day ->
        Main.isDiscountValidated r = true ->
        Main.discountColumnFor (Main.effectiveDiscountCategory r) = Some c ->
        discounts (default Main.defaultRow
                     (matrix !! Main.normaliseType (get r "Membership Type"))) !! c
        = Some 0 ->
        Main.memberFee matrix r = Some 0
        /\ Preview.row_appliedRate (Preview.previewRow matrix r)
           = Preview.row_base (Preview.previewRow matrix r)
        /\ Preview.row_appliedFrom (Preview.previewRow matrix r) = c)
  /\ (forall r,
        Main.normaliseType (get r "Membership Type") = Day ->
        let row := default Main.defaultRow (matrix !! Day) in
        let applied := Preview.row_appliedRate (Preview.previewRow matrix r) in
        Main.memberFee matrix r = None
        /\ (Main.isDiscountValidated r = false -> applied = base row)
        /\ (Main.discountColumnFor (Main.effectiveDiscountCategory r) = None ->
            applied = base row)
        /\ (forall c,
              Main.isDiscountValidated r = true ->
              Main.discountColumnFor (Main.effectiveDiscountCategory r) = Some c ->
              applied = match discounts row !! c with
                        | Some v => if v =? 0 then base row else v
                        | None => base row
                        end)).
Proof.
  split; [|split].
  - intros team Hall. unfold Preview.pricingPreview, Main.feeSum. cbn [snd].
    induction Hall as [|r team Hr _ IH]; [done|]. cbn [List.filter].
    destruct (asOne (get r "New onboarding form submitted")); [|exact IH].
    cbn [List.map fold_left].
    rewrite (fold_sum_shift _ _ (0 + _)),
      (fold_sum_shift (fun r => default 0 (Main.memberFee matrix r)) _ (0 + _)).
    rewrite IH, (previewRow_settled matrix r (Hr eq_refl)). done.
  - intros r c Hday Hv Hc Hrate. apply eqb_neq in Hday.
    unfold Main.memberFee, Preview.previewRow.
    cbn [Preview.row_appliedRate Preview.row_base Preview.row_appliedFrom].
    rewrite Hday, Hv, Hc. cbn [mbind option_bind]. rewrite Hrate. done.
  - intros r Hday row applied. unfold applied, Main.memberFee, Preview.previewRow.
    cbn [Preview.row_appliedRate]. rewrite Hday. fold row.
    split; [done|]. split; [by intros ->|]. split.
    + intros ->. by destruct (Main.isDiscountValidated r).
    + intros c -> ->. cbn [mbind option_bind]. by destruct (discounts row !! c).
Qed.

(** A validated Day member: the agreement leaves it out, the preview
    charges the rate of its discount column. *)
Example preview_charges_validated_day_member :
  let matrix : gmap string PricingRow :=
    {[ Day := {| base := 5000; discounts := {[ colCurrentStudent := 2500 ]} |} ]} in
  let r := {| rec_id := "recM4";
              fields := {[ "Membership Type" := VStr "Day";
                           "Discount Category" := VStr "Current UTS Student";
                           "Discount Validated" := VStr "Valid";
                           "New onboarding form submitted" := VBool true ]} |} in
  Main.memberFee matrix r = None
  /\ Main.feeSum matrix [r] = 0
  /\ Preview.pricingPreview matrix [r]
     = ([Preview.previewRow matrix r], 2500)
  /\ Preview.row_appliedFrom (Preview.previewRow matrix r) = colCurrentStudent.
Proof. by vm_compute. Qed.

Lemma preview_and_agreement_witness :
  let matrix : gmap string PricingRow :=
    {[ Full := {| base := 500; discounts := {[ colCurrentStudent := 0 ]} |} ]} in
  let r := {| rec_id := "recM1";
              fields := <["Discount Validated" := VStr "Valid"]>
                          (fields Samples.fullMember) |} in
  Main.memberFee matrix r = Some 0
  /\ Preview.row_appliedRate (Preview.previewRow matrix r)
     = Preview.row_base (Preview.previewRow matrix r)
  /\ Preview.row_appliedFrom (Preview.previewRow matrix r) = colCurrentStudent.
Proof.
  intros matrix r.
  refine (proj1 (proj2 (preview_and_agreement matrix)) r colCurrentStudent _ _ _ _).
  - vm_compute. discriminate.
  - vm_compute. reflexivity.
  - vm_compute. reflexivity.
  - vm_compute. reflexivity.
Defined.

End PricingMore.

(* ===================================================================== *)
(** ** The cache of rendered documents                                    *)
(* ===================================================================== *)

Module DownloadFacts.
Import Downloads.

(** A link serves one download.  Once the stream of a download has
    closed, and likewise once a request has found the link expired or
    unknown, every later request for the token is answered 410; a request
    is served only from an entry that has not expired, with the file and
    the name of that entry; and no request touches the entries of other
    tokens. *)
Theorem download_is_single_use (nowMs laterMs : Z) (token : string)
    (T : gmap string TokenEntry) :
  let a := fst (download nowMs token T) in
  let T1 := snd (download nowMs token T) in
  fst (download laterMs token (closeStream token T1)) = Expired410
  /\ (a = Expired410 -> fst (download laterMs token T1) = Expired410)
  /\ (forall name path, a = Streaming name path ->
        exists e, T !! Str.trim token = Some e /\ nowMs <= expiresAt e
                  /\ name = filename e /\ path = filePath e /\ T1 = T)
  /\ (forall k, k <> Str.trim token ->
        T1 !! k = T !! k /\ closeStream token T1 !! k = T !! k).
Proof.
  intros a T1. unfold a, T1, download, closeStream. clear a T1.
  split. { by rewrite lookup_delete_eq. }
  destruct (T !! Str.trim token) as [e|] eqn:E.
  - destruct (expiresAt e <? nowMs) eqn:Ex; cbn [fst snd].
    + split. { intros _. by rewrite lookup_delete_eq. }
      split; [done|]. intros k Hk. by rewrite !lookup_delete_ne.
    + split; [done|]. split.
      { intros name path [= <- <-]. exists e. repeat split; try done. lia. }
      intros k Hk. by rewrite lookup_delete_ne.
  - cbn [fst snd]. split. { intros _. by rewrite E. }
    split; [done|]. intros k Hk. by rewrite lookup_delete_ne.
Qed.

(** A link lives at least thirty seconds, whatever lifetime the request
    or the environment asks for, and exactly its lifetime: a token issued
    now is served until the lifetime has passed and answered 410
    afterwards. *)
Theorem issued_link_lifetime (nowMs laterMs : Z) (ttlSeconds env : option Z)
    (token path name : string) (T : gmap string TokenEntry) :
  Str.trim token = token ->
  let ttl := ttlOf ttlSeconds (URL_TTL_SECONDS env) in
  let T1 := issue nowMs ttl token path name T in
  30 <= ttl
  /\ (fst (download laterMs token T1) = Streaming name path
      <-> laterMs <= nowMs + ttl * 1000)
  /\ (laterMs <= nowMs + 30000 -> fst (download laterMs token T1) = Streaming name path).
Proof.
  intros Htrim ttl T1.
  assert (Httl : 30 <= ttl) by (unfold ttl, ttlOf; lia).
  assert (Hiff : fst (download laterMs token T1) = Streaming name path
                 <-> laterMs <= nowMs + ttl * 1000).
  { unfold download, T1, issue. rewrite Htrim, lookup_insert_eq. cbn [expiresAt].
    destruct (nowMs + ttl * 1000 <? laterMs) eqn:E; cbn [fst filename filePath].
    - split; [done|lia].
    - split; [lia|done]. }
  split; [done|]. split; [done|]. intros H. apply Hiff. lia.
Qed.

Lemma issued_link_lifetime_witness :
  fst (download 1735689620000 "00ff"
         (issue 1735689600000 (ttlOf (Some 5) (URL_TTL_SECONDS None)) "00ff"
            "/tmp/pdf-cache/00ff.pdf" "Acme.pdf" ∅))
  = Streaming "Acme.pdf" "/tmp/pdf-cache/00ff.pdf".
Proof.
  refine (proj2 (proj2 (issued_link_lifetime 1735689600000 1735689620000 (Some 5) None
                          "00ff" "/tmp/pdf-cache/00ff.pdf" "Acme.pdf" ∅ eq_refl)) _).
  lia.
Defined.

(** The periodic cleanup keeps exactly the entries that have not expired,
    and it is invisible to downloads: at the time of the cleanup or later,
    a request is answered the same whether or not the cleanup ran. *)
Theorem sweep_is_invisible (sweepMs nowMs : Z) (token : string)
    (T : gmap string TokenEntry) :
  sweepMs <= nowMs ->
  (forall k e, sweep sweepMs T !! k = Some e <-> T !! k = Some e /\ sweepMs <= expiresAt e)
  /\ fst (download nowMs token (sweep sweepMs T)) = fst (download nowMs token T).
Proof.
  intros Hle.
  assert (Hsw : forall k e, sweep sweepMs T !! k = Some e
                            <-> T !! k = Some e /\ sweepMs <= expiresAt e).
  { intros k e. unfold sweep. rewrite map_lookup_filter_Some. cbn [snd]. 
    split; intros [? ?]; (split; [done|lia]). }
  split; [exact Hsw|].
  unfold download.
  destruct (sweep sweepMs T !! Str.trim token) as [e|] eqn:E.
  - apply Hsw in E as [-> He]. by destruct (expiresAt e <? nowMs).
  - destruct (T !! Str.trim token) as [e|] eqn:E'; [|done].
    destruct (expiresAt e <? nowMs) eqn:Ex; [done|].
    assert (sweep sweepMs T !! Str.trim token = Some e) as Hc
      by (apply Hsw; split; [done|lia]).
    congruence.
Qed.

Lemma sweep_is_invisible_witness :
  fst (download 20 "t" (sweep 10 {[ "t" := {| filePath := "p"; expiresAt := 5;
                                              filename := "n" |} ]}))
  = Expired410.
Proof.
  destruct (sweep_is_invisible 10 20 "t"
              {[ "t" := {| filePath := "p"; expiresAt := 5; filename := "n" |} ]}
              ltac:(lia)) as [_ H].
  rewrite H. vm_compute. reflexivity.
Defined.

End DownloadFacts.

(* ===================================================================== *)
(** ** Subscription keys and progress                                     *)
(* ===================================================================== *)

Module RotationFacts.
Import Validator Transport.

Lemma tryKeys_answer {A} (once : string -> string + Resp A) (rest : list string) :
  forall (k : string) (r : Resp A) (used : list string),
    tryKeys once k rest = (inr r, used) ->
    exists before last tail,
      used = (before ++ [last])%list /\ (k :: rest = used ++ tail)%list
      /\ once last = inr r
      /\ Forall (fun k' => exists r', once k' = inr r' /\ keyRejected (status r') = true)
           before
      /\ (keyRejected (status r) = true -> tail = []).
Proof.
  induction rest as [|k' rest' IH]; intros k r used H; cbn [tryKeys] in H.
  - destruct (once k) as [e|r0] eqn:Ek; [done|].
    assert (r0 = r /\ used = [k]) as [-> ->]
      by (destruct (keyRejected (status r0)); by injection H as <- <-).
    exists [], k, []. repeat split; done || constructor.
  - destruct (once k) as [e|r0] eqn:Ek; [done|].
    destruct (keyRejected (status r0)) eqn:Er.
    + destruct (tryKeys once k' rest') as [x used'] eqn:Et. injection H as -> <-.
      destruct (IH k' r used' Et) as (before & last & tail & -> & Hk & Hl & Hb & Ht).
      exists (k :: before), last, tail. split; [done|].
      split. { cbn [app]. by rewrite Hk. }
      split; [done|]. split; [|done].
      constructor; [by exists r0|done].
    + injection H as <- <-. exists [], k, (k' :: rest').
      split; [done|]. split; [done|]. split; [done|]. split; [constructor|].
      intros Hr. congruence.
Qed.

Lemma tryKeys_used {A} (once : string -> string + Resp A) (rest : list string) :
  forall k, exists tail, (k :: rest = snd (tryKeys once k rest) ++ tail)%list.
Proof.
  induction rest as [|k' rest' IH]; intros k; cbn [tryKeys].
  - destruct (once k) as [e|r0]; [by exists []|].
    destruct (keyRejected (status r0)); by exists [].
  - destruct (once k) as [e|r0]; [by exists (k' :: rest')|].
    destruct (keyRejected (status r0)); [|by exists (k' :: rest')].
    destruct (IH k') as [tail Ht].
    destruct (tryKeys once k' rest') as [x used']. cbn [snd] in *.
    exists tail. cbn [app]. by rewrite Ht.
Qed.

(** Key rotation.  [httpGet] tries the subscription keys in the order of
    the list, an initial part of it and no entry twice; the answer it
    returns is the answer to the last key tried, every key before it
    having been answered 401 or 403; and an answer of 401 or 403 is only
    returned when every key of the list has been tried. *)
Theorem httpGet_rotates_keys {A} (once : string -> string + Resp A)
    (keys : list string) :
  keys <> [] ->
  (exists tail, (keys = snd (httpGet once keys) ++ tail)%list)
  /\ forall r used,
       httpGet once keys = (inr r, used) ->
       exists before last tail,
         used = (before ++ [last])%list /\ (keys = used ++ tail)%list
         /\ once last = inr r
         /\ Forall (fun k' => exists r', once k' = inr r'
                                         /\ keyRejected (status r') = true) before
         /\ (keyRejected (status r) = true -> tail = []).
Proof.
  intros Hne. destruct keys as [|k rest]; [done|]. cbn [httpGet].
  split; [apply tryKeys_used|]. intros r used. apply tryKeys_answer.
Qed.

Lemma httpGet_rotates_keys_witness :
  exists tail,
    (["old"; "new"; "spare"]
     = snd (httpGet (fun k => if Str.eqb k "new"
                              then Samples.ok [Samples.ann]
                              else inr {| status := 401; value := []; body401 := true |})
              ["old"; "new"; "spare"]) ++ tail)%list.
Proof.
  refine (proj1 (httpGet_rotates_keys _ ["old"; "new"; "spare"] _)). discriminate.
Defined.

End RotationFacts.

Module ProgressFacts.
Import Airtable Validator Orchestrator Shapes Conduct StrFacts RunFacts ConductFacts.

Lemma within_onUpdate (n : Z) (id : string) (p : Partial) (s : RunState) :
  progressWithin n s ->
  progressWithin n {| job := onUpdate (job s) id p; store := store s;
                      directory := directory s |}.
Proof.
  intros [[H0 H1] Ht]. unfold progressWithin. cbn [job].
  destruct (OrchestratorFacts.onUpdate_progress (job s) id p H1) as (Ha & Hb & Hc & _).
  rewrite Hc. split; [lia|done].
Qed.

Ltac within_side :=
  intros ?;
  first [ apply within_onUpdate
        | let Hs := fresh in intros Hs; exact Hs ].

Lemma within_notify (n : Z) (id : string) (p : Partial) :
  Inv (progressWithin n) (notify id p).
Proof. unfold notify. repeat inv_step. within_side. Qed.

Lemma within_memberStep (n : Z) (w : World) (r : AirRecord) :
  Inv (progressWithin n) (memberStep w r).
Proof.
  unfold memberStep, validateWithRefresh, updateMemberValidation, writeMember, log.
  pose proof (within_notify n). repeat inv_step; within_side.
Qed.

Lemma within_attach (n : Z) (w : World) (rec : AirRecord) (filename : string) :
  Inv (progressWithin n) (attachAgreement w rec filename).
Proof.
  unfold attachAgreement, writeAgreement, writeCreatedDate, log.
  repeat inv_step; within_side.
Qed.

Ltac within_step :=
  lazymatch goal with
  | |- Triple ?P (bindR ?x ?f) ?Q ?E =>
      apply (triple_bind P x f (fun _ => P) Q E); [change (Inv P x)|intros ?]
  | |- Triple _ (throwR _) _ _ =>
      apply triple_throw; let Hs := fresh in intros ? Hs; eauto
  | |- Triple _ (if ?b then _ else _) _ _ => destruct b
  | |- Triple _ (match ?x with _ => _ end) _ _ => destruct x
  end.

(** The progress of a run that starts on a fresh job: from the first
    write on, the counter of validated members is between zero and the
    total, and the total is the number of linked members; so it is at the
    end, whatever the end is. *)
Theorem run_progress_within_total (w : World) (id : string) (st : Store)
    (dir : Directory) (nowIso : string) :
  let j' := job (fst (execute w id st dir (newJob nowIso))) in
  0 <= progress_validated j' <= progress_total j'
  /\ (progress_total j' = 0
      \/ progress_total j' = Z.of_nat (length (listTeamMembersByStartupId st id))).
Proof.
  intros j'. unfold j'. rewrite OrchestratorFacts.execute_eq. cbn [fst].
  set (s := {| job := newJob nowIso; store := st; directory := dir |}).
  set (n := Z.of_nat (length (listTeamMembersByStartupId st id))).
  set (Either := fun s' : RunState => progressWithin 0 s' \/ progressWithin n s').
  assert (Hbody : Triple (fun s' => progressWithin 0 s' /\ store s' = st)
                    (runBody w id) (fun _ => Either) Either).
  { unfold runBody, log.
    apply (triple_bind _ _ _
             (fun a s' => progressWithin 0 s'
                          /\ snd a = listTeamMembersByStartupId st id)).
    { intros s' [Hs' Hst]. unfold fetchStartupAndMembers. rewrite bindR_eq.
      cbn [getState fst snd]. rewrite Hst.
      destruct (fetchStartupFails w); [by left|].
      destruct (startups st !! id); [|by left].
      destruct (fetchMembersFails w); [by left|]. by split. }
    intros [[rec name] members]. apply triple_pure_pre. cbn [snd]. intros ->.
    apply (triple_bind _ _ _ (fun _ => progressWithin 0)); [by apply triple_emit|].
    intros _.
    apply (triple_bind _ _ _ (fun _ => progressWithin n)).
    { apply triple_modifyJob. intros s' [[H0 H1] Ht]. unfold progressWithin.
      cbn [job withProgress progress_validated progress_total]. fold n.
      split; [|done]. unfold n. lia. }
    intros _.
    assert (Hweak : forall (c : R unit),
              Triple (progressWithin n) c (fun _ => progressWithin n) (progressWithin n) ->
              Triple (progressWithin n) c (fun _ => Either) Either).
    { intros c Hc s' Hs'. specialize (Hc s' Hs').
      destruct (fst (fst (c s'))); by right. }
    apply Hweak.
    pose proof (inv_loop (progressWithin n) w) as Hloop.
    pose proof (within_memberStep n w).
    pose proof (within_attach n w).
    repeat within_step; repeat inv_step; try within_side.
    all: try (intros ? ?; assumption).
    all: try by apply Hloop.
    all: try (apply triple_finish; intros ? Hs'; exact Hs'). }
  assert (Hs : progressWithin 0 s /\ store s = st) by (split; [by split|done]).
  specialize (Hbody s Hs). unfold runJob. rewrite tryCatch_eq.
  destruct (runBody w id s) as [[[msg|[]] s1] t1]; cbn [fst snd] in *.
  - cbn [log emit modifyJob bindR fst snd job finish progress_validated progress_total].
    destruct Hbody as [[H1 H2]|[H1 H2]]; (split; [done|]); [by left|by right].
  - destruct Hbody as [[H1 H2]|[H1 H2]]; (split; [done|]); [by left|by right].
Qed.

End ProgressFacts.

(* ===================================================================== *)
(** ** The run: which failures end it                                     *)
(* ===================================================================== *)

Module FailureFacts.
Import Airtable Validator Orchestrator Shapes Conduct StrFacts RunFacts.

(* ------------------------------------------------------------------- *)
(** *** The loop, member by member *)

Lemma loop_cons (w : World) (r : AirRecord) (rest : list AirRecord) (s : RunState) :
  runMemberValidationsSequential w (r :: rest) s
  = match memberStep w r s with
    | (inl e, s1, t1) => (inl e, s1, t1)
    | (inr x, s1, t1) =>
        match runMemberValidationsSequential w rest s1 with
        | (inl e, s2, t2) => (inl e, s2, (t1 ++ t2)%list)
        | (inr xs, s2, t2) => (inr (x :: xs), s2, (t1 ++ t2)%list)
        end
    end.
Proof.
  cbn [runMemberValidationsSequential]. rewrite bindR_eq.
  destruct (memberStep w r s) as [[[e|x] s1] t1]; [done|].
  rewrite bindR_eq.
  destruct (runMemberValidationsSequential w rest s1) as [[[e|xs] s2] t2]; [done|].
  cbn [retR fst snd]. by rewrite app_nil_r.
Qed.

(** The loop throws exactly when the step of some member throws after
    the steps of the members before it have returned; the loop then ends
    in the state that step left. *)
Lemma loop_throws (w : World) (members : list AirRecord) (s0 : RunState)
    (msg : string) (s2 : RunState) :
  (fst (fst (runMemberValidationsSequential w members s0)) = inl msg
   /\ snd (fst (runMemberValidationsSequential w members s0)) = s2)
  <-> exists pre r post xs,
        members = (pre ++ r :: post)%list
        /\ fst (fst (runMemberValidationsSequential w pre s0)) = inr xs
        /\ let s1 := snd (fst (runMemberValidationsSequential w pre s0)) in
           fst (fst (memberStep w r s1)) = inl msg
           /\ snd (fst (memberStep w r s1)) = s2.
Proof.
  revert s0. induction members as [|m members IH]; intros s0.
  { split; [by intros [? _]|]. intros (pre & r & post & xs & H & _). by destruct pre. }
  rewrite loop_cons. split.
  - destruct (memberStep w m s0) as [[[e|x] s1] t1] eqn:Em.
    + cbn [fst snd]. intros [[= ->] ->]. exists [], m, members, [].
      split; [done|]. split; [done|]. cbn [runMemberValidationsSequential retR fst snd].
      by rewrite Em.
    + intros H.
      assert (H' : fst (fst (runMemberValidationsSequential w members s1)) = inl msg
                   /\ snd (fst (runMemberValidationsSequential w members s1)) = s2).
      { destruct (runMemberValidationsSequential w members s1) as [[[e|xs] sb] tb];
          cbn [fst snd] in *; destruct H as [H1 H2]; [done|discriminate H1]. }
      apply IH in H' as (pre & r & post & xs & -> & Hpre & Hstep).
      exists (m :: pre), r, post, (x :: xs). split; [done|].
      cbn [app]. rewrite loop_cons, Em.
      destruct (runMemberValidationsSequential w pre s1) as [[[e|xs'] sb] tb];
        cbn [fst snd] in *; [done|]. injection Hpre as ->. done.
  - intros (pre & r & post & xs & Hm & Hpre & Hstep).
    destruct pre as [|p pre]; cbn [app] in Hm; injection Hm as -> ->.
    + cbn [runMemberValidationsSequential retR fst snd] in Hstep.
      destruct Hstep as [H1 H2].
      by destruct (memberStep w r s0) as [[[e|x] s1] t1]; cbn [fst snd] in *;
        [injection H1 as ->|].
    + rewrite loop_cons in Hpre, Hstep.
      destruct (memberStep w p s0) as [[[e|x] s1] t1].
      { by cbn [fst snd] in Hpre. }
      assert (H' : fst (fst (runMemberValidationsSequential w (pre ++ r :: post) s1))
                   = inl msg
                   /\ snd (fst (runMemberValidationsSequential w (pre ++ r :: post) s1))
                      = s2).
      { apply IH.
        destruct (runMemberValidationsSequential w pre s1) as [[[e|xs'] sb] tb] eqn:Ep;
          cbn [fst snd] in *; [done|].
        exists pre, r, post, xs'. rewrite Ep. cbn [fst snd]. done. }
      by destruct (runMemberValidationsSequential w (pre ++ r :: post) s1)
        as [[[e|ys] sb] tb]; cbn [fst snd] in *; destruct H' as [H1 H2];
        [injection H1 as ->|].
Qed.

Lemma skipReason_none (r : AirRecord) :
  skipReason r = None <->
  Str.truthy (Str.trim (manualOf r)) = false
  /\ hasDiscountRequest (expectedOf r) = true
  /\ Str.truthy (searchIdOf r) = true.
Proof.
  unfold skipReason.
  destruct (Str.truthy (Str.trim (manualOf r))); [by split; [|intros [? _]]|].
  destruct (hasDiscountRequest (expectedOf r)); cbn [negb];
    [|by split; [|intros (_ & ? & _)]].
  destruct (Str.truthy (searchIdOf r)); cbn [negb]; [done|].
  by split; [|intros (_ & _ & ?)].
Qed.

Lemma memberStep_checked (w : World) (r : AirRecord) :
  skipReason r = None ->
  memberStep w r
  = (run _ <- notify (rec_id r) pending;
     run res <- resolverStep w r;
     recordStep w r res).
Proof.
  intros (Hm & Hr & Hs)%skipReason_none. unfold memberStep. rewrite Hm, Hr, Hs.
  reflexivity.
Qed.

Lemma memberStep_skipped (w : World) (r : AirRecord) (reason : string) (s : RunState) :
  skipReason r = Some reason ->
  fst (fst (memberStep w r s)) = inr (MSkipped (rec_id r) reason)
  /\ store (snd (fst (memberStep w r s))) = store s
  /\ directory (snd (fst (memberStep w r s))) = directory s
  /\ Forall (fun e => match e with
                      | EvUpdate _ _ | EvLog _ _ => True
                      | _ => False
                      end) (snd (memberStep w r s)).
Proof.
  unfold skipReason, memberStep.
  destruct (Str.truthy (Str.trim (manualOf r))).
  { intros [= <-]. repeat split. by repeat constructor. }
  destruct (hasDiscountRequest (expectedOf r)); cbn [negb].
  2:{ intros [= <-]. repeat split. by repeat constructor. }
  destruct (Str.truthy (searchIdOf r)); cbn [negb]; [done|].
  intros [= <-]. repeat split. by repeat constructor.
Qed.

(** What follows the answer of the resolver never throws: a failed store
    write is recorded in the result. *)
Lemma recordStep_eq (w : World) (r : AirRecord) (res : Outcome) (s : RunState) :
  let u := updateMemberValidation w (rec_id r) res (expectedOf r) s in
  exists upd,
    fst (fst u) = inr upd
    /\ recordStep w r res s
       = (inr (MChecked (rec_id r) res upd),
          updated (rec_id r)
            {| p_status := Str.toLowerCase (statusOf res);
               p_reason_code := fst (mapReason (statusOf res));
               p_reason_message := snd (mapReason (statusOf res)) |}
            (snd (fst u)),
          (snd u ++ [EvUpdate (rec_id r)
                       {| p_status := Str.toLowerCase (statusOf res);
                          p_reason_code := fst (mapReason (statusOf res));
                          p_reason_message := snd (mapReason (statusOf res)) |};
                     EvLog "info" "validation.member.result"; EvSleep])%list).
Proof.
  intros u.
  destruct (OrchestratorFacts.updateMemberValidation_total w (rec_id r) res
              (expectedOf r) s) as [upd Hupd].
  exists upd. split; [exact Hupd|]. unfold recordStep. rewrite bindR_eq.
  fold u. fold u in Hupd.
  destruct u as [[[e|upd'] s3] t3]; cbn [fst snd] in *; [done|].
  injection Hupd as ->. reflexivity.
Qed.

Lemma updateMemberValidation_eq (w : World) (id : string) (o : Outcome) (e : string)
    (s : RunState) :
  updateMemberValidation w id o e s
  = if negb (Str.truthy id) then (inr UpdSkipped, s, [])
    else match memberWriteFails w id with
         | Some msg => (inr (UpdError msg), s, [])
         | None =>
             (inr (UpdOk (validationFields w o e)),
              {| job := job s;
                 store := updateMember (store s) id (validationFields w o e);
                 directory := directory s |},
              [EvMemberWrite id (validationFields w o e)])
         end.
Proof.
  unfold updateMemberValidation. destruct (negb (Str.truthy id)); [done|].
  destruct (memberWriteFails w id); done.
Qed.

(** The validator call with its refresh, written out. *)
Lemma validateWithRefresh_eq (w : World) (q : Query) (s : RunState) :
  validateWithRefresh w q s
  = match validateDiscount (directory s) (clock w) q with
    | (inl e, calls) => (inl e, s, List.map EvDir calls)
    | (inr first, calls) =>
        if needsRefresh first then
          match refresh w (directory s) with
          | Some dir' =>
              (fst (validateDiscount dir' (clock w) q),
               {| job := job s; store := store s; directory := dir' |},
               (List.map EvDir calls ++ EvRefresh
                  :: List.map EvDir (snd (validateDiscount dir' (clock w) q)))%list)
          | None => (inr first, s, (List.map EvDir calls ++ [EvRefresh])%list)
          end
        else (inr first, s, List.map EvDir calls)
    end.
Proof.
  unfold validateWithRefresh. rewrite bindR_eq. unfold liftDir at 1.
  destruct (validateDiscount (directory s) (clock w) q) as [[e|first] calls]; [done|].
  destruct (needsRefresh first); [|cbn; by rewrite app_nil_r].
  cbn [fst snd]. rewrite bindR_eq. cbn [emit fst snd]. rewrite bindR_eq.
  cbn [getState fst snd].
  destruct (refresh w (directory s)) as [dir'|]; [|cbn; done].
  rewrite bindR_eq. cbn [setDirectory fst snd]. unfold liftDir.
  cbn [directory]. destruct (validateDiscount dir' (clock w) q) as [x calls'].
  cbn [fst snd app]. by destruct s.
Qed.

Lemma resolverStep_eq (w : World) (r : AirRecord) (s : RunState) :
  resolverStep w r s
  = if devFake w
    then (inr (fakeResult (expectedOf r) (name (queryOf r)) (email (queryOf r))
                 (searchIdOf r)), s, [])
    else (fst (fst (validateWithRefresh w (queryOf r) s)),
          snd (fst (validateWithRefresh w (queryOf r) s)),
          EvLog "debug" "validation.member.start"
            :: snd (validateWithRefresh w (queryOf r) s)).
Proof.
  unfold resolverStep. destruct (devFake w); [done|].
  rewrite bindR_eq. reflexivity.
Qed.

(** The step of a member that goes to the resolver, written out. *)
Lemma memberStep_checked_eq (w : World) (r : AirRecord) (s : RunState) :
  skipReason r = None ->
  let v := resolverStep w r (updated (rec_id r) pending s) in
  memberStep w r s
  = match fst (fst v) with
    | inl e => (inl e, snd (fst v), EvUpdate (rec_id r) pending :: snd v)
    | inr res =>
        let k := recordStep w r res (snd (fst v)) in
        (fst (fst k), snd (fst k), EvUpdate (rec_id r) pending :: (snd v ++ snd k)%list)
    end.
Proof.
  intros Hskip v. rewrite (memberStep_checked w r Hskip).
  rewrite bindR_eq. cbn [notify bindR emit modifyJob fst snd app].
  change {| job := onUpdate (job s) (rec_id r) pending; store := store s;
            directory := directory s |} with (updated (rec_id r) pending s).
  rewrite bindR_eq. fold v. by destruct v as [[[e|res] s2] t2].
Qed.

Lemma validate_same_directory (w : World) (q : Query) (s s' : RunState) :
  directory s = directory s' ->
  fst (fst (validateWithRefresh w q s)) = fst (fst (validateWithRefresh w q s')).
Proof.
  intros H. rewrite !validateWithRefresh_eq, H.
  destruct (validateDiscount (directory s') (clock w) q) as [[e|first] calls]; [done|].
  destruct (needsRefresh first); [|done]. by destruct (refresh w (directory s')).
Qed.

Lemma validate_keeps_store (w : World) (q : Query) (s : RunState) :
  store (snd (fst (validateWithRefresh w q s))) = store s.
Proof.
  rewrite validateWithRefresh_eq.
  destruct (validateDiscount (directory s) (clock w) q) as [[e|first] calls]; [done|].
  destruct (needsRefresh first); [|done]. by destruct (refresh w (directory s)).
Qed.

(** The step of a member throws exactly when the member goes to the
    resolver, validation is not faked and the validator call throws. *)
Lemma memberStep_throws (w : World) (r : AirRecord) (s : RunState) (msg : string) :
  fst (fst (memberStep w r s)) = inl msg <->
  skipReason r = None /\ devFake w = false
  /\ fst (fst (validateWithRefresh w (queryOf r) s)) = inl msg.
Proof.
  destruct (skipReason r) as [reason|] eqn:Hskip.
  { destruct (memberStep_skipped w r reason s Hskip) as [H _]. rewrite H.
    by split; [|intros [? _]]. }
  rewrite (memberStep_checked_eq w r s Hskip). cbv zeta.
  rewrite resolverStep_eq.
  rewrite (validate_same_directory w (queryOf r) s (updated (rec_id r) pending s))
    by done.
  destruct (devFake w).
  { cbn [fst snd].
    destruct (recordStep_eq w r (fakeResult (expectedOf r) (name (queryOf r))
                                   (email (queryOf r)) (searchIdOf r))
                (updated (rec_id r) pending s)) as (upd & _ & ->).
    cbn [fst snd]. by split; [|intros (_ & ? & _)]. }
  cbn [fst snd].
  destruct (fst (fst (validateWithRefresh w (queryOf r)
                        (updated (rec_id r) pending s)))) as [e|res] eqn:Ev.
  - cbn [fst]. split; [by intros [= ->]|]. by intros (_ & _ & [= ->]).
  - destruct (recordStep_eq w r res
                (snd (fst (validateWithRefresh w (queryOf r)
                             (updated (rec_id r) pending s))))) as (upd & _ & ->).
    cbn [fst]. by split; [|intros (_ & _ & ?)].
Qed.

Lemma memberStep_throw_keeps_store (w : World) (r : AirRecord) (s : RunState)
    (msg : string) :
  fst (fst (memberStep w r s)) = inl msg ->
  store (snd (fst (memberStep w r s))) = store s.
Proof.
  intros H. pose proof H as (Hskip & Hfake & _)%memberStep_throws.
  rewrite (memberStep_checked_eq w r s Hskip) in H |- *. cbv zeta in *.
  rewrite resolverStep_eq, Hfake in H |- *. cbn [fst snd] in *.
  destruct (fst (fst (validateWithRefresh w (queryOf r)
                        (updated (rec_id r) pending s)))) as [e|res] eqn:Ev.
  - cbn [fst snd]. by rewrite validate_keeps_store.
  - destruct (recordStep_eq w r res
                (snd (fst (validateWithRefresh w (queryOf r)
                             (updated (rec_id r) pending s))))) as (upd & _ & Hk).
    rewrite Hk in H. by cbn [fst] in H.
Qed.

(** A validator call whose search request fails, or that finds no
    credentials, throws. *)
Lemma validate_search_fails (w : World) (q : Query) (s : RunState) (msg : string) :
  credsPresent (directory s) = true ->
  search (directory s) (sanitizeId (search_id q)) = inl msg ->
  fst (fst (validateWithRefresh w q s)) = inl msg.
Proof.
  intros Hc Hs. rewrite validateWithRefresh_eq.
  unfold validateDiscount, searchConstituents, call. rewrite Hc, Hs. reflexivity.
Qed.

Lemma validate_no_creds (w : World) (q : Query) (s : RunState) :
  credsPresent (directory s) = false ->
  fst (fst (validateWithRefresh w q s)) = inl missingCreds.
Proof.
  intros Hc. rewrite validateWithRefresh_eq.
  unfold validateDiscount, searchConstituents, call. rewrite Hc. reflexivity.
Qed.

(** A failed store write of a member is recorded in the member's result
    and leaves the store as it was. *)
Lemma memberStep_write_fails (w : World) (r : AirRecord) (s : RunState)
    (x : MemberResult) (msg : string) :
  skipReason r = None -> rec_id r <> "" ->
  memberWriteFails w (rec_id r) = Some msg ->
  fst (fst (memberStep w r s)) = inr x ->
  (exists o, x = MChecked (rec_id r) o (UpdError msg))
  /\ store (snd (fst (memberStep w r s))) = store s.
Proof.
  intros Hskip Hid Hfail. apply truthy_true in Hid.
  rewrite (memberStep_checked_eq w r s Hskip). cbv zeta.
  set (v := resolverStep w r (updated (rec_id r) pending s)).
  assert (Hst : store (snd (fst v)) = store s).
  { unfold v. rewrite resolverStep_eq. destruct (devFake w); [done|].
    cbn [fst snd]. by rewrite validate_keeps_store. }
  destruct (fst (fst v)) as [e|res]; [done|].
  destruct (recordStep_eq w r res (snd (fst v))) as (upd & Hupd & ->).
  rewrite updateMemberValidation_eq, Hid, Hfail in Hupd |- *.
  cbn [negb fst snd] in *. injection Hupd as <-.
  intros [= <-]. split; [by eexists|]. by cbn [updated store].
Qed.

(** The catch of the run, written out. *)
Lemma runJob_eq (w : World) (id : string) (s : RunState) :
  runJob w id s
  = match runBody w id s with
    | (inl msg, s1, t1) =>
        (inr tt,
         {| job := finish (job s1) Error (ResError msg) (finishedIso w);
            store := store s1; directory := directory s1 |},
         (t1 ++ [EvLog "error" "orchestrator.exception"])%list)
    | (inr a, s1, t1) => (inr a, s1, t1)
    end.
Proof.
  unfold runJob. rewrite tryCatch_eq.
  by destruct (runBody w id s) as [[[msg|a] s1] t1].
Qed.

(** A failed fetch: the body throws at once. *)
Lemma runBody_fetch_fails (w : World) (id : string) (s : RunState) (msg : string) :
  fetchStartupAndMembers w id s = (inl msg, s, []) ->
  runBody w id s = (inl msg, s, []).
Proof. intros H. unfold runBody. by rewrite bindR_eq, H. Qed.

Lemma attach_fails (w : World) (rec : AirRecord) (filename msg : string) (s : RunState) :
  attachFails w = Some msg ->
  attachAgreement w rec filename s
  = (inr tt, s, [EvLog "warn" "orchestrator.attach.error"]).
Proof. intros H. unfold attachAgreement. by rewrite tryCatch_eq, H. Qed.

(** The body of a run after a successful fetch, with the gates open:
    the loop, then the document, then the attachment. *)
Lemma runBody_open (w : World) (id : string) (s : RunState)
    (f : gmap string FieldVal) :
  fetchStartupFails w = None -> fetchMembersFails w = None ->
  startups (store s) !! id = Some f ->
  let members := listTeamMembersByStartupId (store s) id in
  gatesOpen (gatesOf {| rec_id := id; fields := f |} members) = true ->
  let loop := runMemberValidationsSequential w members (seeded members s) in
  let s1 := snd (fst loop) in
  let payload := Pricing.Main.buildPdfPayload (store s1) (payloadStartupReadFails w)
                   (payloadTeamReadFails w) id in
  let filename :=
    suggestPdfFilename w
      (orStr (Pricing.Main.legal_name payload)
         (orStr (strOr (f !! "Startup Name (or working title)")) "agreement")) in
  let pre := [EvLog "info" "orchestrator.start"; gatesEvent] in
  let mid := [EvLog "info" "orchestrator.validations.done";
              EvLog "info" "orchestrator.pdf.start"; EvRender] in
  let a := attachAgreement w {| rec_id := id; fields := f |} filename s1 in
  runBody w id s
  = match fst (fst loop) with
    | inl e => (inl e, s1, (pre ++ snd loop)%list)
    | inr results =>
        match render w payload with
        | inl msg => (inl msg, s1, (pre ++ snd loop ++ mid)%list)
        | inr _ =>
            match cacheFails w with
            | Some msg => (inl msg, s1, (pre ++ snd loop ++ mid)%list)
            | None =>
                (inr tt,
                 {| job := finish (job (snd (fst a))) Done
                             (ResDone (baseUrl w ++ "/agreement/latest/" ++ token w)
                                filename results)
                             (finishedIso w);
                    store := store (snd (fst a));
                    directory := directory (snd (fst a)) |},
                 (pre ++ snd loop ++ mid ++ [EvCache (downloadToken w)] ++ snd a
                    ++ [EvLog "info" "orchestrator.done"])%list)
            end
        end
    end.
Proof.
  intros H1 H2 H3 members Hg loop s1 payload filename pre mid a.
  unfold runBody.
  rewrite bindR_eq, (OrchestratorFacts.fetch_ok w id s f H1 H2 H3).
  fold members. cbn [fst snd app].
  do 4 (rewrite bindR_eq; cbn [log emit modifyJob fst snd app job store directory]).
  rewrite Hg. cbn [negb].
  change {| job := withChecklist _ _; store := store s; directory := directory s |}
    with (seeded members s).
  rewrite bindR_eq. fold loop.
  destruct loop as [[[e|results] s1'] t1] eqn:El; cbn [fst snd] in *; [done|].
  subst s1. cbn [fst snd] in *.
  rewrite bindR_eq; cbn [log emit fst snd app].
  rewrite bindR_eq; cbn [getState fst snd app].
  fold payload. change (get {| rec_id := id; fields := f |} _)
    with (f !! "Startup Name (or working title)").
  fold filename.
  do 2 (rewrite bindR_eq; cbn [log emit fst snd app]).
  destruct (render w payload) as [msg|pdf].
  { reflexivity. }
  destruct (cacheFails w) as [msg|].
  { reflexivity. }
  rewrite bindR_eq; cbn [log emit fst snd app].
  rewrite bindR_eq. fold a.
  pose proof (OrchestratorFacts.attachAgreement_total w {| rec_id := id; fields := f |}
                filename s1') as Ha. fold a in Ha.
  destruct a as [[[e|[]] s2] t2]; cbn [fst snd] in *; [done|].
  rewrite bindR_eq. cbn [log emit modifyJob bindR fst snd app].
  reflexivity.
Qed.



End FailureFacts.

(* ===================================================================== *)
(** ** The loop: which members it leaves out                              *)
(* ===================================================================== *)

Module SkipFacts.
Import Airtable Validator Orchestrator Shapes Conduct StrFacts RunFacts FailureFacts.

Lemma directoryCalls_app (t t' : list Event) :
  directoryCalls (t ++ t') = (directoryCalls t ++ directoryCalls t')%list.
Proof. apply omap_app. Qed.

Lemma directoryCalls_map (calls : list DirCall) :
  directoryCalls (List.map EvDir calls) = calls.
Proof. induction calls as [|c calls IH]; [done|]. cbn. by f_equal. Qed.

Lemma directoryCalls_none (t : list Event) :
  Forall notDirectory t -> directoryCalls t = [].
Proof.
  induction 1 as [|e t He _ IH]; [done|].
  unfold directoryCalls in *. cbn. rewrite IH. by destruct e.
Qed.

Lemma directoryCalls_skip (e : Event) (t : list Event) :
  notDirectory e -> directoryCalls (e :: t) = directoryCalls t.
Proof. by destruct e. Qed.

Lemma recordStep_trace (w : World) (r : AirRecord) (res : Outcome) (s : RunState) :
  Forall notDirectory (snd (recordStep w r res s)).
Proof.
  destruct (recordStep_eq w r res s) as (upd & _ & ->). cbn [snd].
  rewrite updateMemberValidation_eq.
  destruct (negb _); [by repeat constructor|].
  destruct (memberWriteFails w (rec_id r)); by repeat constructor.
Qed.

(** The status the loop leaves on the checklist entry of a member is
    "skipped" exactly for a manual override and for a member without
    request. *)
Lemma status_skipped_iff (w : World) (r : AirRecord) (s : RunState) :
  outcomeOf (snd (memberStep w r s)) = "skipped" <->
  (Str.truthy (Str.trim (manualOf r)) || negb (hasDiscountRequest (expectedOf r)))%bool
  = true.
Proof.
  destruct (Str.truthy (Str.trim (manualOf r))) eqn:Hm.
  { unfold memberStep. rewrite Hm. by vm_compute. }
  destruct (hasDiscountRequest (expectedOf r)) eqn:Hr.
  2:{ unfold memberStep. rewrite Hm, Hr. by vm_compute. }
  cbn [negb orb]. split; [|done]. intros Hout. exfalso. unfold outcomeOf in Hout.
  destruct (Str.truthy (searchIdOf r)) eqn:Hs.
  - destruct (OrchestratorFacts.memberStep_checked_updates w r s Hm Hr Hs)
      as [Hu|[res Hu]]; rewrite Hu in Hout; cbn in Hout; [done|].
    by apply OrchestratorFacts.statusOf_not_skipped in Hout.
  - unfold memberStep in Hout. rewrite Hm, Hr, Hs in Hout. by vm_compute in Hout.
Qed.




End SkipFacts.
